(** * umlbox: the boot configuration protocol and the guest supervisor

    A shallow embedding of the two programs of the repository:

    - [umlbox], the host orchestrator (Python): it assembles the
      configuration, sorts the mounts, frames the serialized payload as a
      block image and supervises the guest with a timeout escalation;
    - [init.c], the guest supervisor running as PID 1: it reads the image
      from [/ubda], applies mounts, runs the commands and powers off.

    Conventions of the model:

    - a process is a computation on a [state] that holds the trace of
      what the process did; the calls it makes are events of the trace
      and what the kernel answers comes from oracles (the variables of
      the section [Guest], and the scripts held in the state);
    - [fork] is followed on both sides: when the oracle answers 0 the
      computation goes on as the child;
    - of the output only the diagnostic of [fail] and the report of a
      failed [execv] are events, the other [printf] are left out;
    - integers of the C code are [Z] with the wrap-around written out
      ([size_t] has 64 bits, words in memory are little-endian), bytes
      are [Byte.byte], C and Python strings are [string], one character
      per code point;
    - the protobuf codec (the code generated from config.proto) is a
      parameter on both sides. *)

From Stdlib Require Import ZArith Lia Strings.Byte Strings.Ascii.
From stdpp Require Import base option list strings pretty gmap sorting.

Local Open Scope string_scope.
Local Open Scope list_scope.
Local Open Scope Z_scope.

(** ** Machine integers and bytes *)

Global Instance byte_eq_dec : EqDecision byte := Byte.byte_eq_dec.

Module Word.

(** [size_t] of the guest (LP64). *)
Definition size_bits : Z := 64.
Definition size_mod : Z := 2 ^ size_bits.

(** Arithmetic on [size_t] wraps around. *)
Definition wrap (z : Z) : Z := z mod size_mod.
Definition sub (a b : Z) : Z := wrap (a - b).

(** Conversion of a [size_t] to [ssize_t]. *)
Definition to_signed (z : Z) : Z :=
  if wrap z <? size_mod / 2 then wrap z else wrap z - size_mod.

(** Conversion to [int], as in [int ret = readall(...)]. *)
Definition to_int (z : Z) : Z :=
  if z mod 2 ^ 32 <? 2 ^ 31 then z mod 2 ^ 32 else z mod 2 ^ 32 - 2 ^ 32.

Definition byte_to_Z (b : byte) : Z := Z.of_N (Byte.to_N b).

Definition byte_of_Z (z : Z) : byte :=
  match Byte.of_N (Z.to_N (z mod 256)) with
  | Some b => b
  | None => x00
  end.

(** A [uint32_t] in memory, least significant byte first. *)
Definition le32 (n : Z) : list byte :=
  [byte_of_Z n; byte_of_Z (n / 256); byte_of_Z (n / 65536);
   byte_of_Z (n / 16777216)].

Definition of_le32 (bs : list byte) : Z :=
  match bs with
  | [b0; b1; b2; b3] =>
      byte_to_Z b0 + 256 * byte_to_Z b1 + 65536 * byte_to_Z b2
      + 16777216 * byte_to_Z b3
  | _ => 0
  end.

End Word.

(** ** errno values used by the code (Linux numbering) *)

Definition EINTR : Z := 4.
Definition ENOENT : Z := 2.
Definition ENOEXEC : Z := 8.
Definition EACCES : Z := 13.
Definition EINVAL : Z := 22.
Definition EPIPE : Z := 32.

(** ** File descriptors as the kernel serves them

    A descriptor holds the bytes not yet consumed and a schedule of what
    the next calls of [read] will be answered with.  Once the schedule
    is used up the descriptor behaves like a plain file: a read returns
    as many bytes as asked for, or all that is left. *)

Inductive answer :=
| AtMost (k : positive)   (* a short read: at most [k] bytes this time *)
| Error (e : Z).          (* the call fails with [errno = e] *)

Record file := File { f_data : list byte; f_sched : list answer }.

Definition plain_file (bs : list byte) : file := File bs [].

(** Result of one [read(fd, at, n)]: the return value, the bytes stored
    at [at], the errno it sets and the descriptor afterwards. *)
Record read_result := ReadResult {
  rr_ret : Z; rr_bytes : list byte; rr_errno : option Z; rr_file : file
}.

Definition deliver (f : file) (sched : list answer) (n : Z) : read_result :=
  let k := Z.to_nat (Z.max 0 n) in
  ReadResult (Z.of_nat (length (take k (f_data f)))) (take k (f_data f)) None
             (File (drop k (f_data f)) sched).

Definition read (f : file) (n : Z) : read_result :=
  match f_sched f with
  | [] => deliver f [] n
  | AtMost k :: sched => deliver f sched (Z.min n (Z.pos k))
  | Error e :: sched => ReadResult (-1) [] (Some e) (File (f_data f) sched)
  end.

(** ** Memory buffers

    A buffer is the list of the bytes it holds, uninitialised ones
    included; storing past its end is a memory fault. *)

Definition store (buf : list byte) (at_ : Z) (bs : list byte) : option (list byte) :=
  if (0 <=? at_) && (at_ + Z.of_nat (length bs) <=? Z.of_nat (length buf)) then
    Some (take (Z.to_nat at_) buf ++ bs ++ drop (Z.to_nat at_ + length bs)%nat buf)
  else None.

(** ** [readall] of init.c *)

Inductive readall_result :=
| Returned (ret : Z) (errno : option Z) (buf : list byte) (f : file)
| Fault.

(** The loop of [readall], one unfolding per iteration.  [at_] is the
    offset of the pointer [at] in the buffer, [got] the [size_t]
    counter.  The counter is updated with [got -= chunk], as the source
    has it. *)
Fixpoint readall_loop (fuel : nat) (f : file) (buf : list byte)
    (at_ got count : Z) : readall_result :=
  if got <? count then
    match fuel with
    | O => Fault
    | S fuel =>
        let r := read f (Word.sub count got) in
        if rr_ret r <? 0 then Returned (-1) (rr_errno r) buf (rr_file r)
        else if rr_ret r =? 0 then Returned (-1) (Some EPIPE) buf (rr_file r)
        else
          match store buf at_ (rr_bytes r) with
          | None => Fault
          | Some buf' =>
              readall_loop fuel (rr_file r) buf' (at_ + rr_ret r)
                           (Word.sub got (rr_ret r)) count
          end
    end
  else Returned (Word.to_signed count) None buf f.

(** Every iteration that goes on consumes at least one byte of the
    descriptor, so its length plus one bounds the iterations. *)
Definition readall (f : file) (buf : list byte) (count : Z) : readall_result :=
  readall_loop (S (length (f_data f))) f buf 0 0 count.

(** ** The configuration (config.proto) *)

Record Mount := {
  target : string; source : string; fstype : string; data : string;
  ro : bool; nosuid : bool
}.

Record EnvVar := { key : string; value : string }.

(** [resource] is the number of the enum value as it arrives. *)
Record Limit := { resource : Z; soft : Z; hard : Z }.

Record Run := {
  daemon : bool; cmd : string; arg : list string; cwd : string;
  input : string; output : string; error : string; cat_output : bool;
  env : list EnvVar; user : bool; uid : Z; gid : Z; limit : list Limit
}.

Record Config := {
  tty_raw : list string; mount : list Mount; run : list Run;
  random : list byte
}.

(** Values of [Limit.Resource]. *)
Definition LIMIT__RESOURCE__UNKNOWN : Z := 0.
Definition LIMIT__RESOURCE__AS : Z := 1.
Definition LIMIT__RESOURCE__CORE : Z := 2.
Definition LIMIT__RESOURCE__CPU : Z := 3.
Definition LIMIT__RESOURCE__DATA : Z := 4.
Definition LIMIT__RESOURCE__FSIZE : Z := 5.
Definition LIMIT__RESOURCE__MEMLOCK : Z := 6.
Definition LIMIT__RESOURCE__NOFILE : Z := 7.
Definition LIMIT__RESOURCE__NPROC : Z := 8.
Definition LIMIT__RESOURCE__STACK : Z := 9.

(** ** C strings *)

Module CStr.

(** [strchr s c]: the part of [s] before the first [c] and the part
    after it, when [c] occurs. *)
Fixpoint strchr (s : string) (c : ascii) : option (string * string) :=
  match s with
  | EmptyString => None
  | String a s' =>
      if Ascii.eqb a c then Some (EmptyString, s')
      else match strchr s' c with
           | Some (pre, post) => Some (String a pre, post)
           | None => None
           end
  end.

(** [*s]: the first character, NUL on the empty string. *)
Definition first (s : string) : option ascii :=
  match s with EmptyString => None | String a _ => Some a end.

Definition nonempty (s : string) : bool :=
  match s with EmptyString => false | _ => true end.

End CStr.

(** ** The guest process: calls, events and state *)

(** Calls whose return value is checked by the code.  The oracle [sys]
    of the section below gives what each returns. *)
Inductive call :=
| sys_mknod (path : string) (major minor : Z)
| sys_open (path : string) (flags : Z)
| sys_dup2 (fd new_fd : Z)
| sys_clearenv
| sys_mkdir (path : string)
| sys_sigaction (sig : Z)
| sys_malloc (n : Z)
| sys_ioctl_addentropy (fd : Z) (bytes : list byte)
| sys_close (fd : Z)
| sys_tcgetattr (fd : Z)
| sys_tcsetattr_raw (fd : Z)
| sys_mount (source target fstype : string) (ro nosuid : bool)
            (data : option string)
| sys_chdir (path : string)
| sys_chroot (path : string)
| sys_setgid (g : Z)
| sys_setuid (u : Z)
| sys_setrlimit (res cur max : Z)
| sys_sigprocmask (block : bool)
| sys_pipe
| sys_kill (pid sig : Z).

Inductive event :=
| Call (c : call)
| Close (fd : Z)                              (* unchecked close *)
| Mkdir (path : string)                       (* unchecked mkdir *)
| Setenv (k v : string)
| Fork (ret : Z)
| Execv (path : string) (argv : list string)
| Execvp (file : string) (argv : list string)
| Diag (msg : string) (e : Z)     (* fail: "umlbox: <msg>: <strerror>" *)
| Report (name : string) (e : Z)  (* "<cmd>? <strerror(exec_errno)>" *)
| Sync
| PowerOff
| Exit (code : Z).

(** What the kernel answers in one iteration of the wait loop of
    [handle_run]. *)
Inductive tick :=
| WaitFail (e : Z)         (* waitpid returns -1 *)
| Reaped (pid : positive)  (* waitpid returns the pid of a dead child *)
| PollFail (e : Z)         (* no child to reap; ppoll returns -1 *)
| CtlFail (e : Z)          (* fd 0 is readable; read returns -1 *)
| CtlRead (bs : list byte) (* fd 0 is readable; read stores [bs] *).

Record state := State {
  in_init : bool;                 (* the global of that name *)
  errno : Z;
  environ : gmap string string;   (* the process environment *)
  trace : list event;             (* what the process did so far *)
  ubda : file;                    (* the block device /ubda *)
  ticks : list tick;              (* what the wait loops will see *)
  pids : list Z;                  (* what successive forks return *)
  rands : list Z                  (* what successive random() return *)
}.

Definition set_in_init (b : bool) (s : state) : state :=
  State b (errno s) (environ s) (trace s) (ubda s) (ticks s) (pids s) (rands s).
Definition set_errno (e : Z) (s : state) : state :=
  State (in_init s) e (environ s) (trace s) (ubda s) (ticks s) (pids s) (rands s).
Definition set_environ (m : gmap string string) (s : state) : state :=
  State (in_init s) (errno s) m (trace s) (ubda s) (ticks s) (pids s) (rands s).
Definition log (e : event) (s : state) : state :=
  State (in_init s) (errno s) (environ s) (trace s ++ [e]) (ubda s) (ticks s)
        (pids s) (rands s).
Definition set_ubda (f : file) (s : state) : state :=
  State (in_init s) (errno s) (environ s) (trace s) f (ticks s) (pids s) (rands s).
Definition set_ticks (ts : list tick) (s : state) : state :=
  State (in_init s) (errno s) (environ s) (trace s) (ubda s) ts (pids s) (rands s).
Definition set_pids (ps : list Z) (s : state) : state :=
  State (in_init s) (errno s) (environ s) (trace s) (ubda s) (ticks s) ps (rands s).
Definition set_rands (rs : list Z) (s : state) : state :=
  State (in_init s) (errno s) (environ s) (trace s) (ubda s) (ticks s) (pids s) rs.

(** A computation of the process ends with a value, with the process
    gone ([Halt]: exit, power-off or a successful exec), or blocked for
    ever in a system call ([Stuck]). *)
Inductive result (A : Type) :=
| Ok (a : A)
| Halt
| Stuck.
Arguments Ok {A} a.
Arguments Halt {A}.
Arguments Stuck {A}.

Definition M (A : Type) : Type := state → result A * state.

Global Instance M_ret : MRet M := λ A a s, (Ok a, s).
Global Instance M_bind : MBind M := λ A B k m s,
  match m s with
  | (Ok a, s') => k a s'
  | (Halt, s') => (Halt, s')
  | (Stuck, s') => (Stuck, s')
  end.

Definition emit (e : event) : M unit := λ s, (Ok tt, log e s).
Definition get {A} (proj : state → A) : M A := λ s, (Ok (proj s), s).
Definition put (upd : state → state) : M unit := λ s, (Ok tt, upd s).
Definition halt {A} : M A := λ s, (Halt, s).

Definition O_RDONLY : Z := 0.
Definition O_WRONLY : Z := 1.
Definition O_RDWR : Z := 2.
Definition SIGTERM : Z := 15.
Definition SIGCHLD : Z := 17.
Definition EAGAIN : Z := 11.

Definition DEFAULT_PATH : string := "/usr/local/bin:/bin:/usr/bin".
Definition DEFAULT_SHELL : string := "/bin/bash".

(** The magic word of the image header. *)
Definition MAGIC : Z := 0xdeadbeef.

(** ** init.c *)

Section Guest.

(** What the kernel and the C library answer. *)
Variable sys : call → Z.          (* return value of a checked call *)
Variable sys_errno : call → Z.    (* errno it leaves when it fails *)
(** [None]: the process image is replaced and the call does not
    return; [Some e]: the call returns -1 with [errno = e]. *)
Variable execv : string → list string → option Z.
Variable execvp : string → list string → option Z.
(** The decoder generated from config.proto by protobuf-c. *)
Variable config__unpack : list byte → option Config.
(** Contents of memory that was never written. *)
Variable uninit : nat → byte.
(** The two descriptors [pipe] hands out. *)
Variable cat_pipe : Z * Z.

Definition fresh (n : Z) : list byte := uninit <$> seq 0 (Z.to_nat n).

(** [fail]: print the diagnostic; PID 1 powers the guest off, a child
    exits with status 1. *)
Definition fail {A} (msg : string) : M A :=
  e ← get errno;
  emit (Diag msg e);;
  i ← get in_init;
  if (i : bool) then emit PowerOff;; halt else emit (Exit 1);; halt.

(** The macro [MUST(msg, err, func, ...)]. *)
Definition MUST (msg : string) (err : Z) (c : call) : M Z :=
  emit (Call c);;
  if sys c =? err then put (set_errno (sys_errno c));; fail msg
  else mret (sys c).

(** [MUST(msg, -1, readall, fd, buf, count)] on the descriptor of
    /ubda; the value is the buffer afterwards.  The macro declares
    [ret] with the type of [err], so the [ssize_t] that [readall]
    returns is converted to [int] before it is compared with -1. *)
Definition MUST_readall (msg : string) (buf : list byte) (count : Z)
    : M (list byte) :=
  f ← get ubda;
  match readall f buf count with
  | Fault => halt
  | Returned ret e buf' f' =>
      put (set_ubda f');;
      match e with Some e => put (set_errno e) | None => mret tt end;;
      if Word.to_int ret =? -1 then fail msg else mret buf'
  end.

Definition open_to (new_fd : Z) (path : option string) (flags : Z)
    (fallback_fd : Z) : M unit :=
  let do_open := match path with
                 | Some p => CStr.nonempty p
                 | None => false
                 end in
  fd ← (if do_open then MUST "open" (-1) (sys_open (default "" path) flags)
        else mret fallback_fd);
  if negb (fd =? -1) && negb (fd =? new_fd) then
    MUST "dup2" (-1) (sys_dup2 fd new_fd);;
    if do_open then emit (Close fd) else mret tt
  else mret tt.

(** The block of [main] that parses the configuration. *)
Definition load_config : M Config :=
  fd ← MUST "open /ubda" (-1) (sys_open "/ubda" O_RDONLY);
  hdr ← MUST_readall "read /ubda header" (fresh 8) 8;
  let hdr0 := Word.of_le32 (take 4 hdr) in
  let hdr1 := Word.of_le32 (take 4 (drop 4 hdr)) in
  (if negb (hdr0 =? MAGIC) then put (set_errno EINVAL);; fail "bad /ubda header"
   else mret tt);;
  MUST "malloc config" 0 (sys_malloc hdr1);;
  data ← MUST_readall "read config" (fresh hdr1) hdr1;
  match config__unpack data with
  | None => put (set_errno EINVAL);; fail "bad config"
  | Some cfg => emit (Close fd);; mret cfg
  end.

Definition handle_random (data : list byte) : M unit :=
  MUST "mknod /random" (-1) (sys_mknod "/random" 1 8);;
  fd ← MUST "open /random" (-1) (sys_open "/random" O_RDONLY);
  MUST "malloc rand_pool_info" 0 (sys_malloc (8 + Z.of_nat (length data)));;
  MUST "ioctl /random" (-1) (sys_ioctl_addentropy fd data);;
  MUST "close /random" (-1) (sys_close fd);;
  mret tt.

Definition handle_tty_raw (dev : string) : M unit :=
  fd ← MUST "open tty_raw" (-1) (sys_open dev O_RDWR);
  MUST "tcgetattr" (-1) (sys_tcgetattr fd);;
  MUST "tcsetattr" (-1) (sys_tcsetattr_raw fd);;
  emit (Close fd).

(** The loop of [mkdirs]: [tail] is cut at its first slash, the part
    before it is created and entered unless it is empty. *)
Fixpoint mkdirs_loop (fuel : nat) (tail : string) : M unit :=
  match fuel with
  | O => mret tt
  | S fuel =>
      let '(part, tail') := match CStr.strchr tail "/" with
                            | Some (pre, post) => (pre, Some post)
                            | None => (tail, None)
                            end in
      (if CStr.nonempty part then
         emit (Mkdir part);; MUST "chdir" (-1) (sys_chdir part);; mret tt
       else mret tt);;
      match tail' with
      | Some t => mkdirs_loop fuel t
      | None => mret tt
      end
  end.

Definition mkdirs (dir : string) : M unit :=
  MUST "chdir /" (-1) (sys_chdir "/");;
  mkdirs_loop (S (String.length dir)) dir;;
  MUST "chdir /" (-1) (sys_chdir "/");;
  mret tt.

(** The mount point [handle_mount] builds with
    [snprintf(target, ..., "/host%s%s", ...)]; the buffer has room for
    all of it. *)
Definition mount_point (mnt : Mount) : string :=
  "/host" +:+ (if decide (CStr.first (target mnt) = Some "/"%char) then ""
               else "/") +:+ target mnt.

Definition handle_mount (mnt : Mount) : M unit :=
  let tgt := mount_point mnt in
  mkdirs tgt;;
  MUST "mount" (-1)
    (sys_mount (source mnt) tgt (fstype mnt) (ro mnt) (nosuid mnt)
               (if CStr.nonempty (data mnt) then Some (data mnt) else None));;
  mret tt.

Definition hostify (cwd : string) (user : bool) (uid gid : Z) : M unit :=
  MUST "chdir root" (-1) (sys_chdir "/host");;
  MUST "chroot" (-1) (sys_chroot ".");;
  (if CStr.nonempty cwd then MUST "chdir cwd" (-1) (sys_chdir cwd);; mret tt
   else mret tt);;
  if user then
    MUST "setgid" (-1) (sys_setgid gid);;
    MUST "setuid" (-1) (sys_setuid uid);;
    mret tt
  else mret tt.

(** *** Resource limits *)

Definition RLIMIT_CPU : Z := 0.
Definition RLIMIT_FSIZE : Z := 1.
Definition RLIMIT_DATA : Z := 2.
Definition RLIMIT_STACK : Z := 3.
Definition RLIMIT_CORE : Z := 4.
Definition RLIMIT_NPROC : Z := 6.
Definition RLIMIT_NOFILE : Z := 7.
Definition RLIMIT_MEMLOCK : Z := 8.
Definition RLIMIT_AS : Z := 9.
Definition RLIM_INFINITY : Z := 2 ^ 64 - 1.

(** The table [resource_map], indexed by the value of
    [Limit.Resource]; the entry of index 0 is not initialised by the
    designators and so is [{ false, 0 }]. *)
Definition resource_map : list (bool * Z) :=
  [ (false, 0);
    (true, RLIMIT_AS); (true, RLIMIT_CORE); (true, RLIMIT_CPU);
    (true, RLIMIT_DATA); (true, RLIMIT_FSIZE); (true, RLIMIT_MEMLOCK);
    (true, RLIMIT_NOFILE); (true, RLIMIT_NPROC); (true, RLIMIT_STACK) ].

Definition n_resource_map : Z := Z.of_nat (length resource_map).

Definition resource_entry (r : Z) : bool * Z :=
  default (false, 0) (resource_map !! Z.to_nat r).

Fixpoint set_limits (limit : list Limit) : M unit :=
  match limit with
  | [] => mret tt
  | l :: rest =>
      (if (resource l <? 0) || (n_resource_map <=? resource l)
          || negb (resource_entry (resource l)).1
       then put (set_errno EINVAL);; fail "set_limits"
       else mret tt);;
      let rlim_cur := if 0 <=? soft l then soft l else RLIM_INFINITY in
      let rlim_max := if 0 <=? hard l then hard l else RLIM_INFINITY in
      MUST "setrlimit" (-1)
        (sys_setrlimit (resource_entry (resource l)).2 rlim_cur rlim_max);;
      set_limits rest
  end.

(** *** Resolving and executing the command *)

(** The [do ... while (path && *path)] loop of the child.  [path] is
    the part of PATH not yet tried ([None] when the command has a
    slash), [cmd] the candidate buffer, [exec_errno] the error to
    report.  The value is the final [exec_errno]; the computation
    halts when an [execv] succeeds. *)
Fixpoint exec_loop (fuel : nat) (name : string) (args : list string)
    (path : option string) (cmd : string) (exec_errno : Z) : M Z :=
  match fuel with
  | O => mret exec_errno
  | S fuel =>
      let '(cmd, path) :=
        match path with
        | Some p =>
            match CStr.strchr p ":" with
            | Some (dir, rest) => (dir +:+ "/" +:+ name, Some rest)
            | None => (p +:+ "/" +:+ name, Some "")
            end
        | None => (cmd, None)
        end in
      emit (Execv cmd (name :: args));;
      match execv cmd (name :: args) with
      | None => halt
      | Some e =>
          put (set_errno e);;
          if e =? ENOEXEC then
            emit (Execv DEFAULT_SHELL (DEFAULT_SHELL :: cmd :: args));;
            match execv DEFAULT_SHELL (DEFAULT_SHELL :: cmd :: args) with
            | None => halt
            | Some e' =>
                put (set_errno e');;
                mret (if exec_errno =? EACCES then exec_errno else e')
            end
          else
            let exec_errno := if exec_errno =? EACCES then exec_errno else e in
            match path with
            | Some p =>
                if CStr.nonempty p
                then exec_loop fuel name args path cmd exec_errno
                else mret exec_errno
            | None => mret exec_errno
            end
      end
  end.

(** [setenv(k, v, 1)]; the C library refuses an empty name and a name
    with an equals sign, and the code does not look at the result. *)
Definition setenv (k v : string) : M unit :=
  emit (Setenv k v);;
  if CStr.nonempty k && negb (bool_decide (is_Some (CStr.strchr k "=")))
  then m ← get environ; put (set_environ (<[k:=v]> m))
  else mret tt.

Definition getenv (k : string) : M (option string) :=
  m ← get environ; mret (m !! k).

(** From [char *cmd = run->cmd] to [exit(1)]. *)
Definition resolve_and_exec (run : Run) : M unit :=
  let has_slash := bool_decide (is_Some (CStr.strchr (cmd run) "/")) in
  path ← (if has_slash then mret None
          else p ← getenv "PATH";
               let p := default DEFAULT_PATH p in
               MUST "malloc (cmd)" 0
                 (sys_malloc (Z.of_nat (String.length p)
                              + Z.of_nat (String.length (cmd run)) + 2));;
               mret (Some p));
  exec_errno ← exec_loop (S (String.length (default "" path))) (cmd run)
                 (arg run) path (cmd run) 0;
  emit (Report (cmd run) exec_errno);;
  emit (Exit 1);;
  halt.

(** The branch [if (child == 0)] of [handle_run]. *)
Definition child_branch (run : Run) (uid gid cat : Z) : M unit :=
  put (set_in_init false);;
  open_to 0 (Some (if CStr.nonempty (input run) then input run else "/null"))
          O_RDONLY (-1);;
  (if negb (cat =? -1) then
     (if negb (cat_pipe.2 =? 1)
      then MUST "dup2 (cat -> out)" (-1) (sys_dup2 cat_pipe.2 1);; mret tt
      else mret tt);;
     (if negb (cat_pipe.2 =? 2)
      then MUST "dup2 (cat -> err)" (-1) (sys_dup2 cat_pipe.2 2);; mret tt
      else mret tt);;
     (if 2 <? cat_pipe.1 then emit (Close cat_pipe.1) else mret tt);;
     (if 2 <? cat_pipe.2 then emit (Close cat_pipe.2) else mret tt)
   else
     open_to 1 (Some (if CStr.nonempty (output run) then output run
                      else "/null")) O_WRONLY (-1);;
     open_to 2 (if CStr.nonempty (error run) then Some (error run) else None)
             O_WRONLY 1);;
  mapM (λ e, setenv (key e) (value e)) (env run);;
  hostify (cwd run) (user run) uid gid;;
  set_limits (limit run);;
  MUST "malloc argv" 0 (sys_malloc ((Z.of_nat (length (arg run)) + 3) * 8));;
  resolve_and_exec run.

(** The branch [if (cat == 0)] of [handle_run]. *)
Definition cat_branch (run : Run) (uid gid : Z) : M unit :=
  put (set_in_init false);;
  MUST "dup2 (cat -> in)" (-1) (sys_dup2 cat_pipe.1 0);;
  open_to 1 (Some (if CStr.nonempty (output run) then output run else "/null"))
          O_WRONLY (-1);;
  open_to 2 (if CStr.nonempty (error run) then Some (error run) else None)
          O_WRONLY 1;;
  (if 2 <? cat_pipe.1 then emit (Close cat_pipe.1) else mret tt);;
  (if 2 <? cat_pipe.2 then emit (Close cat_pipe.2) else mret tt);;
  hostify (cwd run) (user run) uid gid;;
  emit (Execvp "cat" ["cat"]);;
  match execvp "cat" ["cat"] with
  | None => halt
  | Some e => put (set_errno e);; fail "execvp"
  end.

(** *** The parent side of [handle_run] *)

(** [MUST("fork", -1, fork)]: the value is what the kernel returns in
    this process; 0 means that this process is the new child. *)
Definition fork : M Z :=
  ps ← get pids;
  match ps with
  | [] => put (set_errno EAGAIN);; fail "fork"
  | p :: ps' =>
      put (set_pids ps');;
      emit (Fork p);;
      if p =? -1 then put (set_errno EAGAIN);; fail "fork" else mret p
  end.

Definition random_ : M Z :=
  rs ← get rands;
  match rs with
  | [] => mret 0
  | r :: rs' => put (set_rands rs');; mret r
  end.

(** The [while (true)] loop, one tick of the kernel per iteration.
    The value is [timed_out]. *)
Fixpoint wait_loop (ts : list tick) (child cat : Z)
    (child_running cat_running timed_out : bool) : M bool :=
  match ts with
  | [] => λ s, (Stuck, set_ticks [] s)
  | t :: ts' =>
      put (set_ticks ts');;
      match t with
      | WaitFail e => put (set_errno e);; fail "wait"
      | Reaped pid =>
          let waited := Z.pos pid in
          let child_running :=
            if waited =? child then false else child_running in
          let cat_running := if waited =? cat then false else cat_running in
          if negb child_running && negb cat_running then mret timed_out
          else wait_loop ts' child cat child_running cat_running timed_out
      | PollFail e =>
          put (set_errno e);;
          if e =? EINTR
          then wait_loop ts' child cat child_running cat_running timed_out
          else fail "poll (timeout signal)"
      | CtlFail e => put (set_errno e);; fail "read (timeout signal)"
      | CtlRead bs =>
          let hard_timeout := take 2 bs ++ drop (length (take 2 bs)) (fresh 2) in
          if bool_decide (hard_timeout !! 0%nat = Some "Y"%byte) then mret true
          else
            (if child_running
             then MUST "kill" (-1) (sys_kill child SIGTERM);; mret tt
             else mret tt);;
            wait_loop ts' child cat child_running cat_running true
      end
  end.

Definition wrap32 (z : Z) : Z := z mod 2 ^ 32.

Definition handle_run (run : Run) : M bool :=
  MUST "sigprocmask (block SIGCHLD)" (-1) (sys_sigprocmask true);;
  uid ← (if user run && (wrap32 (uid run) =? 0)
         then r ← random_; mret (Z.rem r 995000 + 5000)
         else mret (wrap32 (uid run)));
  gid ← (if user run && (wrap32 (gid run) =? 0)
         then r ← random_; mret (Z.rem r 995000 + 5000)
         else mret (wrap32 (gid run)));
  cat ← (if cat_output run then
           MUST "pipe (cat)" (-1) sys_pipe;;
           cat ← fork;
           (if cat =? 0 then cat_branch run uid gid else mret tt);;
           mret cat
         else mret (-1));
  child ← fork;
  (if child =? 0 then child_branch run uid gid cat else mret tt);;
  if daemon run then
    MUST "sigprocmask (unblock SIGCHLD)" (-1) (sys_sigprocmask false);;
    mret false
  else
    (if negb (cat =? -1)
     then emit (Close cat_pipe.1);; emit (Close cat_pipe.2)
     else mret tt);;
    ts ← get ticks;
    timed_out ← wait_loop ts child cat true (cat_output run) false;
    MUST "sigprocmask (unblock SIGCHLD)" (-1) (sys_sigprocmask false);;
    mret timed_out.

(** *** [main] *)

(** [for (...) { timed_out = handle_run(run[i]); if (timed_out) break; }] *)
Fixpoint run_all (runs : list Run) : M unit :=
  match runs with
  | [] => mret tt
  | r :: rest =>
      timed_out ← handle_run r;
      if (timed_out : bool) then mret tt else run_all rest
  end.

(** What [main] does with the decoded configuration. *)
Definition execute (cfg : Config) : M unit :=
  (if bool_decide (random cfg ≠ []) then handle_random (random cfg)
   else mret tt);;
  mapM handle_tty_raw (tty_raw cfg);;
  mapM handle_mount (mount cfg);;
  run_all (run cfg);;
  emit Sync;;
  emit PowerOff;;
  halt.

Definition bootstrap : M unit :=
  MUST "mknod /console" (-1) (sys_mknod "/console" 5 1);;
  open_to 0 (Some "/console") O_RDONLY (-1);;
  open_to 1 (Some "/console") O_WRONLY (-1);;
  open_to 2 (Some "/console") O_WRONLY (-1);;
  MUST "mknod /ubda" (-1) (sys_mknod "/ubda" 98 0);;
  MUST "mknod /null" (-1) (sys_mknod "/null" 1 3);;
  mapM (λ i : nat, MUST "mknod /ttyN" (-1)
                     (sys_mknod ("/tty" +:+ pretty i) 4 (Z.of_nat i)))
       (seq 1 15);;
  emit (Call sys_clearenv);;
  (if negb (sys sys_clearenv =? 0)
   then put (set_errno (sys_errno sys_clearenv));; fail "clearenv"
   else put (set_environ ∅));;
  setenv "PATH" DEFAULT_PATH;;
  setenv "TERM" "linux";;
  setenv "HOME" "/tmp";;
  MUST "mkdir /host" (-1) (sys_mkdir "/host");;
  MUST "sigaction" (-1) (sys_sigaction SIGCHLD);;
  mret tt.

Definition main : M unit :=
  bootstrap;;
  cfg ← load_config;
  execute cfg.

End Guest.

(** ** umlbox, the host orchestrator *)

Module Host.

(** *** The block image *)

(** [struct.pack('=LL', a, b)]: two unsigned 32-bit words in the byte
    order of the machine (the guest reads them back on the same
    machine; least significant byte first here).  A value out of range
    raises [struct.error]. *)
Definition pack_LL (a b : Z) : option (list byte) :=
  if (0 <=? a) && (a <? 2 ^ 32) && (0 <=? b) && (b <? 2 ^ 32)
  then Some (Word.le32 a ++ Word.le32 b)
  else None.

(** Lines 215-217: header, payload, padding to the block boundary. *)
Definition block_image (payload : list byte) : option (list byte) :=
  hdr ← pack_LL MAGIC (Z.of_nat (length payload));
  let cfg := hdr ++ payload in
  let n := Z.of_nat (length cfg) in
  Some (if negb (n mod 512 =? 0)
        then cfg ++ replicate (Z.to_nat (512 - n mod 512)) x00
        else cfg).

(** Lines 214-217 as a whole.  [SerializeToString] is the encoder
    protobuf generates from config.proto. *)
Definition encode (SerializeToString : Config → list byte) (cfg : Config)
    : option (list byte) :=
  block_image (SerializeToString cfg).

(** *** The mounts *)

Record mount_args := {
  base_mounts : bool;
  mount_ro : list string;                   (* --mount *)
  mount_write : list string;                (* --mount-write *)
  translate : list (string * string);       (* --translate GUEST HOST *)
  translate_write : list (string * string)  (* --translate-write *)
}.

Fixpoint ends_with (c : ascii) (s : string) : bool :=
  match s with
  | EmptyString => false
  | String a EmptyString => Ascii.eqb a c
  | String _ s' => ends_with c s'
  end.

Definition host_mount (target host : string) (ro : bool) : Mount :=
  let host := if ends_with "/" host then host else host +:+ "/" in
  {| target := target; source := "none"; fstype := "hostfs"; data := host;
     ro := ro; nosuid := true |}.

Definition plain_mount (target source fstype : string) : Mount :=
  {| target := target; source := source; fstype := fstype; data := "";
     ro := false; nosuid := false |}.

(** The sort key [lambda m: (len(m), m)] and the order of Python on
    such pairs. *)
Definition key_le (a b : string) : Prop :=
  (String.length a < String.length b)%nat
  ∨ (String.length a = String.length b ∧ (a ≤ b)%string).

Global Instance key_le_dec : RelDecision key_le.
Proof. intros a b. unfold key_le. apply _. Defined.

Section Mounts.

Variable isdir : string → bool.       (* os.path.isdir *)
Variable abspath : string → string.   (* os.path.abspath *)

Definition base_dirs : list string :=
  ["/usr"; "/bin"; "/sbin"; "/lib"; "/lib32"; "/lib64";
   "/etc/alternatives"; "/dev"].

(** The dictionary [mounts] after lines 161-177. *)
Definition mounts (a : mount_args) : gmap string Mount :=
  let m0 : gmap string Mount :=
    <["/sys" := plain_mount "/sys" "sysfs" "sysfs"]>
      (<["/proc" := plain_mount "/proc" "proc" "proc"]>
        (<["/tmp" := plain_mount "/tmp" "tmpfs" "tmpfs"]> ∅)) in
  let m1 :=
    if base_mounts a then
      foldl (λ acc m, if isdir m then <[m := host_mount m m true]> acc
                      else acc) m0 base_dirs
    else m0 in
  let share ro acc spec :=
    let mdir := abspath spec in <[mdir := host_mount mdir mdir ro]> acc in
  let m2 := foldl (share true) m1 (mount_ro a) in
  let m3 := foldl (share false) m2 (mount_write a) in
  let trans ro (acc : gmap string Mount) (gh : string * string) :=
    <[gh.1 := host_mount gh.1 gh.2 ro]> acc in
  let m4 := foldl (trans true) m3 (translate a) in
  foldl (trans false) m4 (translate_write a).

(** [sorted(d.keys(), key=lambda m: (len(m), m))].  The keys of a
    dictionary are distinct and the order on keys is total, so the
    result does not depend on the order the keys are listed in. *)
Definition sorted_keys (d : gmap string Mount) : list string :=
  merge_sort key_le (map_to_list d).*1.

(** Lines 178-179: [cfg.mount]. *)
Definition cfg_mount (d : gmap string Mount) : list Mount :=
  omap (λ mdir, d !! mdir) (sorted_keys d).

End Mounts.

(** *** Supervising the guest (lines 256-278) *)

Definition SIGKILL : Z := 9.
Definition soft_token : list byte := ["N"; x0a]%byte.
Definition hard_token : list byte := ["Y"; x0a]%byte.

Inductive host_event :=
| WaitFor (timeout : option Z)    (* uml.wait(timeout=...) *)
| WriteCtl (bs : list byte)       (* os.write(ctrl_w, ...) *)
| Killpg (sig : Z)                (* os.killpg(uml.pid, ...) *)
| TypeError.                      (* os.write on ctrl_w = None *)

(** [guest] tells, for each call of [wait] in turn, after how many
    seconds from the call the guest process is gone ([None]: it stays
    alive).  [log] holds the events with the time they are issued at. *)
Record host := Hst {
  clock : Z;
  returncode : bool;              (* [uml.returncode is not None] *)
  log : list (Z * host_event);
  guest : list (option Z)
}.

Definition note (e : host_event) (h : host) : host :=
  Hst (clock h) (returncode h) (log h ++ [(clock h, e)]) (guest h).

(** [try: uml.wait(timeout=t) except TimeoutExpired: pass] *)
Definition wait_timeout (t : Z) (h : host) : host :=
  let h := note (WaitFor (Some t)) h in
  match guest h with
  | Some dt :: rest =>
      if dt <=? t then Hst (clock h + Z.max 0 dt) true (log h) rest
      else Hst (clock h + t) (returncode h) (log h) rest
  | None :: rest => Hst (clock h + t) (returncode h) (log h) rest
  | [] => Hst (clock h + t) (returncode h) (log h) []
  end.

(** [uml.wait()]; [None] when it never returns. *)
Definition wait_forever (h : host) : option host :=
  let h := note (WaitFor None) h in
  match guest h with
  | Some dt :: rest => Some (Hst (clock h + Z.max 0 dt) true (log h) rest)
  | _ => None
  end.

(** [os.write(ctrl_w, bs)]; the pipe exists only when
    [args.timeout > 0]. *)
Definition write_ctl (timeout : Z) (bs : list byte) (h : host) : option host :=
  if 0 <? timeout then Some (note (WriteCtl bs) h)
  else None.

Definition supervise (timeout : Z) (h : host) : host :=
  if timeout =? 0 then default (note (WaitFor None) h) (wait_forever h)
  else
    let h := wait_timeout timeout h in
    let soft h :=
      if returncode h then Some h
      else h ← write_ctl timeout soft_token h; Some (wait_timeout 5 h) in
    let hard h :=
      if returncode h then Some h
      else h ← write_ctl timeout hard_token h; Some (wait_timeout 5 h) in
    let hardest h :=
      if returncode h then h
      else let h := note (Killpg SIGKILL) h in
           default (note (WaitFor None) h) (wait_forever h) in
    match soft h with
    | None => note TypeError h
    | Some h1 =>
        match hard h1 with
        | None => note TypeError h1
        | Some h2 => hardest h2
        end
    end.

Definition start (guest : list (option Z)) : host := Hst 0 false [] guest.

End Host.

(** ** umlbox: finding the binaries, reading the options *)

Module Finder.

(** [os.path.join(a, b)]. *)
Definition join (a b : string) : string :=
  if bool_decide (CStr.first b = Some "/"%char) then b
  else if negb (CStr.nonempty a) || Host.ends_with "/" a then a +:+ b
  else a +:+ "/" +:+ b.

Section Locate.

Variable exists_ : string → bool.   (* os.path.exists *)
Variable _cwd : string.             (* self._cwd *)
Variable _bin : string.             (* self._bin *)

(** The loop of [locate] over the names. *)
Fixpoint locate_names (names : list string) : option string :=
  match names with
  | [] => None
  | name :: rest =>
      if exists_ (join _cwd name) then Some (join _cwd name)
      else if exists_ (join _bin name) then Some (join _bin name)
      else locate_names rest
  end.

Definition locate (arg : option string) (names : list string) : option string :=
  match arg with
  | Some a => Some a
  | None => locate_names names
  end.

End Locate.

End Finder.

Module Args.

(** [spec.split('=', 1)] and the entry added to [cmd.env]; [None] is
    the error of the parser. *)
Definition env_var (spec : string) : option EnvVar :=
  match CStr.strchr spec "=" with
  | Some (k, v) => Some {| key := k; value := v |}
  | None => None
  end.

End Args.

(** ** A sample environment

    A kernel in which every call succeeds, and a guest about to start;
    used to run the definitions on concrete inputs. *)

Module Sample.

Definition sys (c : call) : Z :=
  match c with
  | sys_open _ _ => 3
  | sys_malloc _ => 4096
  | _ => 0
  end.

Definition sys_errno (c : call) : Z := 0.

(** No file is executable. *)
Definition execv (path : string) (argv : list string) : option Z := Some ENOENT.

Definition uninit (i : nat) : byte := xaa.

Definition cat_pipe : Z * Z := (3, 4).

(** The proto3 wire form of a configuration that has [tty_raw]
    entries only, each shorter than 128 bytes: per entry the tag of
    field 1, the length and the bytes. *)
Definition pack (c : Config) : list byte :=
  s ← tty_raw c;
  x0a :: Word.byte_of_Z (Z.of_nat (String.length s)) :: String.list_byte_of_string s.

Fixpoint unpack_go (fuel : nat) (bs : list byte) : option (list string) :=
  match fuel, bs with
  | _, [] => Some []
  | S fuel, tag :: len :: rest =>
      let n := Z.to_nat (Word.byte_to_Z len) in
      if bool_decide (tag = x0a) && bool_decide (n ≤ length rest)%nat then
        (String.string_of_list_byte (take n rest) ::.) <$> unpack_go fuel (drop n rest)
      else None
  | _, _ => None
  end.

Definition unpack (bs : list byte) : option Config :=
  (λ l, {| tty_raw := l; mount := []; run := []; random := [] |})
    <$> unpack_go (length bs) bs.

Definition cfg : Config :=
  {| tty_raw := ["/tty1"; "/console"]; mount := []; run := []; random := [] |}.

Definition image : list byte := default [] (Host.encode pack cfg).

(** "/usr/bin/prog" is a script without interpreter line, the shell
    can be executed, nothing else exists. *)
Definition execv_script (path : string) (argv : list string) : option Z :=
  if bool_decide (path = "/usr/bin/prog") then Some ENOEXEC
  else if bool_decide (path = DEFAULT_SHELL) then None
  else Some ENOENT.

(** A foreground run of [name] with everything else left empty. *)
Definition run_of (name : string) (args : list string) (ls : list Limit) : Run :=
  {| daemon := false; cmd := name; arg := args; cwd := ""; input := "";
     output := ""; error := ""; cat_output := false; env := [];
     user := false; uid := 0; gid := 0; limit := ls |}.

Definition boot (image : list byte) (ts : list tick) (ps : list Z) : state :=
  {| in_init := true; errno := 0; environ := ∅; trace := [];
     ubda := plain_file image; ticks := ts; pids := ps; rands := [] |}.

End Sample.

(** * Vocabulary of the properties *)

(** ** Invariants of computations *)

(** [steps R m]: every run of [m] takes the state to one related by
    [R]; used with relations that say what was added to the trace and
    what was left alone. *)
Definition steps {A} (R : relation state) (m : M A) : Prop :=
  ∀ s r s', m s = (r, s') → R s s'.

(** [R] does not look at the bookkeeping fields. *)
Definition lenient (R : relation state) : Prop :=
  (∀ e s, R s (set_errno e s)) ∧ (∀ m s, R s (set_environ m s))
  ∧ (∀ b s, R s (set_in_init b s)) ∧ (∀ p s, R s (set_pids p s))
  ∧ (∀ r s, R s (set_rands r s)) ∧ (∀ t s, R s (set_ticks t s)).

(** [R] accepts the events of [Q] in the trace. *)
Definition logs (R : relation state) (Q : event → Prop) : Prop :=
  ∀ e s, Q e → R s (log e s).

Definition fail_event (e : event) : Prop :=
  match e with
  | Diag _ _ | PowerOff | Exit _ => True
  | _ => False
  end.

(** The relation "the trace grew by events of [P]". *)
Definition adds (P : event → Prop) (s s' : state) : Prop :=
  ∃ evs, trace s' = trace s ++ evs ∧ Forall P evs.

(** The relation "the block device was not read". *)
Definition same_ubda (s s' : state) : Prop := ubda s' = ubda s.

(** [Tracks R Q]: [R] is an invariant of every computation that logs
    events of [Q] only; the events of a fatal error are among them. *)
Class Tracks (R : relation state) (Q : event → Prop) : Prop := {
  tracks_preorder :: PreOrder R;
  tracks_lenient : lenient R;
  tracks_logs : logs R Q;
  tracks_fail : ∀ e, fail_event e → Q e
}.

Global Hint Mode Tracks ! - : typeclass_instances.

(** A computation that never hands a value on: what follows it in the
    program is not executed. *)
Definition never_returns {A} (m : M A) : Prop :=
  ∀ s r s', m s = (r, s') → ∀ a, r ≠ Ok a.

(** ** Kinds of events *)

(** Events that belong to a mount or to a run: the [mount] call, and
    what [handle_run] and its children do. *)
Definition mount_or_run (e : event) : bool :=
  match e with
  | Call (sys_mount _ _ _ _ _ _) | Call (sys_sigprocmask _) | Call sys_pipe
  | Call (sys_kill _ _) | Call (sys_chroot _) | Call (sys_setrlimit _ _ _)
  | Fork _ | Execv _ _ | Execvp _ _ => true
  | _ => false
  end.

Definition idle (e : event) : Prop := mount_or_run e = false.

(** The mount points of the [mount] calls of a trace, in order. *)
Definition mount_call (e : event) : option string :=
  match e with
  | Call (sys_mount _ tgt _ _ _ _) => Some tgt
  | _ => None
  end.

Definition mounted (tr : list event) : list string := omap mount_call tr.

Definition no_mount (e : event) : Prop := mount_call e = None.

(** Every event but a [kill] with a signal other than SIGTERM. *)
Definition gentle (e : event) : Prop :=
  match e with
  | Call (sys_kill _ sig) => sig = SIGTERM
  | _ => True
  end.

Definition is_exec (e : event) : bool :=
  match e with
  | Execv _ _ | Execvp _ _ => true
  | _ => false
  end.

Definition no_exec (e : event) : Prop := is_exec e = false.

(** ** Mounts *)

(** Every entry of the dictionary is filed under its own target. *)
Definition keyed (d : gmap string Mount) : Prop :=
  map_Forall (λ k m, target m = k) d.

(** The parts of a path between its slashes. *)
Fixpoint split_slash (s : string) : list string :=
  match s with
  | EmptyString => [EmptyString]
  | String a s' =>
      if Ascii.eqb a "/" then EmptyString :: split_slash s'
      else match split_slash s' with
           | h :: t => String a h :: t
           | [] => [String a EmptyString]
           end
  end.

(** The directory a path names, as the list of the names from the root
    down: the kernel walks the parts one by one, ".." goes up (and stays
    at the root), "." and an empty part stay (no symbolic links). *)
Definition enter (up : list string) (part : string) : list string :=
  if bool_decide (part = "..") then tail up
  else if bool_decide (part = "." ∨ part = "") then up
  else part :: up.

Definition resolve (path : string) : list string :=
  reverse (foldl enter [] (split_slash path)).

(** The directory is /host or lies below it. *)
Definition under_host (dir : list string) : Prop :=
  ∃ below, dir = "host" :: below.

(** The target without its leading slash. *)
Definition rel_target (m : Mount) : string :=
  match target m with
  | String "/" t => t
  | t => t
  end.

(** ** The timeout escalation *)

(** The guest is still running when a wait of [t] seconds is over. *)
Definition outlives (t : Z) (a : option Z) : bool :=
  match a with
  | Some dt => negb (dt <=? t)
  | None => true
  end.

(** The three stages in full, with the time each step is taken at. *)
Definition escalation (timeout : Z) : list (Z * Host.host_event) :=
  [ (0, Host.WaitFor (Some timeout));
    (timeout, Host.WriteCtl Host.soft_token);
    (timeout, Host.WaitFor (Some 5));
    (timeout + 5, Host.WriteCtl Host.hard_token);
    (timeout + 5, Host.WaitFor (Some 5));
    (timeout + 10, Host.Killpg Host.SIGKILL);
    (timeout + 10, Host.WaitFor None) ].

(** ** Limits and PATH *)

(** The kinds of the enumeration of config.proto that name a
    resource. *)
Definition listed_kind (r : Z) : Prop := 1 <= r <= 9.

(** PATH as the list of its entries. *)
Fixpoint join_colon (dirs : list string) : string :=
  match dirs with
  | [] => ""
  | [d] => d
  | d :: rest => d +:+ ":" +:+ join_colon rest
  end.

Definition colon_free (d : string) : Prop := CStr.strchr d ":" = None.

(** The path tried for the entry [d]. *)
Definition candidate (name d : string) : string := d +:+ "/" +:+ name.

(** ** Parts of the guest's programs *)

Section GuestVocabulary.

Variable sys : call → Z.
Variable sys_errno : call → Z.
Variable execv : string → list string → option Z.
Variable execvp : string → list string → option Z.
Variable uninit : nat → byte.
Variable cat_pipe : Z * Z.

(** The end of [main], from the loop over the runs on. *)
Definition run_phase (runs : list Run) : M unit :=
  run_all sys sys_errno execv execvp uninit cat_pipe runs;;
  emit Sync;; emit PowerOff;; halt.

(** Each run of [pre] returns without having timed out, taking the
    guest from [s] to [s1]. *)
Fixpoint all_complete (pre : list Run) (s s1 : state) : Prop :=
  match pre with
  | [] => s1 = s
  | r :: pre' =>
      ∃ s', handle_run sys sys_errno execv execvp uninit cat_pipe r s
            = (Ok false, s')
            ∧ all_complete pre' s' s1
  end.

(** The search as the specification words it: the entries are tried in
    order; the first one that can be executed ends the search; the first
    one that is not an executable image is handed to the default shell
    and ends the search; any other failure moves on to the next entry.
    The value is the events and the error left to report ([None] when
    an image was executed). *)
Fixpoint path_search (name : string) (args : list string) (dirs : list string)
    (exec_errno : Z) : list event * option Z :=
  match dirs with
  | [] => ([], Some exec_errno)
  | d :: rest =>
      let c := candidate name d in
      match execv c (name :: args) with
      | None => ([Execv c (name :: args)], None)
      | Some e =>
          if e =? ENOEXEC then
            ([Execv c (name :: args);
              Execv DEFAULT_SHELL (DEFAULT_SHELL :: c :: args)],
             match execv DEFAULT_SHELL (DEFAULT_SHELL :: c :: args) with
             | None => None
             | Some e' => Some (if exec_errno =? EACCES then exec_errno else e')
             end)
          else
            let '(evs, r) :=
              path_search name args rest
                (if exec_errno =? EACCES then exec_errno else e) in
            (Execv c (name :: args) :: evs, r)
      end
  end.

(** The entry [d] cannot be executed, for a reason other than its
    format. *)
Definition failed (name : string) (args : list string) (d : string) : Prop :=
  ∃ e, execv (candidate name d) (name :: args) = Some e ∧ e ≠ ENOEXEC.

(** What [mkdirs] does with one part of the path. *)
Definition visit (part : string) : M unit :=
  if CStr.nonempty part then
    emit (Mkdir part);; MUST sys sys_errno "chdir" (-1) (sys_chdir part);; mret tt
  else mret tt.

Fixpoint visit_all (parts : list string) : M unit :=
  match parts with
  | [] => mret tt
  | p :: ps => visit p;; visit_all ps
  end.

(** The child up to [hostify], followed by [k]. *)
Definition child_before_limits (run : Run) (uid gid cat : Z) (k : M unit)
    : M unit :=
  put (set_in_init false);;
  open_to sys sys_errno 0
    (Some (if CStr.nonempty (input run) then input run else "/null"))
    O_RDONLY (-1);;
  (if negb (cat =? -1) then
     (if negb (cat_pipe.2 =? 1)
      then MUST sys sys_errno "dup2 (cat -> out)" (-1) (sys_dup2 cat_pipe.2 1);;
           mret tt
      else mret tt);;
     (if negb (cat_pipe.2 =? 2)
      then MUST sys sys_errno "dup2 (cat -> err)" (-1) (sys_dup2 cat_pipe.2 2);;
           mret tt
      else mret tt);;
     (if 2 <? cat_pipe.1 then emit (Close cat_pipe.1) else mret tt);;
     (if 2 <? cat_pipe.2 then emit (Close cat_pipe.2) else mret tt)
   else
     open_to sys sys_errno 1
       (Some (if CStr.nonempty (output run) then output run else "/null"))
       O_WRONLY (-1);;
     open_to sys sys_errno 2
       (if CStr.nonempty (error run) then Some (error run) else None)
       O_WRONLY 1);;
  mapM (λ e, setenv (key e) (value e)) (env run);;
  hostify sys sys_errno (cwd run) (user run) uid gid;;
  k.

End GuestVocabulary.

(** ** The dictionary of the mounts, read option by option *)

(** A share of a host directory: hostfs, never with set-uid programs,
    with a path that ends in a slash. *)
Definition host_share (m : Mount) : Prop :=
  source m = "none" ∧ fstype m = "hostfs" ∧ nosuid m = true
  ∧ Host.ends_with "/" (data m) = true.

(** The three mounts every configuration starts with. *)
Definition builtin_mount (k : string) : option Mount :=
  if bool_decide (k = "/tmp") then Some (Host.plain_mount "/tmp" "tmpfs" "tmpfs")
  else if bool_decide (k = "/proc") then Some (Host.plain_mount "/proc" "proc" "proc")
  else if bool_decide (k = "/sys") then Some (Host.plain_mount "/sys" "sysfs" "sysfs")
  else None.

(** The host directory of the last pair given for the guest path [k]. *)
Definition last_for (k : string) (l : list (string * string)) : option string :=
  snd <$> last (filter (λ gh, gh.1 = k) l).

Section MountsLookup.

Variable isdir : string → bool.
Variable abspath : string → string.

(** What is mounted on [k]: the options from the strongest to the
    weakest, and within one option the last occurrence. *)
Definition mounts_lookup (a : Host.mount_args) (k : string) : option Mount :=
  match last_for k (Host.translate_write a) with
  | Some h => Some (Host.host_mount k h false)
  | None =>
      match last_for k (Host.translate a) with
      | Some h => Some (Host.host_mount k h true)
      | None =>
          if bool_decide (k ∈ abspath <$> Host.mount_write a)
          then Some (Host.host_mount k k false)
          else if bool_decide (k ∈ abspath <$> Host.mount_ro a)
          then Some (Host.host_mount k k true)
          else if Host.base_mounts a && bool_decide (k ∈ Host.base_dirs) && isdir k
          then Some (Host.host_mount k k true)
          else builtin_mount k
      end
  end.

End MountsLookup.

(** [p] is a directory above [c], as far as the strings tell. *)
Definition proper_prefix (p c : string) : Prop :=
  String.prefix p c = true ∧ p ≠ c.

(** The size of the smallest run of 512-byte blocks that holds [n]
    bytes. *)
Definition blocks (n : Z) : Z := 512 * ((n + 511) / 512).



(** ** The two roles of the guest process

    The process is PID 1 until a [fork] returns 0 in it; from then on
    it is a child ([in_init] is cleared). *)

(** Events of the supervisor: devices, mounts, process control, the end
    of the guest. *)
Definition init_only (e : event) : bool :=
  match e with
  | Call (sys_mknod _ _ _) | Call sys_clearenv | Call (sys_mkdir _)
  | Call (sys_sigaction _) | Call (sys_ioctl_addentropy _ _)
  | Call (sys_tcgetattr _) | Call (sys_tcsetattr_raw _)
  | Call (sys_mount _ _ _ _ _ _) | Call (sys_sigprocmask _) | Call sys_pipe
  | Call (sys_kill _ _) | Mkdir _ | Fork _ | Sync | PowerOff => true
  | _ => false
  end.

(** Events of a child on its way to the command: confinement, identity,
    limits, the exec and the exit. *)
Definition child_only (e : event) : bool :=
  match e with
  | Call (sys_chroot _) | Call (sys_setgid _) | Call (sys_setuid _)
  | Call (sys_setrlimit _ _ _) | Execv _ _ | Execvp _ _ | Report _ _
  | Exit _ => true
  | _ => false
  end.

Definition is_setid (e : event) : bool :=
  match e with
  | Call (sys_setgid _) | Call (sys_setuid _) => true
  | _ => false
  end.

(** The identity a process takes is not that of root. *)
Definition unprivileged (e : event) : Prop :=
  match e with
  | Call (sys_setgid g) => g ≠ 0
  | Call (sys_setuid u) => u ≠ 0
  | _ => True
  end.

Section Roles.

Variable execv : string → list string → option Z.
Variable execvp : string → list string → option Z.

(** The exec that replaced the process image. *)
Definition replaced (e : event) : Prop :=
  match e with
  | Execv p a => execv p a = None
  | Execvp f a => execvp f a = None
  | _ => False
  end.

(** The last thing a process does: PID 1 powers the guest off, a child
    exits with status 1 or becomes the command. *)
Definition closing (i : bool) (e : event) : Prop :=
  if i then e = PowerOff else e = Exit 1 ∨ replaced e.

Definition final (s : state) : Prop :=
  ∃ e, last (trace s) = Some e ∧ closing (in_init s) e.

(** [Hi]: what PID 1 may log; [Hc]: what a child may log. *)
Variable Hi : event → Prop.
Variable Hc : event → Prop.

(** What a process in the role [i] may log. *)
Definition allowed (i : bool) : event → Prop := if i then Hi else Hc.

(** The trace grew by events of PID 1 followed by events of a child;
    a process in the role [i] at the start has the first part only when
    it is PID 1, and the second part only when it ends as a child. *)
Definition grows (i : bool) (s s' : state) : Prop :=
  ∃ evs1 evs2,
    trace s' = trace s ++ evs1 ++ evs2
    ∧ Forall Hi evs1 ∧ Forall Hc evs2
    ∧ (i = false → evs1 = []) ∧ (in_init s' = true → evs2 = []).

(** [conducts i m]: run by a process in the role [i], [m] keeps the
    role when it returns, logs what the roles allow, halts only after a
    closing event, and blocks only as PID 1. *)
Definition conducts {A} (i : bool) (m : M A) : Prop :=
  ∀ s r s', in_init s = i → m s = (r, s') →
    (in_init s' = i ∨ (i = true ∧ ∀ a, r ≠ Ok a))
    ∧ grows i s s'
    ∧ (r = Halt → final s')
    ∧ (r = Stuck → in_init s' = true).

End Roles.

Section RunParts.

Variable sys : call → Z.
Variable sys_errno : call → Z.
Variable execv : string → list string → option Z.
Variable execvp : string → list string → option Z.
Variable uninit : nat → byte.
Variable cat_pipe : Z * Z.

(** The identity [handle_run] gives to the children of a run: the one
    of the configuration, or a random one from 5000 up when the run
    drops privileges and the configuration says 0. *)
Definition choose_id (run : Run) (id : Z) : M Z :=
  if user run && (wrap32 id =? 0)
  then r ← random_; mret (Z.rem r 995000 + 5000)
  else mret (wrap32 id).

(** [handle_run] from the first [fork] on. *)
Definition handle_run_from (run : Run) (uid gid : Z) : M bool :=
  cat ← (if cat_output run then
           MUST sys sys_errno "pipe (cat)" (-1) sys_pipe;;
           cat ← fork;
           (if cat =? 0 then cat_branch sys sys_errno execvp cat_pipe run uid gid
            else mret tt);;
           mret cat
         else mret (-1));
  child ← fork;
  (if child =? 0 then child_branch sys sys_errno execv cat_pipe run uid gid cat
   else mret tt);;
  if daemon run then
    MUST sys sys_errno "sigprocmask (unblock SIGCHLD)" (-1) (sys_sigprocmask false);;
    mret false
  else
    (if negb (cat =? -1)
     then emit (Close cat_pipe.1);; emit (Close cat_pipe.2)
     else mret tt);;
    ts ← get ticks;
    timed_out ← wait_loop sys sys_errno uninit ts child cat true (cat_output run)
                  false;
    MUST sys sys_errno "sigprocmask (unblock SIGCHLD)" (-1) (sys_sigprocmask false);;
    mret timed_out.

End RunParts.

(** ** Confinement *)

(** The calls of [hostify], in the order it makes them. *)
Definition hostify_calls (cwd : string) (user : bool) (uid gid : Z) : list call :=
  [sys_chdir "/host"; sys_chroot "."]
  ++ (if CStr.nonempty cwd then [sys_chdir cwd] else [])
  ++ (if user then [sys_setgid gid; sys_setuid uid] else []).

(** Every exec of [evs] has the events [jail] before it. *)
Definition guarded (jail evs : list event) : Prop :=
  ∀ pre e post, evs = pre ++ e :: post → is_exec e = true →
    ∃ a b, pre = a ++ jail ++ b.

Definition is_fork (e : event) : bool :=
  match e with Fork _ => true | _ => false end.

Definition no_fork (e : event) : Prop := is_fork e = false.

(** Neither a [fork] nor a [mount]. *)
Definition quiet (e : event) : Prop := no_fork e ∧ no_mount e.

(** ** The wait loop *)

Definition is_token (t : tick) : bool :=
  match t with CtlRead _ => true | _ => false end.

(** The only signal is SIGTERM, and it goes to [child]. *)
Definition signals_only (child : Z) (e : event) : Prop :=
  match e with
  | Call (sys_kill pid sig) => pid = child ∧ sig = SIGTERM
  | _ => True
  end.

(** The process [pid] was reaped in the ticks [used]. *)
Definition reaped (pid : Z) (used : list tick) : Prop :=
  ∃ p, Reaped p ∈ used ∧ Z.pos p = pid.

(** The token that ends the wait at once: its first byte is 'Y' (the
    byte found in the buffer when the read delivered nothing). *)
Definition hard_tick (uninit : nat → byte) (t : tick) : Prop :=
  match t with
  | CtlRead bs => default (uninit 0%nat) (bs !! 0%nat) = "Y"%byte
  | _ => False
  end.



(** * Properties *)

(** ** Bytes and words *)

Module WordFacts.
Import Word.

Lemma byte_to_Z_range (b : byte) : 0 <= byte_to_Z b < 256.
Proof.
  unfold byte_to_Z. pose proof (Byte.to_N_bounded b). lia.
Qed.

Lemma byte_to_of_Z (z : Z) : byte_to_Z (byte_of_Z z) = z mod 256.
Proof.
  unfold byte_to_Z, byte_of_Z.
  assert (Hr : 0 <= z mod 256 < 256) by (apply Z.mod_pos_bound; lia).
  destruct (Byte.of_N (Z.to_N (z mod 256))) as [b|] eqn:E.
  - apply Byte.to_of_N in E. rewrite E. lia.
  - apply Byte.of_N_None_iff in E. lia.
Qed.

Lemma byte_of_to_Z (b : byte) : byte_of_Z (byte_to_Z b) = b.
Proof.
  unfold byte_of_Z. pose proof (byte_to_Z_range b) as Hr.
  rewrite Z.mod_small by lia. unfold byte_to_Z.
  rewrite N2Z.id, Byte.of_to_N. reflexivity.
Qed.

Lemma byte_to_Z_inj (a b : byte) : byte_to_Z a = byte_to_Z b → a = b.
Proof.
  intros H. rewrite <- (byte_of_to_Z a), <- (byte_of_to_Z b). now rewrite H.
Qed.

Lemma of_le32_le32 (n : Z) : 0 <= n < 2 ^ 32 → of_le32 (le32 n) = n.
Proof.
  intros Hn. unfold le32, of_le32. rewrite !byte_to_of_Z.
  change (2 ^ 32) with 4294967296 in Hn.
  assert (E2 : n / 65536 = n / 256 / 256) by (rewrite Z.div_div by lia; reflexivity).
  assert (E3 : n / 16777216 = n / 256 / 256 / 256)
    by (rewrite !Z.div_div by lia; reflexivity).
  rewrite E2, E3.
  pose proof (Z.div_mod n 256 ltac:(lia)).
  pose proof (Z.div_mod (n / 256) 256 ltac:(lia)).
  pose proof (Z.div_mod (n / 256 / 256) 256 ltac:(lia)).
  assert (0 <= n / 256 / 256 / 256 < 256).
  { split; [repeat apply Z.div_pos; lia|].
    repeat (apply Z.div_lt_upper_bound; [lia|]). lia. }
  rewrite (Z.mod_small (n / 256 / 256 / 256)) by lia. lia.
Qed.

Lemma le32_of_le32 (bs : list byte) : length bs = 4%nat → le32 (of_le32 bs) = bs.
Proof.
  intros Hl. destruct bs as [|b0 [|b1 [|b2 [|b3 [|? ?]]]]]; try discriminate.
  unfold le32, of_le32.
  pose proof (byte_to_Z_range b0). pose proof (byte_to_Z_range b1).
  pose proof (byte_to_Z_range b2). pose proof (byte_to_Z_range b3).
  set (n := byte_to_Z b0 + 256 * byte_to_Z b1 + 65536 * byte_to_Z b2
            + 16777216 * byte_to_Z b3).
  assert (E0 : n mod 256 = byte_to_Z b0).
  { symmetry. apply (Z.mod_unique_pos n 256 (byte_to_Z b1 + 256 * byte_to_Z b2
       + 65536 * byte_to_Z b3)); subst n; lia. }
  assert (D1 : n / 256 = byte_to_Z b1 + 256 * byte_to_Z b2 + 65536 * byte_to_Z b3).
  { symmetry. apply (Z.div_unique_pos n 256 _ (byte_to_Z b0)); subst n; lia. }
  assert (D2 : n / 65536 = byte_to_Z b2 + 256 * byte_to_Z b3).
  { symmetry.
    apply (Z.div_unique_pos n 65536 _ (byte_to_Z b0 + 256 * byte_to_Z b1));
      subst n; lia. }
  assert (D3 : n / 16777216 = byte_to_Z b3).
  { symmetry.
    apply (Z.div_unique_pos n 16777216 _
             (byte_to_Z b0 + 256 * byte_to_Z b1 + 65536 * byte_to_Z b2));
      subst n; lia. }
  assert (B : ∀ z b, z mod 256 = byte_to_Z b → byte_of_Z z = b).
  { intros z b Hz. apply byte_to_Z_inj. now rewrite byte_to_of_Z. }
  f_equal; [|f_equal; [|f_equal; [|f_equal]]].
  - apply B. exact E0.
  - apply B. rewrite D1. symmetry.
    apply (Z.mod_unique_pos _ 256 (byte_to_Z b2 + 256 * byte_to_Z b3)); lia.
  - apply B. rewrite D2. symmetry.
    apply (Z.mod_unique_pos _ 256 (byte_to_Z b3)); lia.
  - apply B. rewrite D3. apply Z.mod_small. lia.
Qed.

Lemma of_le32_range (bs : list byte) : 0 <= of_le32 bs < 2 ^ 32.
Proof.
  change (2 ^ 32) with 4294967296.
  destruct bs as [|b0 [|b1 [|b2 [|b3 [|? ?]]]]]; simpl; try lia.
  pose proof (byte_to_Z_range b0). pose proof (byte_to_Z_range b1).
  pose proof (byte_to_Z_range b2). pose proof (byte_to_Z_range b3). lia.
Qed.

Lemma to_int_small (z : Z) : 0 <= z < 2 ^ 32 - 1 → to_int z ≠ -1.
Proof.
intros Hz. unfold to_int. rewrite Z.mod_small by lia.
destruct (z <? 2 ^ 31) eqn:E; lia.
Qed.

Lemma length_le32 (n : Z) : length (le32 n) = 4%nat.
Proof. reflexivity. Qed.

End WordFacts.

Global Arguments Word.le32 : simpl never.
Global Arguments Word.of_le32 : simpl never.

(** ** [read] and [readall] *)

Lemma read_ret_length (f : file) (n : Z) :
  0 <= rr_ret (read f n) → rr_ret (read f n) = Z.of_nat (length (rr_bytes (read f n))).
Proof.
  unfold read. destruct (f_sched f) as [|[k|e] sched]; simpl; try lia; reflexivity.
Qed.

Lemma read_ret_le (f : file) (n : Z) : 0 <= n → rr_ret (read f n) <= n.
Proof.
  intros Hn. unfold read, deliver.
  destruct (f_sched f) as [|[k|e] sched]; simpl; rewrite ?length_take; lia.
Qed.

Lemma take_min_length {A} (l : list A) (k : nat) :
  take (k `min` length l) l = take k l.
Proof.
  destruct (Nat.le_gt_cases k (length l)).
  - now rewrite Nat.min_l.
  - rewrite Nat.min_r, !take_ge by lia. reflexivity.
Qed.

Lemma drop_min_length {A} (l : list A) (k : nat) :
  drop (k `min` length l) l = drop k l.
Proof.
  destruct (Nat.le_gt_cases k (length l)).
  - now rewrite Nat.min_l.
  - rewrite Nat.min_r, !drop_ge by lia. reflexivity.
Qed.

Lemma read_bytes_prefix (f : file) (n : Z) :
  0 <= rr_ret (read f n) →
  rr_bytes (read f n) = take (Z.to_nat (rr_ret (read f n))) (f_data f)
  ∧ f_data (rr_file (read f n)) = drop (Z.to_nat (rr_ret (read f n))) (f_data f).
Proof.
  unfold read, deliver.
  destruct (f_sched f) as [|[k|e] sched]; simpl; try lia; intros _;
    rewrite Nat2Z.id, length_take, take_min_length, drop_min_length; done.
Qed.

Lemma read_plain (bs : list byte) (n : Z) :
  0 <= n <= Z.of_nat (length bs) →
  read (plain_file bs) n
  = ReadResult n (take (Z.to_nat n) bs) None (plain_file (drop (Z.to_nat n) bs)).
Proof.
  intros Hn. unfold read, plain_file, deliver. simpl.
  rewrite Z.max_r by lia. f_equal. rewrite length_take. lia.
Qed.

(** One read that delivers something ends the loop: [got] has wrapped
    around to a value above [count]. *)
Lemma readall_single (f : file) (buf : list byte) (count : Z) :
  0 < count < 2 ^ 63 → count <= Z.of_nat (length buf) →
  0 < rr_ret (read f count) →
  readall f buf count
  = Returned count None
      (rr_bytes (read f count) ++ drop (length (rr_bytes (read f count))) buf)
      (rr_file (read f count)).
Proof.
  intros Hc Hb Hr. unfold readall. simpl.
  assert (Hs : Word.sub count 0 = count).
  { unfold Word.sub, Word.wrap, Word.size_mod, Word.size_bits.
    rewrite Z.sub_0_r. apply Z.mod_small. lia. }
  rewrite Hs.
  destruct (0 <? count) eqn:E0; [|lia].
  destruct (rr_ret (read f count) <? 0) eqn:E1; [lia|].
  destruct (rr_ret (read f count) =? 0) eqn:E2; [lia|].
  pose proof (read_ret_le f count ltac:(lia)) as Hle.
  pose proof (read_ret_length f count ltac:(lia)) as Hlen.
  unfold store. simpl.
  destruct (_ <=? _) eqn:E3; [|lia]. simpl.
  assert (Hg : (Word.sub 0 (rr_ret (read f count)) <? count) = false).
  { unfold Word.sub, Word.wrap, Word.size_mod, Word.size_bits.
    apply Z.ltb_ge.
    rewrite <- (Z_mod_plus_full _ 1).
    rewrite Z.mod_small; lia. }
  assert (Hsg : Word.to_signed count = count).
  { unfold Word.to_signed, Word.wrap, Word.size_mod, Word.size_bits.
    rewrite Z.mod_small by lia.
    change (2 ^ 64 / 2) with (2 ^ 63).
    destruct (count <? 2 ^ 63) eqn:E4; lia. }
  destruct (length (f_data f)); simpl; rewrite Hg, Hsg; reflexivity.
Qed.

Lemma readall_zero (f : file) (buf : list byte) :
  readall f buf 0 = Returned 0 None buf f.
Proof. reflexivity. Qed.

(** The fuel given by [readall] is never used up: [Fault] stands for a
    store outside the buffer only. *)
Lemma readall_loop_fuel (n : nat) : ∀ fuel f buf at_ got count,
  (length (f_data f) < n)%nat → (length (f_data f) < fuel)%nat →
  readall_loop fuel f buf at_ got count = readall_loop n f buf at_ got count.
Proof.
  induction n as [|n IH]; intros fuel f buf at_ got count Hn Hf; [lia|].
  destruct fuel as [|fuel]; [lia|]. simpl.
  destruct (got <? count); [|reflexivity].
  destruct (rr_ret _ <? 0) eqn:E1; [reflexivity|].
  destruct (rr_ret _ =? 0) eqn:E2; [reflexivity|].
  destruct (store _ _ _); [|reflexivity].
  destruct (read_bytes_prefix f (Word.sub count got) ltac:(lia)) as [Hb Hd].
  pose proof (read_ret_length f (Word.sub count got) ltac:(lia)) as Hl.
  rewrite Hb, length_take in Hl.
  apply IH; rewrite Hd, length_drop; lia.
Qed.

(** C9. [readall] does not loop over partial reads: the counter is
    decremented ([got -= chunk]) and wraps around, so the loop ends
    after the first read that delivers anything and the call reports
    the full count.  Here the descriptor holds five bytes and eight are
    asked for: the result is 8, not -1 with EPIPE, and the last three
    bytes of the buffer are the ones it held before. *)
Theorem readall_short_read_reported_as_full :
  readall (plain_file [x01; x02; x03; x04; x05]) (replicate 8 xff) 8
  = Returned 8 None [x01; x02; x03; x04; x05; xff; xff; xff] (plain_file []).
Proof. reflexivity. Qed.

(** ** Reasoning on computations of the guest process *)

Lemma bind_eq {A B} (m : M A) (k : A → M B) (s : state) :
  (m ≫= k) s = match m s with
               | (Ok a, s') => k a s'
               | (Halt, s') => (Halt, s')
               | (Stuck, s') => (Stuck, s')
               end.
Proof. reflexivity. Qed.

Lemma bind_ok {A B} (m : M A) (k : A → M B) (s s' : state) (a : A) :
  m s = (Ok a, s') → (m ≫= k) s = k a s'.
Proof. intros H. rewrite bind_eq, H. reflexivity. Qed.

Lemma bind_halt {A B} (m : M A) (k : A → M B) (s s' : state) :
  m s = (Halt, s') → (m ≫= k) s = (Halt, s').
Proof. intros H. rewrite bind_eq, H. reflexivity. Qed.

Lemma fail_eq {A} (msg : string) (s : state) :
  @fail A msg s
  = (Halt, log (if in_init s then PowerOff else Exit 1) (log (Diag msg (errno s)) s)).
Proof.
  unfold fail, mbind, M_bind, get, emit, halt. simpl.
  destruct (in_init s); reflexivity.
Qed.

Section Steps.

Context (R : relation state) `{!PreOrder R}.

Lemma steps_ret {A} (a : A) : steps R (mret a).
Proof. intros s r s' [= <- <-]. reflexivity. Qed.

Lemma steps_bind {A B} (m : M A) (k : A → M B) :
  steps R m → (∀ a, steps R (k a)) → steps R (m ≫= k).
Proof.
  intros Hm Hk s r s'. rewrite bind_eq.
  destruct (m s) as [[a| |] s1] eqn:E; intros H; pose proof (Hm _ _ _ E).
  - etrans; [eassumption|]. eapply Hk, H.
  - by injection H as <- <-.
  - by injection H as <- <-.
Qed.

Lemma steps_get {A} (proj : state → A) : steps R (get proj).
Proof. intros s r s' [= <- <-]. reflexivity. Qed.

Lemma steps_halt {A} : steps R (@halt A).
Proof. intros s r s' [= <- <-]. reflexivity. Qed.

Lemma steps_put (upd : state → state) :
  (∀ s, R s (upd s)) → steps R (put upd).
Proof. intros Hu s r s' [= <- <-]. apply Hu. Qed.

Lemma steps_emit (Q : event → Prop) (e : event) :
  logs R Q → Q e → steps R (emit e).
Proof. intros HQ He s r s' [= <- <-]. by apply HQ. Qed.

Lemma steps_fail {A} (Q : event → Prop) (msg : string) :
  logs R Q → (∀ e, fail_event e → Q e) → steps R (@fail A msg).
Proof.
  intros HQ Hf s r s'. rewrite fail_eq. intros [= <- <-].
  etrans; [apply (HQ (Diag msg (errno s)) s), Hf; exact I|].
  apply HQ, Hf. by destruct (in_init s).
Qed.

Lemma steps_mapM {A B} (f : A → M B) (l : list A) :
  (∀ a, steps R (f a)) → steps R (mapM f l).
Proof.
  intros Hf. induction l as [|a l IH]; simpl.
  - apply steps_ret.
  - apply steps_bind; [apply Hf|]. intros b.
    apply steps_bind; [apply IH|]. intros bs. apply steps_ret.
Qed.

End Steps.

Global Instance adds_preorder (P : event → Prop) : PreOrder (adds P).
Proof.
  split.
  - intros s. exists []. by rewrite app_nil_r.
  - intros s1 s2 s3 (e1 & H1 & F1) (e2 & H2 & F2). exists (e1 ++ e2).
    rewrite H2, H1, app_assoc. split; [done|]. by apply Forall_app.
Qed.

Lemma adds_lenient (P : event → Prop) : lenient (adds P).
Proof. repeat split; intros; exists []; by rewrite app_nil_r. Qed.

Lemma adds_logs (P : event → Prop) : logs (adds P) P.
Proof. intros e s He. exists [e]. simpl. auto. Qed.

Global Instance same_ubda_preorder : PreOrder same_ubda.
Proof. split; unfold same_ubda; [done|]. intros ??? -> ->. done. Qed.

Lemma same_ubda_lenient : lenient same_ubda.
Proof. by repeat split. Qed.

Lemma same_ubda_logs : logs same_ubda (λ _, True).
Proof. by intros e s _. Qed.

Global Instance same_ubda_tracks : Tracks same_ubda (λ _, True).
Proof.
  split; [apply _|apply same_ubda_lenient|apply same_ubda_logs|done].
Qed.

Global Instance adds_idle_tracks : Tracks (adds idle) idle.
Proof.
  split; [apply _|apply adds_lenient|apply adds_logs|].
  by intros [].
Qed.

Section StepsOf.

Context (R : relation state) (Q : event → Prop) `{!Tracks R Q}.

Lemma bind_steps {A B} (m : M A) (k : A → M B) :
  steps R m → (∀ a, steps R (k a)) → steps R (m ≫= k).
Proof. apply steps_bind, _. Qed.
Lemma ret_steps {A} (a : A) : steps R (mret a).
Proof. apply steps_ret, _. Qed.
Lemma get_steps {A} (proj : state → A) : steps R (get proj).
Proof. apply steps_get, _. Qed.
Lemma halt_steps {A} : steps R (@halt A).
Proof. apply steps_halt, _. Qed.
Lemma mapM_steps {A B} (f : A → M B) (l : list A) :
  (∀ a, steps R (f a)) → steps R (mapM f l).
Proof. apply steps_mapM, _. Qed.
Lemma fail_steps {A} (msg : string) : steps R (@fail A msg).
Proof. exact (steps_fail R Q msg tracks_logs (tracks_fail (R:=R))). Qed.
Lemma emit_steps (e : event) : Q e → steps R (emit e).
Proof. exact (steps_emit R Q e tracks_logs). Qed.

Lemma steps_set_errno (e : Z) : steps R (put (set_errno e)).
Proof. apply steps_put. intros s. apply tracks_lenient. Qed.
Lemma steps_set_environ m : steps R (put (set_environ m)).
Proof. apply steps_put. intros s. apply tracks_lenient. Qed.
Lemma steps_set_in_init b : steps R (put (set_in_init b)).
Proof. apply steps_put. intros s. apply tracks_lenient. Qed.
Lemma steps_set_pids p : steps R (put (set_pids p)).
Proof. apply steps_put. intros s. apply tracks_lenient. Qed.
Lemma steps_set_rands r : steps R (put (set_rands r)).
Proof. apply steps_put. intros s. apply tracks_lenient. Qed.
Lemma steps_set_ticks t : steps R (put (set_ticks t)).
Proof. apply steps_put. intros s. apply tracks_lenient. Qed.

End StepsOf.

(** Takes a goal [steps R m] apart along the structure of [m]; what is
    left are the events to be accepted and the calls of functions it
    does not know. *)
Ltac steps_go :=
  repeat lazymatch goal with
    | |- steps _ (mret _) => eapply ret_steps; typeclasses eauto
    | |- steps _ halt => eapply halt_steps; typeclasses eauto
    | |- steps _ (get _) => eapply get_steps; typeclasses eauto
    | |- steps _ (fail _) => eapply fail_steps; typeclasses eauto
    | |- steps _ (put (set_errno _)) => eapply steps_set_errno; typeclasses eauto
    | |- steps _ (put (set_environ _)) =>
        eapply steps_set_environ; typeclasses eauto
    | |- steps _ (put (set_in_init _)) =>
        eapply steps_set_in_init; typeclasses eauto
    | |- steps _ (put (set_pids _)) => eapply steps_set_pids; typeclasses eauto
    | |- steps _ (put (set_rands _)) => eapply steps_set_rands; typeclasses eauto
    | |- steps _ (put (set_ticks _)) => eapply steps_set_ticks; typeclasses eauto
    | |- steps _ (emit _) => eapply emit_steps; [typeclasses eauto|]
    | |- steps _ (_ ≫= _) => eapply bind_steps; [typeclasses eauto| |intros ?]
    | |- steps _ (mapM _ _) => eapply mapM_steps; [typeclasses eauto|intros ?]
    | |- steps _ (MUST _ _ _ _ _) => unfold MUST
    | |- steps _ (open_to _ _ _ _ _ _) => unfold open_to
    | |- steps _ (setenv _ _) => unfold setenv
    | |- steps _ (getenv _) => unfold getenv
    | |- steps _ (hostify _ _ _ _ _ _) => unfold hostify
    | |- steps _ (if ?b then _ else _) => destruct b
    | |- steps _ (match ?x with _ => _ end) => destruct x
    end.

Lemma length_fresh (uninit : nat → byte) (n : Z) :
  length (fresh uninit n) = Z.to_nat n.
Proof. unfold fresh. by rewrite length_fmap, length_seq. Qed.

(** ** The block image *)

Lemma pack_LL_Some (a b : Z) (hdr : list byte) :
  Host.pack_LL a b = Some hdr →
  hdr = Word.le32 a ++ Word.le32 b ∧ 0 <= b < 2 ^ 32.
Proof.
  unfold Host.pack_LL. destruct (_ && _) eqn:E; [|discriminate].
  intros H. split; [congruence|].
  apply andb_prop in E as [E1 E2]. apply andb_prop in E1 as [_ E1]. lia.
Qed.

Lemma block_image_shape (payload image : list byte) :
  Host.block_image payload = Some image →
  Z.of_nat (length payload) < 2 ^ 32
  ∧ ∃ n : nat,
      image = Word.le32 MAGIC ++ Word.le32 (Z.of_nat (length payload))
              ++ payload ++ replicate n x00
      ∧ (Z.of_nat (length image) mod 512 = 0).
Proof.
  unfold Host.block_image.
  destruct (Host.pack_LL MAGIC _) as [hdr|] eqn:Ep; [|discriminate].
  unfold mbind, option_bind. intros [= <-].
  apply pack_LL_Some in Ep as [Eh E2].
  split; [lia|].
  set (n := Z.of_nat (length (hdr ++ payload))).
  assert (Hn : n = Z.of_nat (length (hdr ++ payload))) by reflexivity.
  destruct (n mod 512 =? 0) eqn:E3; simpl.
  - exists 0%nat. simpl replicate. rewrite app_nil_r. split.
    + rewrite Eh. by rewrite <- !app_assoc.
    + rewrite <- Hn. lia.
  - exists (Z.to_nat (512 - n mod 512)). split.
    + rewrite Eh. by rewrite <- !app_assoc.
    + rewrite length_app, length_replicate.
      pose proof (Z.mod_pos_bound n 512 ltac:(lia)).
      rewrite Nat2Z.inj_add, <- Hn, Z2Nat.id by lia.
      replace (n + (512 - n mod 512)) with (n - n mod 512 + 1 * 512) by lia.
      rewrite Z_mod_plus_full, Zminus_mod_idemp_r, Z.sub_diag. done.
Qed.

Section GuestFacts.

Variable sys : call → Z.
Variable sys_errno : call → Z.
Variable execv : string → list string → option Z.
Variable execvp : string → list string → option Z.
Variable config__unpack : list byte → option Config.
Variable uninit : nat → byte.
Variable cat_pipe : Z * Z.

Lemma MUST_ok (msg : string) (err : Z) (c : call) (s : state) :
  sys c ≠ err → MUST sys sys_errno msg err c s = (Ok (sys c), log (Call c) s).
Proof.
  intros H. unfold MUST, mbind, M_bind, emit. simpl.
  destruct (sys c =? err) eqn:E; [lia|reflexivity].
Qed.

Lemma MUST_err (msg : string) (err : Z) (c : call) (s : state) :
  sys c = err →
  MUST sys sys_errno msg err c s
  = fail msg (set_errno (sys_errno c) (log (Call c) s)).
Proof.
  intros H. unfold MUST, mbind, M_bind, emit, put. simpl.
  destruct (sys c =? err) eqn:E; [reflexivity|lia].
Qed.

Lemma steps_MUST (R : relation state) (Q : event → Prop) `{!Tracks R Q}
    (msg : string) (err : Z) (c : call) :
  Q (Call c) → steps R (MUST sys sys_errno msg err c).
Proof. intros Hc. unfold MUST. by steps_go. Qed.

Lemma bootstrap_idle : steps (adds idle) (bootstrap sys sys_errno).
Proof.
  unfold bootstrap, open_to, setenv, MUST. steps_go; reflexivity.
Qed.

Lemma bootstrap_same_ubda : steps same_ubda (bootstrap sys sys_errno).
Proof.
  unfold bootstrap, open_to, setenv, MUST. steps_go; exact I.
Qed.

(** The header is read by one call of [read]; what it delivers is
    taken for the whole header. *)
Lemma read_header (s : state) (msg : string) :
  0 < rr_ret (read (ubda s) 8) →
  MUST_readall msg (fresh uninit 8) 8 s
  = (Ok (rr_bytes (read (ubda s) 8)
         ++ drop (length (rr_bytes (read (ubda s) 8))) (fresh uninit 8)),
     set_ubda (rr_file (read (ubda s) 8)) s).
Proof.
  intros Hr. unfold MUST_readall, mbind, M_bind, get, put. simpl.
  rewrite readall_single; [reflexivity|lia| |done].
  rewrite length_fresh. lia.
Qed.

Lemma read_header_plain (s : state) (msg : string) (hd rest : list byte) :
  ubda s = plain_file (hd ++ rest) → length hd = 8%nat →
  MUST_readall msg (fresh uninit 8) 8 s = (Ok hd, set_ubda (plain_file rest) s).
Proof.
  intros Hf Hl.
  assert (Hrd : read (ubda s) 8 = ReadResult 8 hd None (plain_file rest)).
  { rewrite Hf, read_plain by (rewrite length_app; lia).
    change (Z.to_nat 8) with 8%nat. rewrite <- Hl.
    by rewrite take_app_length, drop_app_length. }
  rewrite read_header by (rewrite Hrd; simpl; lia).
  rewrite Hrd. cbn [rr_bytes rr_file]. rewrite Hl.
  rewrite drop_ge by (rewrite length_fresh; lia). by rewrite app_nil_r.
Qed.

Lemma bad_magic_load (s : state) :
  4 <= rr_ret (read (ubda s) 8) →
  take 4 (f_data (ubda s)) ≠ Word.le32 MAGIC →
  sys (sys_open "/ubda" O_RDONLY) ≠ -1 →
  load_config sys sys_errno config__unpack uninit s
  = (Halt,
     log (if in_init s then PowerOff else Exit 1)
       (log (Diag "bad /ubda header" EINVAL)
          (set_errno EINVAL
             (set_ubda (rr_file (read (ubda s) 8))
                (log (Call (sys_open "/ubda" O_RDONLY)) s))))).
Proof.
  intros Hr Hm Ho. unfold load_config.
  rewrite (bind_ok _ _ _ _ _ (MUST_ok _ _ _ _ Ho)).
  erewrite bind_ok; [|apply read_header; simpl; lia].
  change (ubda (log (Call (sys_open "/ubda" O_RDONLY)) s)) with (ubda s).
  destruct (read_bytes_prefix (ubda s) 8 ltac:(lia)) as [Hb _].
  pose proof (read_ret_length (ubda s) 8 ltac:(lia)) as Hl.
  set (r := read (ubda s) 8) in *.
  assert (Ht : take 4 (rr_bytes r ++ drop (length (rr_bytes r)) (fresh uninit 8))
               = take 4 (f_data (ubda s))).
  { rewrite take_app_le by lia. rewrite Hb, take_take. f_equal. lia. }
  rewrite Ht.
  assert (Hne : (Word.of_le32 (take 4 (f_data (ubda s))) =? MAGIC) = false).
  { apply Z.eqb_neq. intros E. apply Hm.
    rewrite <- E. symmetry. apply WordFacts.le32_of_le32.
    rewrite length_take. rewrite Hb, length_take in Hl. lia. }
  rewrite Hne. simpl negb. cbv iota.
  unfold mbind at 1, M_bind at 1.
  unfold mbind at 1, M_bind at 1, put at 1.
  rewrite fail_eq. reflexivity.
Qed.

Lemma bad_magic_load_idle (s : state) :
  4 <= rr_ret (read (ubda s) 8) →
  take 4 (f_data (ubda s)) ≠ Word.le32 MAGIC →
  ∀ r s', load_config sys sys_errno config__unpack uninit s = (r, s') →
          r = Halt ∧ adds idle s s'.
Proof.
  intros Hr Hm r s'.
  destruct (decide (sys (sys_open "/ubda" O_RDONLY) = -1)) as [E|E].
  - unfold load_config. rewrite bind_eq, MUST_err, fail_eq by done.
    intros [= <- <-]. split; [done|].
    eexists [_; _; _]. simpl. rewrite <- !app_assoc. split; [done|].
    repeat constructor. by destruct (in_init s).
  - rewrite bad_magic_load by done. intros [= <- <-]. split; [done|].
    eexists [_; _; _]. simpl. rewrite <- !app_assoc. split; [done|].
    repeat constructor. by destruct (in_init s).
Qed.

(** C2. An image whose first four bytes are not the magic word is
    rejected whatever follows them: decoding ends in the fatal error
    "bad /ubda header" (EINVAL), and a run of [main] on such an image
    performs no mount and starts no run. *)
Theorem bad_magic_rejected (s : state) :
  4 <= rr_ret (read (ubda s) 8) →
  take 4 (f_data (ubda s)) ≠ Word.le32 MAGIC →
  (sys (sys_open "/ubda" O_RDONLY) ≠ -1 →
   ∃ s', load_config sys sys_errno config__unpack uninit s = (Halt, s')
         ∧ trace s' = trace s ++ [Call (sys_open "/ubda" O_RDONLY);
                                  Diag "bad /ubda header" EINVAL;
                                  if in_init s then PowerOff else Exit 1])
  ∧ (∀ r s', main sys sys_errno execv execvp config__unpack uninit cat_pipe s
             = (r, s') →
             (∀ u, r ≠ Ok u) ∧ adds idle s s').
Proof.
  intros Hr Hm. split.
  - intros Ho. eexists. split; [by apply bad_magic_load|].
    simpl. by rewrite <- !app_assoc.
  - intros r s'. unfold main. rewrite bind_eq.
    destruct (bootstrap sys sys_errno s) as [[[]| |] s1] eqn:Eb.
    + pose proof (bootstrap_idle _ _ _ Eb) as Hi.
      pose proof (bootstrap_same_ubda _ _ _ Eb) as Hu. red in Hu.
      rewrite bind_eq.
      destruct (load_config _ _ _ _ s1) as [r1 s2] eqn:El.
      apply bad_magic_load_idle in El as [-> Ha]; [|by rewrite Hu..].
      intros [= <- <-]. split; [done|]. by etrans.
    + intros [= <- <-]. split; [done|]. by apply (bootstrap_idle _ _ _ Eb).
    + intros [= <- <-]. split; [done|]. by apply (bootstrap_idle _ _ _ Eb).
Qed.

Lemma MUST_readall_ok (msg : string) (buf buf' : list byte) (count ret : Z)
    (f' : file) (s : state) :
  readall (ubda s) buf count = Returned ret None buf' f' →
  Word.to_int ret ≠ -1 →
  MUST_readall msg buf count s = (Ok buf', set_ubda f' s).
Proof.
  intros Hr Hne. unfold MUST_readall, mbind, M_bind, get, put. simpl.
  rewrite Hr. simpl. destruct (Word.to_int ret =? -1) eqn:E; [lia|reflexivity].
Qed.

(** C1. Decoding the block image made for a configuration gives the
    configuration back: the header is recognised, the declared length
    is the length of the payload, and the payload reaches the decoder
    unchanged, padding left aside.  The configuration is well formed
    when the protobuf codec round-trips on it and its payload length
    fits the 32-bit header word (otherwise no image is produced). *)
Theorem config_round_trip (SerializeToString : Config → list byte)
    (c : Config) (image : list byte) (s : state) :
  Host.encode SerializeToString c = Some image →
  config__unpack (SerializeToString c) = Some c →
  Z.of_nat (length (SerializeToString c)) ≠ 2 ^ 32 - 1 →
  ubda s = plain_file image →
  sys (sys_open "/ubda" O_RDONLY) ≠ -1 →
  sys (sys_malloc (Z.of_nat (length (SerializeToString c)))) ≠ 0 →
  (∃ n : nat,
     image = Word.le32 MAGIC
             ++ Word.le32 (Z.of_nat (length (SerializeToString c)))
             ++ SerializeToString c ++ replicate n x00
     ∧ Z.of_nat (length image) mod 512 = 0)
  ∧ ∃ s', load_config sys sys_errno config__unpack uninit s = (Ok c, s')
          ∧ trace s'
            = trace s ++ [Call (sys_open "/ubda" O_RDONLY);
                          Call (sys_malloc
                                  (Z.of_nat (length (SerializeToString c))));
                          Close (sys (sys_open "/ubda" O_RDONLY))].
Proof.
  unfold Host.encode. set (payload := SerializeToString c).
  intros Hi Hu Hmax Hf Ho Hm.
  pose proof (block_image_shape _ _ Hi) as (_ & n0 & Hn0 & Hblk).
  split; [by exists n0|]. clear n0 Hn0 Hblk.
  apply block_image_shape in Hi as (Hlen & n & -> & _).
  set (len := Z.of_nat (length payload)) in *.
  unfold load_config.
  rewrite (bind_ok _ _ _ _ _ (MUST_ok _ _ _ _ Ho)).
  set (s1 := log _ s).
  assert (Hf1 : ubda s1 = plain_file
                  ((Word.le32 MAGIC ++ Word.le32 len) ++ payload ++ replicate n x00))
    by (rewrite <- app_assoc; exact Hf).
  erewrite bind_ok; [|by apply (read_header_plain _ _ _ _ Hf1)].
  rewrite take_app_length' by done.
  rewrite drop_app_length', take_ge by done.
  rewrite !WordFacts.of_le32_le32 by (unfold MAGIC; lia).
  rewrite Z.eqb_refl. simpl negb. cbv iota.
  rewrite bind_eq. unfold mret at 1, M_ret at 1.
  rewrite (bind_ok _ _ _ _ _ (MUST_ok _ _ _ _ Hm)).
  set (s2 := log _ (set_ubda _ s1)).
  assert (Hrl : readall (ubda s2) (fresh uninit len) len
                = Returned len None payload
                    (plain_file (drop (length payload) (payload ++ replicate n x00)))).
  { change (ubda s2) with (plain_file (payload ++ replicate n x00)).
    destruct (decide (len = 0)) as [E0|E0].
    - rewrite E0. assert (payload = []) as -> by (apply length_zero_iff_nil; lia).
      reflexivity.
    - assert (Hrp : read (plain_file (payload ++ replicate n x00)) len
                    = ReadResult len payload None
                        (plain_file (drop (length payload)
                                       (payload ++ replicate n x00)))).
      { rewrite read_plain by (rewrite length_app; lia).
        unfold len. rewrite Nat2Z.id, take_app_length. done. }
      rewrite readall_single.
      + rewrite Hrp. cbn [rr_bytes rr_file].
        rewrite drop_ge by (rewrite length_fresh; lia).
        by rewrite app_nil_r.
      + lia.
      + rewrite length_fresh. lia.
      + rewrite Hrp. cbn [rr_ret]. lia. }
  erewrite bind_ok;
    [|eapply MUST_readall_ok; [exact Hrl|apply WordFacts.to_int_small; lia]].
  rewrite Hu. unfold mbind, M_bind, emit, mret, M_ret. simpl.
  eexists. split; [reflexivity|]. simpl. by rewrite <- !app_assoc.
Qed.

End GuestFacts.

Lemma config_round_trip_witness :
  Host.encode Sample.pack Sample.cfg = Some Sample.image
  ∧ Sample.unpack (Sample.pack Sample.cfg) = Some Sample.cfg
  ∧ Z.of_nat (length Sample.image) = 512
  ∧ ∃ s', load_config Sample.sys Sample.sys_errno Sample.unpack Sample.uninit
            (Sample.boot Sample.image [] [])
          = (Ok Sample.cfg, s')
          ∧ trace s'
            = [Call (sys_open "/ubda" O_RDONLY);
               Call (sys_malloc (Z.of_nat (length (Sample.pack Sample.cfg))));
               Close 3].
Proof.
  assert (H1 : Host.encode Sample.pack Sample.cfg = Some Sample.image)
    by reflexivity.
  assert (H2 : Sample.unpack (Sample.pack Sample.cfg) = Some Sample.cfg)
    by reflexivity.
  split; [exact H1|]. split; [exact H2|]. split; [by vm_compute|].
  apply (proj2 (config_round_trip Sample.sys Sample.sys_errno Sample.unpack
                  Sample.uninit Sample.pack Sample.cfg Sample.image
                  (Sample.boot Sample.image [] []) H1 H2
                  ltac:(by vm_compute) eq_refl ltac:(by vm_compute)
                  ltac:(by vm_compute))).
Defined.

Lemma bad_magic_rejected_witness :
  let s := Sample.boot [x00; x01; x02; x03; x04] [] [] in
  4 <= rr_ret (read (ubda s) 8)
  ∧ take 4 (f_data (ubda s)) ≠ Word.le32 MAGIC
  ∧ ((Sample.sys (sys_open "/ubda" O_RDONLY) ≠ -1 →
      ∃ s', load_config Sample.sys Sample.sys_errno (λ _, None) Sample.uninit s
            = (Halt, s')
            ∧ trace s' = trace s ++ [Call (sys_open "/ubda" O_RDONLY);
                                     Diag "bad /ubda header" EINVAL;
                                     if in_init s then PowerOff else Exit 1])
     ∧ (∀ r s', main Sample.sys Sample.sys_errno Sample.execv Sample.execv
                  (λ _, None) Sample.uninit Sample.cat_pipe s = (r, s') →
                (∀ u, r ≠ Ok u) ∧ adds idle s s')).
Proof.
  intros s.
  assert (H1 : 4 <= rr_ret (read (ubda s) 8)) by (by vm_compute).
  assert (H2 : take 4 (f_data (ubda s)) ≠ Word.le32 MAGIC) by (by vm_compute).
  split; [exact H1|]. split; [exact H2|].
  exact (bad_magic_rejected Sample.sys Sample.sys_errno Sample.execv Sample.execv
           (λ _, None) Sample.uninit Sample.cat_pipe s H1 H2).
Defined.

(** ** What the guest logs outside of its mounts *)

Lemma adds_set_ubda (P : event → Prop) (f : file) :
  steps (adds P) (put (set_ubda f)).
Proof. apply steps_put. intros s. exists []. by rewrite app_nil_r. Qed.

(** Every function of init.c but [handle_mount] logs events that are
    neither a [mount] nor a signal other than SIGTERM. *)
Section Ordinary.

Variable sys : call → Z.
Variable sys_errno : call → Z.
Variable execv : string → list string → option Z.
Variable execvp : string → list string → option Z.
Variable config__unpack : list byte → option Config.
Variable uninit : nat → byte.
Variable cat_pipe : Z * Z.

Context (P : event → Prop) `{!Tracks (adds P) P}.
Hypothesis HP : ∀ e, gentle e → no_mount e → P e.

Local Ltac go := steps_go; try (apply HP; done).

Lemma bootstrap_adds : steps (adds P) (bootstrap sys sys_errno).
Proof. unfold bootstrap. go. Qed.

Lemma load_config_adds :
  steps (adds P) (load_config sys sys_errno config__unpack uninit).
Proof. unfold load_config, MUST_readall. go; apply adds_set_ubda. Qed.

Lemma handle_random_adds (data : list byte) :
  steps (adds P) (handle_random sys sys_errno data).
Proof. unfold handle_random. go. Qed.

Lemma handle_tty_raw_adds (dev : string) :
  steps (adds P) (handle_tty_raw sys sys_errno dev).
Proof. unfold handle_tty_raw. go. Qed.

Lemma mkdirs_loop_adds (fuel : nat) (tail : string) :
  steps (adds P) (mkdirs_loop sys sys_errno fuel tail).
Proof.
revert tail. induction fuel as [|fuel IH]; intros tail; simpl; [go|].
destruct (CStr.strchr tail "/") as [[pre post]|]; go; apply IH.
Qed.

Lemma set_limits_adds (ls : list Limit) :
  steps (adds P) (set_limits sys sys_errno ls).
Proof. induction ls as [|l ls IH]; simpl; go; apply IH. Qed.

Lemma exec_loop_adds (fuel : nat) (name : string) (args : list string) :
  ∀ path cmd0 e0, steps (adds P) (exec_loop execv fuel name args path cmd0 e0).
Proof.
induction fuel as [|fuel IH]; intros path cmd0 e0; simpl; [go|].
destruct path as [p|]; [destruct (CStr.strchr p ":") as [[dir rest]|]|];
  go; apply IH.
Qed.

Lemma child_branch_adds (run : Run) (uid gid cat : Z) :
  steps (adds P) (child_branch sys sys_errno execv cat_pipe run uid gid cat).
Proof.
unfold child_branch, resolve_and_exec. go;
  first [apply set_limits_adds | apply exec_loop_adds].
Qed.

Lemma cat_branch_adds (run : Run) (uid gid : Z) :
  steps (adds P) (cat_branch sys sys_errno execvp cat_pipe run uid gid).
Proof. unfold cat_branch. go. Qed.

Lemma wait_loop_adds (ts : list tick) :
  ∀ child cat child_running cat_running timed_out,
    steps (adds P)
      (wait_loop sys sys_errno uninit ts child cat child_running cat_running
         timed_out).
Proof.
induction ts as [|t ts IH]; intros child cat cr catr to; simpl.
- intros s r s' [= <- <-]. exists []. by rewrite app_nil_r.
- destruct t; go; apply IH.
Qed.

Lemma handle_run_adds (run : Run) :
  steps (adds P) (handle_run sys sys_errno execv execvp uninit cat_pipe run).
Proof.
unfold handle_run, fork, random_. go;
  first [apply child_branch_adds | apply cat_branch_adds | apply wait_loop_adds].
Qed.

Lemma run_all_adds (runs : list Run) :
  steps (adds P) (run_all sys sys_errno execv execvp uninit cat_pipe runs).
Proof.
induction runs as [|r runs IH]; simpl; [go|].
eapply bind_steps; [typeclasses eauto|apply handle_run_adds|].
intros []; [go|apply IH].
Qed.

End Ordinary.

(** ** The order of the mounts *)

Global Instance key_le_total : Total Host.key_le.
Proof.
intros a b. unfold Host.key_le.
destruct (Nat.lt_trichotomy (String.length a) (String.length b)) as [H|[H|H]];
  [by left; left| |by right; left].
destruct (total String.le a b); [left|right]; right; by rewrite H.
Qed.

Global Instance key_le_trans : Transitive Host.key_le.
Proof.
intros a b c [H1|[H1 L1]] [H2|[H2 L2]]; unfold Host.key_le.
- left. lia.
- left. lia.
- left. lia.
- right. split; [lia|]. by etrans.
Qed.

Global Instance key_le_antisym : AntiSymm (=) Host.key_le.
Proof.
intros a b [H1|[H1 L1]] [H2|[H2 L2]]; try lia.
by apply (anti_symm String.le).
Qed.

Lemma keyed_insert (d : gmap string Mount) (k : string) (m : Mount) :
  keyed d → target m = k → keyed (<[k:=m]> d).
Proof. intros Hd Hm. by apply map_Forall_insert_2. Qed.

Lemma keyed_foldl {A} (f : gmap string Mount → A → gmap string Mount)
    (l : list A) (d : gmap string Mount) :
  (∀ acc x, keyed acc → keyed (f acc x)) → keyed d → keyed (foldl f d l).
Proof.
intros Hf. revert d. induction l as [|x l IH]; intros d Hd; simpl; auto.
Qed.

Lemma mounts_keyed (isdir : string → bool) (abspath : string → string)
    (a : Host.mount_args) :
  keyed (Host.mounts isdir abspath a).
Proof.
unfold Host.mounts.
repeat (apply keyed_foldl; [intros acc x Hacc; by apply keyed_insert|]).
assert (H0 : keyed (<["/sys":=Host.plain_mount "/sys" "sysfs" "sysfs"]>
                      (<["/proc":=Host.plain_mount "/proc" "proc" "proc"]>
                         (<["/tmp":=Host.plain_mount "/tmp" "tmpfs" "tmpfs"]> ∅)))).
{ repeat (apply keyed_insert; [|done]). apply map_Forall_empty. }
destruct (Host.base_mounts a); [|done].
apply keyed_foldl; [|done].
intros acc x Hacc. destruct (isdir x); [by apply keyed_insert|done].
Qed.

Lemma sorted_keys_perm (d : gmap string Mount) :
  Host.sorted_keys d ≡ₚ (map_to_list d).*1.
Proof. apply merge_sort_Permutation. Qed.

Lemma sorted_keys_sorted (d : gmap string Mount) :
  StronglySorted Host.key_le (Host.sorted_keys d).
Proof. apply StronglySorted_merge_sort; apply _. Qed.

Lemma elem_of_sorted_keys (d : gmap string Mount) (k : string) :
  k ∈ Host.sorted_keys d ↔ is_Some (d !! k).
Proof.
rewrite sorted_keys_perm, list_elem_of_fmap. split.
- intros ([k' m] & -> & H). apply elem_of_map_to_list in H. by exists m.
- intros [m H]. exists (k, m). split; [done|]. by apply elem_of_map_to_list.
Qed.

Lemma cfg_mount_targets (d : gmap string Mount) :
  keyed d → target <$> Host.cfg_mount d = Host.sorted_keys d.
Proof.
intros Hd. unfold Host.cfg_mount.
assert (H : ∀ k, k ∈ Host.sorted_keys d → is_Some (d !! k))
  by (intros k; apply elem_of_sorted_keys).
induction (Host.sorted_keys d) as [|k l IH]; [done|]. simpl.
destruct (H k ltac:(left)) as [m Hm]. rewrite Hm. simpl.
rewrite (Hd _ _ Hm). f_equal. apply IH. intros k' Hk'. apply H. by right.
Qed.

(** A list sorted by the key that holds each of the keys once is the
    result of [sorted]. *)
Lemma sorted_keys_unique (d : gmap string Mount) (l : list string) :
  StronglySorted Host.key_le l → NoDup l → (∀ k, k ∈ l ↔ is_Some (d !! k)) →
  Host.sorted_keys d = l.
Proof.
intros Hs Hn Hl.
apply (StronglySorted_unique Host.key_le); [apply sorted_keys_sorted|done|].
apply NoDup_Permutation; [|done|].
- rewrite sorted_keys_perm. apply NoDup_fst_map_to_list.
- intros k. by rewrite elem_of_sorted_keys, Hl.
Qed.

Global Instance adds_no_mount_tracks : Tracks (adds no_mount) no_mount.
Proof.
split; [apply _|apply adds_lenient|apply adds_logs|].
by intros [].
Qed.

Lemma mounted_adds_no_mount (s s' : state) :
  adds no_mount s s' → mounted (trace s') = mounted (trace s).
Proof.
intros (evs & -> & H). unfold mounted. rewrite omap_app.
assert (omap mount_call evs = []) as ->; [|by rewrite app_nil_r].
induction H as [|e evs He _ IH]; [done|]. simpl. by rewrite He.
Qed.

Section MountOrder.

Variable sys : call → Z.
Variable sys_errno : call → Z.

Lemma mkdirs_loop_no_mount (fuel : nat) (tail : string) :
  steps (adds no_mount) (mkdirs_loop sys sys_errno fuel tail).
Proof.
revert tail. induction fuel as [|fuel IH]; intros tail; simpl.
- steps_go.
- destruct (CStr.strchr tail "/") as [[pre post]|]; unfold MUST;
    steps_go; try reflexivity; apply IH.
Qed.

Lemma mkdirs_no_mount (dir : string) :
  steps (adds no_mount) (mkdirs sys sys_errno dir).
Proof.
unfold mkdirs, MUST. steps_go; try reflexivity. apply mkdirs_loop_no_mount.
Qed.

Lemma handle_mount_mounted (m : Mount) (s s' : state) (r : result ()) :
  handle_mount sys sys_errno m s = (r, s') →
  mounted (trace s') = mounted (trace s) ++ [mount_point m]
  ∨ (r ≠ Ok tt ∧ mounted (trace s') = mounted (trace s)).
Proof.
unfold handle_mount. rewrite bind_eq.
destruct (mkdirs sys sys_errno (mount_point m) s) as [[[]| |] s1] eqn:E;
  pose proof (mounted_adds_no_mount _ _ (mkdirs_no_mount _ _ _ _ E)) as H1.
- set (c := sys_mount _ _ _ _ _ _). rewrite bind_eq.
  destruct (decide (sys c = -1)) as [Ec|Ec].
  + rewrite MUST_err, fail_eq by done. intros [= <- <-]. left.
    simpl. unfold mounted in *. rewrite !omap_app, H1. simpl.
    destruct (in_init s1); simpl; by rewrite <- !app_assoc.
  + rewrite MUST_ok by done. intros [= <- <-]. left.
    simpl. unfold mounted in *. by rewrite omap_app, H1.
- intros [= <- <-]. by right.
- intros [= <- <-]. by right.
Qed.

Lemma handle_mounts_mounted (ms : list Mount) (s s' : state)
    (r : result (list ())) :
  mapM (handle_mount sys sys_errno) ms s = (r, s') →
  ∃ k : nat, mounted (trace s') = mounted (trace s) ++ take k (mount_point <$> ms)
             ∧ (∀ l, r = Ok l → k = length ms).
Proof.
revert s r s'. induction ms as [|m ms IH]; intros s r s'; simpl.
- intros [= <- <-]. exists 0%nat. by rewrite app_nil_r.
- rewrite bind_eq.
  destruct (handle_mount sys sys_errno m s) as [[[]| |] s1] eqn:E;
    destruct (handle_mount_mounted _ _ _ _ E) as [H1|[Hr H1]]; try done.
  + rewrite bind_eq.
    destruct (mapM (handle_mount sys sys_errno) ms s1) as [[l| |] s2] eqn:E2;
      destruct (IH _ _ _ E2) as (k & Hk & Hl); intros [= <- <-];
      exists (S k); rewrite Hk, H1, <- app_assoc; (split; [done|]); try done.
    intros l' _. by rewrite (Hl l).
  + intros [= <- <-]. exists 1%nat. by rewrite H1.
  + intros [= <- <-]. exists 0%nat. by rewrite H1, app_nil_r.
  + intros [= <- <-]. exists 1%nat. by rewrite H1.
  + intros [= <- <-]. exists 0%nat. by rewrite H1, app_nil_r.
Qed.

Variable execv : string → list string → option Z.
Variable execvp : string → list string → option Z.
Variable uninit : nat → byte.
Variable cat_pipe : Z * Z.

(** The [mount] calls of the whole of what [main] does with a
    configuration are those of its mount loop. *)
Lemma execute_mounted (cfg : Config) (s s' : state) (r : result ()) :
  execute sys sys_errno execv execvp uninit cat_pipe cfg s = (r, s') →
  ∃ k : nat,
    mounted (trace s') = mounted (trace s) ++ take k (mount_point <$> mount cfg).
Proof.
assert (HP : ∀ e, gentle e → no_mount e → no_mount e) by auto.
unfold execute. rewrite bind_eq.
match goal with |- context [match ?m s with _ => _ end] =>
  assert (H1 : steps (adds no_mount) m);
  [|destruct (m s) as [[[]| |] s1] eqn:E1;
    pose proof (mounted_adds_no_mount _ _ (H1 _ _ _ E1)) as M1] end.
{ steps_go. eapply handle_random_adds; [typeclasses eauto|exact HP]. }
2,3: intros [= <- <-]; exists 0%nat; by rewrite M1, app_nil_r.
rewrite bind_eq.
match goal with |- context [match ?m s1 with _ => _ end] =>
  assert (H2 : steps (adds no_mount) m);
  [|destruct (m s1) as [[l2| |] s2] eqn:E2;
    pose proof (mounted_adds_no_mount _ _ (H2 _ _ _ E2)) as M2] end.
{ steps_go. eapply handle_tty_raw_adds; [typeclasses eauto|exact HP]. }
2,3: intros [= <- <-]; exists 0%nat; by rewrite M2, M1, app_nil_r.
rewrite bind_eq.
destruct (mapM (handle_mount sys sys_errno) (mount cfg) s2) as [[l3| |] s3] eqn:E3;
  destruct (handle_mounts_mounted _ _ _ _ E3) as (k & Hk & _).
2,3: intros [= <- <-]; exists k; by rewrite Hk, M2, M1.
intros E4. exists k. rewrite <- M1, <- M2, <- Hk.
revert E4.
match goal with |- ?m s3 = _ → _ =>
  assert (H4 : steps (adds no_mount) m); [|intros E4;
    apply (mounted_adds_no_mount _ _ (H4 _ _ _ E4))] end.
steps_go; try done. eapply run_all_adds; [typeclasses eauto|exact HP].
Qed.

End MountOrder.

(** C3. The mounts of the configuration are in ascending order of the
    length of their target, ties in lexical order, and each key of the
    dictionary gives one mount; a dictionary with the targets "/a",
    "/a/b" and "/" is listed as "/", "/a", "/a/b"; and the guest
    performs its [mount] calls in the order of the configuration (all of
    them when no call fails, a prefix otherwise), its mount loop being
    the only place of a whole execution where it mounts anything. *)
Theorem mounts_applied_in_key_order (isdir : string → bool)
    (abspath : string → string) (a : Host.mount_args) :
  let d := Host.mounts isdir abspath a in
  let ms := Host.cfg_mount d in
  StronglySorted Host.key_le (target <$> ms)
  ∧ NoDup (target <$> ms)
  ∧ (∀ k, k ∈ target <$> ms ↔ is_Some (d !! k))
  ∧ (∀ d' : gmap string Mount,
       dom d' = {["/a"; "/a/b"; "/"]} →
       Host.sorted_keys d' = ["/"; "/a"; "/a/b"])
  ∧ (∀ sys sys_errno s r s',
       mapM (handle_mount sys sys_errno) ms s = (r, s') →
       ∃ k : nat,
         mounted (trace s')
         = mounted (trace s) ++ take k (mount_point <$> ms)
         ∧ (∀ l, r = Ok l → k = length ms))
  ∧ (∀ sys sys_errno execv execvp uninit cat_pipe cfg s r s',
       mount cfg = ms →
       execute sys sys_errno execv execvp uninit cat_pipe cfg s = (r, s') →
       ∃ k : nat,
         mounted (trace s')
         = mounted (trace s) ++ take k (mount_point <$> ms)).
Proof.
intros d ms. unfold ms.
rewrite (cfg_mount_targets d (mounts_keyed isdir abspath a)).
split; [apply sorted_keys_sorted|].
split; [rewrite sorted_keys_perm; apply NoDup_fst_map_to_list|].
split; [apply elem_of_sorted_keys|].
split; [|split; [intros sys sys_errno s r s'; apply handle_mounts_mounted|]].
2: { intros sys sys_errno execv execvp uninit cat_pipe cfg s r s' <-.
     apply execute_mounted. }
intros d' Hd. apply sorted_keys_unique.
- apply (bool_decide_unpack _). by vm_compute.
- apply (bool_decide_unpack _). by vm_compute.
- intros k. rewrite <- elem_of_dom, Hd.
  rewrite !elem_of_union, !elem_of_singleton.
  split.
  + rewrite !elem_of_cons, elem_of_nil. intros [->|[->|[->|[]]]]; auto.
  + intros [[->| ->]| ->]; apply (bool_decide_unpack _); by vm_compute.
Qed.

Lemma mounts_applied_in_key_order_witness :
  let a := {| Host.base_mounts := false; Host.mount_ro := [];
              Host.mount_write := [];
              Host.translate := [("/a", "/x"); ("/a/b", "/y"); ("/", "/z")];
              Host.translate_write := [] |} in
  StronglySorted Host.key_le
    (target <$> Host.cfg_mount (Host.mounts (λ _, true) id a)).
Proof.
intros a. exact (proj1 (mounts_applied_in_key_order (λ _, true) id a)).
Defined.

(** The same arguments through the whole of lines 161-179, with the
    three mounts the host always adds. *)
Example mounts_example :
  let a := {| Host.base_mounts := false; Host.mount_ro := [];
              Host.mount_write := [];
              Host.translate := [("/a", "/x"); ("/a/b", "/y"); ("/", "/z")];
              Host.translate_write := [] |} in
  target <$> Host.cfg_mount (Host.mounts (λ _, true) id a)
  = ["/"; "/a"; "/a/b"; "/sys"; "/tmp"; "/proc"].
Proof. by vm_compute. Qed.

(** ** The timeout escalation of the host *)

(** C4. With a positive timeout the host goes through the stages in
    this order and stops at the first wait that sees the guest gone:
    the wait for the timeout; the soft token and a wait of 5 seconds;
    the hard token and a wait of 5 seconds; SIGKILL to the process group
    and a last wait.  What it does is always a prefix of the full
    sequence, cut after a wait. *)
Theorem timeout_escalation_order (timeout : Z) (g : list (option Z)) :
  0 < timeout →
  let a (i : nat) := default None (g !! i) in
  Host.log (Host.supervise timeout (Host.start g))
  = if negb (outlives timeout (a 0%nat)) then take 1 (escalation timeout)
    else if negb (outlives 5 (a 1%nat)) then take 3 (escalation timeout)
    else if negb (outlives 5 (a 2%nat)) then take 5 (escalation timeout)
    else escalation timeout.
Proof.
intros Ht a. subst a. unfold Host.supervise, Host.start.
destruct (timeout =? 0) eqn:E0; [lia|].
assert (Hp : (0 <? timeout) = true) by lia.
unfold Host.write_ctl, Host.wait_timeout, Host.wait_forever, Host.note,
  escalation, outlives.
rewrite Hp. cbn [Host.guest Host.clock Host.log Host.returncode].
destruct g as [|[d0|] [|[d1|] [|[d2|] [|[d3|] g]]]]; cbn -[Z.add Z.leb];
  repeat match goal with
         | |- context [?d <=? ?t] => destruct (d <=? t) eqn:?; cbn -[Z.add Z.leb]
         end;
  try reflexivity; repeat (f_equal; try lia).
Qed.

Lemma timeout_escalation_order_witness :
  Host.log (Host.supervise 1 (Host.start [None; None; None; Some 0]))
  = [ (0, Host.WaitFor (Some 1));
      (1, Host.WriteCtl Host.soft_token); (1, Host.WaitFor (Some 5));
      (6, Host.WriteCtl Host.hard_token); (6, Host.WaitFor (Some 5));
      (11, Host.Killpg Host.SIGKILL); (11, Host.WaitFor None) ].
Proof.
exact (timeout_escalation_order 1 [None; None; None; Some 0] ltac:(lia)).
Defined.

(** ** The run sequence and the timeout tokens *)

Section RunSequence.

Variable sys : call → Z.
Variable sys_errno : call → Z.
Variable execv : string → list string → option Z.
Variable execvp : string → list string → option Z.
Variable config__unpack : list byte → option Config.
Variable uninit : nat → byte.
Variable cat_pipe : Z * Z.

Local Abbreviation handle_run' := (handle_run sys sys_errno execv execvp uninit cat_pipe).
Local Abbreviation run_all' := (run_all sys sys_errno execv execvp uninit cat_pipe).
Local Abbreviation run_phase :=
  (run_phase sys sys_errno execv execvp uninit cat_pipe).
Local Abbreviation all_complete :=
  (all_complete sys sys_errno execv execvp uninit cat_pipe).

Lemma execute_run_phase (cfg : Config) :
  execute sys sys_errno execv execvp uninit cat_pipe cfg
  = ((if bool_decide (random cfg ≠ []) then handle_random sys sys_errno (random cfg)
      else mret tt);;
     mapM (handle_tty_raw sys sys_errno) (tty_raw cfg);;
     mapM (handle_mount sys sys_errno) (mount cfg);;
     run_phase (run cfg)).
Proof. reflexivity. Qed.

Lemma run_all_complete (pre rest : list Run) (s s1 : state) :
  all_complete pre s s1 → run_all' (pre ++ rest) s = run_all' rest s1.
Proof.
revert s. induction pre as [|r pre IH]; intros s; simpl.
- by intros ->.
- intros (s' & Hr & Hc). rewrite bind_eq, Hr. by apply IH.
Qed.

(** C5. Once a run is reported as timed out the loop over the runs is
    left: whatever runs follow it in the configuration, the guest goes
    from the state in which that run returned straight to [sync] and the
    power-off. *)
Theorem timed_out_run_ends_sequence (pre post : list Run) (r : Run)
    (s s1 s2 : state) :
  all_complete pre s s1 →
  handle_run' r s1 = (Ok true, s2) →
  run_phase (pre ++ r :: post) s = (Halt, log PowerOff (log Sync s2))
  ∧ trace (log PowerOff (log Sync s2)) = trace s2 ++ [Sync; PowerOff].
Proof.
intros Hc Hr. split.
- unfold run_phase. rewrite bind_eq, (run_all_complete _ _ _ _ Hc).
  simpl. rewrite bind_eq, Hr. reflexivity.
- simpl. by rewrite <- app_assoc.
Qed.

(** The soft token, and any token that does not start with 'Y', makes
    the loop send SIGTERM to the command when it still runs. *)
Lemma soft_timeout_sends_sigterm (b : byte) (bs : list byte) (ts : list tick)
    (child cat : Z) (cat_running timed_out : bool) (s : state) :
  b ≠ "Y"%byte → sys (sys_kill child SIGTERM) ≠ -1 →
  wait_loop sys sys_errno uninit (CtlRead (b :: bs) :: ts) child cat
    true cat_running timed_out s
  = wait_loop sys sys_errno uninit ts child cat true cat_running true
      (log (Call (sys_kill child SIGTERM)) (set_ticks ts s)).
Proof.
intros Hb Hk. simpl. rewrite bind_eq. simpl.
rewrite bool_decide_eq_false_2 by congruence.
rewrite bind_eq, bind_eq, MUST_ok by done. reflexivity.
Qed.

End RunSequence.

Lemma timed_out_run_ends_sequence_witness :
  let handle := handle_run Sample.sys Sample.sys_errno Sample.execv Sample.execv
                  Sample.uninit Sample.cat_pipe in
  let r0 := Sample.run_of "/bin/true" [] [] in
  let r1 := Sample.run_of "/bin/sleep" ["100"] [] in
  let r2 := Sample.run_of "/bin/date" [] [] in
  let s := Sample.boot [] [Reaped 100; CtlRead Host.hard_token] [100; 101] in
  let s1 := (handle r0 s).2 in
  let s2 := (handle r1 s1).2 in
  run_phase Sample.sys Sample.sys_errno Sample.execv Sample.execv
    Sample.uninit Sample.cat_pipe ([r0] ++ r1 :: [r2]) s
  = (Halt, log PowerOff (log Sync s2))
  ∧ trace (log PowerOff (log Sync s2)) = trace s2 ++ [Sync; PowerOff].
Proof.
intros handle r0 r1 r2 s s1 s2.
apply (timed_out_run_ends_sequence Sample.sys Sample.sys_errno Sample.execv
         Sample.execv Sample.uninit Sample.cat_pipe [r0] [r2] r1 s s1 s2).
- exists s1. split; by vm_compute.
- by vm_compute.
Defined.

(** What the guest does in that scenario, from the first run on: the
    third run is never started. *)
Example timed_out_run_trace :
  let s := Sample.boot [] [Reaped 100; CtlRead Host.hard_token] [100; 101] in
  trace (run_phase Sample.sys Sample.sys_errno Sample.execv Sample.execv
           Sample.uninit Sample.cat_pipe
           [Sample.run_of "/bin/true" []  [];
            Sample.run_of "/bin/sleep" ["100"] [];
            Sample.run_of "/bin/date" [] []] s).2
  = [Call (sys_sigprocmask true); Fork 100; Call (sys_sigprocmask false);
     Call (sys_sigprocmask true); Fork 101; Call (sys_sigprocmask false);
     Sync; PowerOff].
Proof. by vm_compute. Qed.

(** C6, as the claim has it, fails: the command (pid 100) is running
    when the hard token arrives, and the run engine returns without any
    [kill]. *)
Lemma hard_timeout_sends_no_kill :
  let s := Sample.boot [] [CtlRead Host.hard_token] [100] in
  let out := handle_run Sample.sys Sample.sys_errno Sample.execv Sample.execv
               Sample.uninit Sample.cat_pipe
               (Sample.run_of "/bin/sleep" ["100"] []) s in
  out.1 = Ok true
  ∧ trace out.2 = [Call (sys_sigprocmask true); Fork 100;
                   Call (sys_sigprocmask false)]
  ∧ ¬ ∃ sig, Call (sys_kill 100 sig) ∈ trace out.2.
Proof.
intros s out.
assert (Ht : trace out.2 = [Call (sys_sigprocmask true); Fork 100;
                            Call (sys_sigprocmask false)]) by (by vm_compute).
split; [by vm_compute|]. split; [exact Ht|].
rewrite Ht. intros [sig H]. rewrite !elem_of_cons, elem_of_nil in H.
by destruct H as [?|[?|[?|[]]]].
Qed.

(** ** Resource limits *)

Lemma never_returns_bind_l {A B} (m : M A) (k : A → M B) :
  never_returns m → never_returns (m ≫= k).
Proof.
intros Hm s r s'. rewrite bind_eq.
destruct (m s) as [[a| |] s1] eqn:E; [|by intros [= <- <-]..].
by destruct (Hm _ _ _ E a).
Qed.

Lemma never_returns_bind_r {A B} (m : M A) (k : A → M B) :
  (∀ a, never_returns (k a)) → never_returns (m ≫= k).
Proof.
intros Hk s r s'. rewrite bind_eq.
destruct (m s) as [[a| |] s1] eqn:E; [|by intros [= <- <-]..].
apply Hk.
Qed.

Lemma never_returns_fail {A} (msg : string) : never_returns (@fail A msg).
Proof. intros s r s'. rewrite fail_eq. by intros [= <- <-]. Qed.

Global Instance adds_no_exec_tracks : Tracks (adds no_exec) no_exec.
Proof.
split; [apply _|apply adds_lenient|apply adds_logs|].
by intros [].
Qed.

Section Limits.

Variable sys : call → Z.
Variable sys_errno : call → Z.
Variable execv : string → list string → option Z.
Variable uninit : nat → byte.
Variable cat_pipe : Z * Z.

Local Abbreviation child_before_limits :=
  (child_before_limits sys sys_errno cat_pipe).

Lemma unlisted_kind_rejected (r : Z) :
  ¬ listed_kind r →
  (r <? 0) || (n_resource_map <=? r) || negb (resource_entry r).1 = true.
Proof.
unfold listed_kind, n_resource_map. intros H.
change (Z.of_nat (length resource_map)) with 10.
destruct (r <? 0) eqn:E1; [done|].
destruct (10 <=? r) eqn:E2; [done|].
assert (r = 0) as -> by lia. reflexivity.
Qed.

Lemma listed_kind_accepted (r : Z) :
  listed_kind r →
  (r <? 0) || (n_resource_map <=? r) || negb (resource_entry r).1 = false.
Proof.
unfold listed_kind, n_resource_map. intros H.
assert (Hr : r = 1 ∨ r = 2 ∨ r = 3 ∨ r = 4 ∨ r = 5 ∨ r = 6 ∨ r = 7 ∨ r = 8 ∨ r = 9)
  by lia.
by destruct Hr as [->|[->|[->|[->|[->|[->|[->|[->| ->]]]]]]]].
Qed.

Lemma set_limits_no_exec (ls : list Limit) :
  steps (adds no_exec) (set_limits sys sys_errno ls).
Proof.
induction ls as [|l ls IH]; simpl; unfold MUST; steps_go; try reflexivity.
apply IH.
Qed.

Lemma set_limits_unlisted (ls : list Limit) :
  Exists (λ l, ¬ listed_kind (resource l)) ls →
  never_returns (set_limits sys sys_errno ls).
Proof.
induction ls as [|l ls IH]; intros H; [by apply Exists_nil in H|]. simpl.
destruct (decide (listed_kind (resource l))) as [Hl|Hl].
- apply Exists_cons in H as [H|H]; [done|].
  apply never_returns_bind_r. intros _.
  apply never_returns_bind_r. intros _. by apply IH.
- apply never_returns_bind_l. rewrite unlisted_kind_rejected by done.
  apply never_returns_bind_r. intros _. apply never_returns_fail.
Qed.

(** When the calls of [setrlimit] before it succeed, the unlisted kind
    is what the child dies of: "set_limits", EINVAL, exit status 1. *)
Lemma set_limits_first_unlisted (ok : list Limit) (l : Limit) (rest : list Limit)
    (s : state) :
  Forall (λ l, listed_kind (resource l)) ok →
  (∀ c, sys c ≠ -1) → ¬ listed_kind (resource l) →
  ∃ s', set_limits sys sys_errno (ok ++ l :: rest) s = (Halt, s')
        ∧ ∃ evs, trace s'
                 = trace s ++ evs ++ [Diag "set_limits" EINVAL;
                                      if in_init s then PowerOff else Exit 1]
                 ∧ length evs = length ok.
Proof.
intros Hok Hsys Hl. revert s.
induction Hok as [|l0 ok Hl0 _ IH]; intros s; simpl.
- rewrite bind_eq, unlisted_kind_rejected by done.
  rewrite bind_eq. unfold put at 1. rewrite fail_eq. simpl.
  eexists. split; [reflexivity|]. exists []. simpl.
  by rewrite <- !app_assoc.
- rewrite bind_eq, listed_kind_accepted by done.
  unfold mret at 1, M_ret at 1. rewrite bind_eq, MUST_ok by done.
  destruct (IH (log (Call (sys_setrlimit (resource_entry (resource l0)).2
                             (if 0 <=? soft l0 then soft l0 else RLIM_INFINITY)
                             (if 0 <=? hard l0 then hard l0 else RLIM_INFINITY)))
                  s)) as (s' & -> & evs & Ht & Hlen).
  eexists. split; [reflexivity|]. eexists (_ :: evs).
  rewrite Ht. simpl. rewrite <- !app_assoc. split; [done|]. by rewrite Hlen.
Qed.

Lemma child_branch_before_limits (run : Run) (uid gid cat : Z) :
  child_branch sys sys_errno execv cat_pipe run uid gid cat
  = child_before_limits run uid gid cat
      (set_limits sys sys_errno (limit run);;
       MUST sys sys_errno "malloc argv" 0
         (sys_malloc ((Z.of_nat (length (arg run)) + 3) * 8));;
       resolve_and_exec sys sys_errno execv run).
Proof. reflexivity. Qed.

Lemma child_before_limits_never_returns (run : Run) (uid gid cat : Z)
    (k : M unit) :
  never_returns k → never_returns (child_before_limits run uid gid cat k).
Proof.
intros Hk. unfold child_before_limits.
repeat (apply never_returns_bind_r; intros ?). exact Hk.
Qed.

Lemma child_before_limits_no_exec (run : Run) (uid gid cat : Z) (k : M unit) :
  steps (adds no_exec) k →
  steps (adds no_exec) (child_before_limits run uid gid cat k).
Proof.
intros Hk. unfold child_before_limits. steps_go; try reflexivity. exact Hk.
Qed.

Lemma never_returns_steps {A B} (R : relation state) (m : M A) (k : A → M B) :
  never_returns m → steps R m → steps R (m ≫= k).
Proof.
intros Hn Hs s r s'. rewrite bind_eq.
destruct (m s) as [[a| |] s1] eqn:E.
- by destruct (Hn _ _ _ E a).
- intros [= <- <-]. by apply (Hs _ _ _ E).
- intros [= <- <-]. by apply (Hs _ _ _ E).
Qed.

(** C8. A limit whose kind is not one of the nine listed ones (zero,
    negative, above nine) is fatal for the child: it never gets past
    [set_limits], so no [execv] takes place, and when the [setrlimit]
    calls before it succeed the child ends with "set_limits", EINVAL.
    Each listed kind has its resource in [resource_map], and for a
    listed kind [setrlimit] is called with RLIM_INFINITY in place of a
    negative soft or hard value. *)
Theorem unlisted_limit_is_fatal :
  (∀ run uid gid cat s r s',
     Exists (λ l, ¬ listed_kind (resource l)) (limit run) →
     child_branch sys sys_errno execv cat_pipe run uid gid cat s = (r, s') →
     (∀ a, r ≠ Ok a) ∧ adds no_exec s s')
  ∧ (∀ ok l rest s,
       Forall (λ l, listed_kind (resource l)) ok →
       (∀ c, sys c ≠ -1) → ¬ listed_kind (resource l) →
       ∃ s', set_limits sys sys_errno (ok ++ l :: rest) s = (Halt, s')
             ∧ ∃ evs, trace s'
                      = trace s ++ evs ++ [Diag "set_limits" EINVAL;
                                           if in_init s then PowerOff else Exit 1]
                      ∧ length evs = length ok)
  ∧ resource_entry <$> [LIMIT__RESOURCE__AS; LIMIT__RESOURCE__CORE;
                        LIMIT__RESOURCE__CPU; LIMIT__RESOURCE__DATA;
                        LIMIT__RESOURCE__FSIZE; LIMIT__RESOURCE__MEMLOCK;
                        LIMIT__RESOURCE__NOFILE; LIMIT__RESOURCE__NPROC;
                        LIMIT__RESOURCE__STACK]
    = [(true, RLIMIT_AS); (true, RLIMIT_CORE); (true, RLIMIT_CPU);
       (true, RLIMIT_DATA); (true, RLIMIT_FSIZE); (true, RLIMIT_MEMLOCK);
       (true, RLIMIT_NOFILE); (true, RLIMIT_NPROC); (true, RLIMIT_STACK)]
  ∧ (∀ l rest s,
       listed_kind (resource l) →
       set_limits sys sys_errno (l :: rest) s
       = (MUST sys sys_errno "setrlimit" (-1)
            (sys_setrlimit (resource_entry (resource l)).2
               (if soft l <? 0 then RLIM_INFINITY else soft l)
               (if hard l <? 0 then RLIM_INFINITY else hard l));;
          set_limits sys sys_errno rest) s).
Proof.
split; [|split; [|split]].
- intros run uid gid cat s r s' Hex. rewrite child_branch_before_limits.
  intros H. split.
  + revert s r s' H. apply child_before_limits_never_returns.
    apply never_returns_bind_l. by apply set_limits_unlisted.
  + revert s r s' H. apply child_before_limits_no_exec.
    apply never_returns_steps; [by apply set_limits_unlisted|].
    apply set_limits_no_exec.
- apply set_limits_first_unlisted.
- reflexivity.
- intros l rest s Hl. simpl. rewrite bind_eq, listed_kind_accepted by done.
  unfold mret at 1, M_ret at 1.
  destruct (Z.leb_spec 0 (soft l)), (Z.ltb_spec (soft l) 0); try lia;
    destruct (Z.leb_spec 0 (hard l)), (Z.ltb_spec (hard l) 0); try lia;
    reflexivity.
Qed.

End Limits.

Lemma unlisted_limit_is_fatal_witness :
  let run := Sample.run_of "/bin/true" []
               [{| resource := LIMIT__RESOURCE__UNKNOWN; soft := 1; hard := 1 |}] in
  let s := Sample.boot [] [] [] in
  let out := child_branch Sample.sys Sample.sys_errno Sample.execv
               Sample.cat_pipe run 0 0 (-1) s in
  Exists (λ l, ¬ listed_kind (resource l)) (limit run)
  ∧ out.1 ≠ Ok tt ∧ adds no_exec s out.2.
Proof.
intros run s out.
assert (H : Exists (λ l, ¬ listed_kind (resource l)) (limit run)).
{ apply Exists_cons_hd. unfold listed_kind, LIMIT__RESOURCE__UNKNOWN. simpl. lia. }
split; [exact H|].
destruct (proj1 (unlisted_limit_is_fatal Sample.sys Sample.sys_errno Sample.execv
                   Sample.cat_pipe) run 0 0 (-1) s out.1 out.2 H
            (surjective_pairing out)) as [Hr Ha].
split; [apply Hr|exact Ha].
Defined.

(** The trace of that child: the limit is refused after the chroot and
    before any [execv]. *)
Example unlisted_limit_trace :
  trace (child_branch Sample.sys Sample.sys_errno Sample.execv Sample.cat_pipe
           (Sample.run_of "/bin/true" []
              [{| resource := 12; soft := 1; hard := 1 |}])
           0 0 (-1) (Sample.boot [] [] [])).2
  = [Call (sys_open "/null" O_RDONLY); Call (sys_dup2 3 0); Close 3;
     Call (sys_open "/null" O_WRONLY); Call (sys_dup2 3 1); Close 3;
     Call (sys_dup2 1 2);
     Call (sys_chdir "/host"); Call (sys_chroot ".");
     Diag "set_limits" EINVAL; Exit 1].
Proof. by vm_compute. Qed.

(** ** Resolving the command along PATH *)

Lemma strchr_app (d rest : string) (c : ascii) :
  CStr.strchr d c = None →
  CStr.strchr (d +:+ String c rest) c = Some (d, rest).
Proof.
induction d as [|a d IH]; simpl.
- intros _. by rewrite Ascii.eqb_refl.
- destruct (Ascii.eqb a c); [done|].
  destruct (CStr.strchr d c) as [[??]|] eqn:E; [done|].
  intros _. change (String a d +:+ String c rest)
    with (String a (d +:+ String c rest)).
  simpl. destruct (Ascii.eqb a c) eqn:E2; [|by rewrite IH].
  by rewrite IH.
Qed.

Lemma join_colon_cons (d d' : string) (rest : list string) :
  join_colon (d :: d' :: rest) = d +:+ String ":" (join_colon (d' :: rest)).
Proof. reflexivity. Qed.

Lemma join_colon_nonempty (dirs : list string) :
  (∃ d, last dirs = Some d ∧ d ≠ "") → CStr.nonempty (join_colon dirs) = true.
Proof.
induction dirs as [|d [|d' rest] IH]; intros (x & Hl & Hx).
- done.
- injection Hl as ->. by destruct x.
- rewrite join_colon_cons. destruct d; [done|done].
Qed.

Lemma string_length_app (a b : string) :
  String.length (a +:+ b) = (String.length a + String.length b)%nat.
Proof. induction a as [|c a IH]; simpl; [done|]. by rewrite <- IH. Qed.

Lemma join_colon_length (dirs : list string) :
  (length dirs ≤ S (String.length (join_colon dirs)))%nat.
Proof.
induction dirs as [|d [|d' rest] IH]; [simpl; lia..|].
rewrite join_colon_cons, string_length_app.
cbn [length String.length] in *. lia.
Qed.

Section PathSearch.

Variable sys : call → Z.
Variable sys_errno : call → Z.
Variable execv : string → list string → option Z.

Local Abbreviation path_search := (path_search execv).
Local Abbreviation failed := (failed execv).

Lemma path_search_cons (name : string) (args : list string) (d : string)
    (rest : list string) (e0 : Z) :
  path_search name args (d :: rest) e0
  = match execv (candidate name d) (name :: args) with
    | None => ([Execv (candidate name d) (name :: args)], None)
    | Some e =>
        if e =? ENOEXEC then
          ([Execv (candidate name d) (name :: args);
            Execv DEFAULT_SHELL (DEFAULT_SHELL :: candidate name d :: args)],
           match execv DEFAULT_SHELL (DEFAULT_SHELL :: candidate name d :: args) with
           | None => None
           | Some e' => Some (if e0 =? EACCES then e0 else e')
           end)
        else
          (Execv (candidate name d) (name :: args)
             :: (path_search name args rest (if e0 =? EACCES then e0 else e)).1,
           (path_search name args rest (if e0 =? EACCES then e0 else e)).2)
    end.
Proof.
simpl. destruct (execv _ _) as [e|]; [|done].
destruct (e =? ENOEXEC); [done|]. by destruct (path_search _ _ _ _).
Qed.

Lemma exec_loop_path_search (name : string) (args : list string)
    (dirs : list string) :
  Forall colon_free dirs → (∃ d, last dirs = Some d ∧ d ≠ "") →
  ∀ fuel cmd0 e0 s, (length dirs ≤ fuel)%nat →
    ∃ s', exec_loop execv fuel name args (Some (join_colon dirs)) cmd0 e0 s
          = (match (path_search name args dirs e0).2 with
             | None => Halt
             | Some e => Ok e
             end, s')
          ∧ trace s' = trace s ++ (path_search name args dirs e0).1.
Proof.
intros Hc Hl. induction dirs as [|d [|d' rest] IH].
- by destruct Hl as (? & ? & ?).
- intros [|fuel] cmd0 e0 s Hf; [simpl in Hf; lia|].
  apply Forall_cons in Hc as [Hd _]. simpl. rewrite Hd.
  fold (candidate name d). rewrite bind_eq. simpl.
  destruct (execv (candidate name d) (name :: args)) as [e|]; simpl.
  + destruct (e =? ENOEXEC); simpl.
    * destruct (execv DEFAULT_SHELL _) as [e'|]; simpl;
        eexists; (split; [reflexivity|]); simpl; by rewrite <- app_assoc.
    * eexists; (split; [reflexivity|]); done.
  + eexists; (split; [reflexivity|]); done.
- intros [|fuel] cmd0 e0 s Hf; [simpl in Hf; lia|].
  apply Forall_cons in Hc as [Hd Hc].
  assert (Hl' : ∃ x, last (d' :: rest) = Some x ∧ x ≠ "")
    by (destruct Hl as (x & Hx & ?); by exists x).
  specialize (IH Hc Hl').
  assert (Hf' : (length (d' :: rest) ≤ fuel)%nat)
    by (cbn [length] in *; lia).
  rewrite join_colon_cons.
  cbn [exec_loop]. rewrite (strchr_app d _ ":" Hd).
  fold (candidate name d). rewrite bind_eq. cbn [emit].
  rewrite path_search_cons.
  destruct (execv (candidate name d) (name :: args)) as [e|].
  + rewrite bind_eq. cbn [put].
    destruct (e =? ENOEXEC).
    * rewrite bind_eq. cbn [emit].
      destruct (execv DEFAULT_SHELL _) as [e'|]; simpl;
        eexists; (split; [reflexivity|]); simpl; by rewrite <- app_assoc.
    * rewrite (join_colon_nonempty _ Hl').
      destruct (IH fuel (candidate name d)
                  (if e0 =? EACCES then e0 else e)
                  (set_errno e (log (Execv (candidate name d) (name :: args)) s))
                  Hf') as (s' & -> & Ht).
      eexists. split; [reflexivity|]. rewrite Ht. cbn [fst trace set_errno log].
      by rewrite <- app_assoc.
  + eexists. split; [reflexivity|]. done.
Qed.

Lemma path_search_failed (name : string) (args : list string)
    (pre rest : list string) (e0 : Z) :
  Forall (failed name args) pre →
  ∃ e1, path_search name args (pre ++ rest) e0
        = (((λ d, Execv (candidate name d) (name :: args)) <$> pre)
             ++ (path_search name args rest e1).1,
           (path_search name args rest e1).2).
Proof.
intros H. revert e0. induction H as [|d pre (e & He & Hne) _ IH]; intros e0.
- exists e0. cbn [app fmap list_fmap]. by destruct (path_search name args rest e0).
- rewrite <- app_comm_cons, path_search_cons, He.
  destruct (e =? ENOEXEC) eqn:E; [lia|].
  destruct (IH (if e0 =? EACCES then e0 else e)) as (e1 & ->).
  by exists e1.
Qed.

Lemma resolve_and_exec_search (run : Run) (dirs : list string) (s : state) :
  CStr.strchr (cmd run) "/" = None →
  default DEFAULT_PATH (environ s !! "PATH") = join_colon dirs →
  Forall colon_free dirs → (∃ d, last dirs = Some d ∧ d ≠ "") →
  sys (sys_malloc (Z.of_nat (String.length (join_colon dirs))
                   + Z.of_nat (String.length (cmd run)) + 2)) ≠ 0 →
  ∃ s', resolve_and_exec sys sys_errno execv run s = (Halt, s')
        ∧ trace s'
          = trace s
            ++ [Call (sys_malloc (Z.of_nat (String.length (join_colon dirs))
                                  + Z.of_nat (String.length (cmd run)) + 2))]
            ++ (path_search (cmd run) (arg run) dirs 0).1
            ++ match (path_search (cmd run) (arg run) dirs 0).2 with
               | None => []
               | Some e => [Report (cmd run) e; Exit 1]
               end.
Proof.
intros Hs Hp Hc Hl Hm. unfold resolve_and_exec.
rewrite Hs. rewrite bool_decide_eq_false_2 by (by intros [? ?]).
rewrite bind_eq. rewrite bind_eq. unfold getenv at 1.
rewrite bind_eq. unfold get at 1. unfold mret at 1, M_ret at 1. rewrite Hp.
rewrite bind_eq, MUST_ok by done.
unfold mret at 1, M_ret at 1. cbn [default]. unfold id. rewrite bind_eq.
destruct (exec_loop_path_search (cmd run) (arg run) dirs Hc Hl
            (S (String.length (join_colon dirs))) (cmd run) 0
            (log (Call (sys_malloc (Z.of_nat (String.length (join_colon dirs))
                                    + Z.of_nat (String.length (cmd run)) + 2))) s)
            (join_colon_length dirs)) as (s' & -> & Ht).
destruct (path_search (cmd run) (arg run) dirs 0) as [evs [e|]]; cbn [fst snd] in *.
- eexists. split; [reflexivity|]. simpl. rewrite Ht. simpl.
  by rewrite <- !app_assoc.
- eexists. split; [reflexivity|]. rewrite Ht. simpl.
  by rewrite app_nil_r, <- !app_assoc.
Qed.


End PathSearch.


(** The same search, computed: "/bin/prog", then "/usr/bin/prog", then
    the shell with that path; the search stops there. *)
Example path_search_example :
  trace (resolve_and_exec Sample.sys Sample.sys_errno Sample.execv_script
           (Sample.run_of "prog" ["-v"] [])
           (set_environ (<["PATH" := "/bin:/usr/bin:/opt/bin"]> ∅)
              (Sample.boot [] [] []))).2
  = [Call (sys_malloc 28);
     Execv "/bin/prog" ["prog"; "-v"];
     Execv "/usr/bin/prog" ["prog"; "-v"];
     Execv "/bin/bash" ["/bin/bash"; "/usr/bin/prog"; "-v"]].
Proof. by vm_compute. Qed.

(** An empty entry at the end of PATH is not tried, and an empty entry
    elsewhere stands for the root directory. *)
Example path_search_empty_entries :
  trace (resolve_and_exec Sample.sys Sample.sys_errno Sample.execv
           (Sample.run_of "prog" [] [])
           (set_environ (<["PATH" := "/bin::/sbin:"]> ∅) (Sample.boot [] [] []))).2
  = [Call (sys_malloc 18);
     Execv "/bin/prog" ["prog"]; Execv "/prog" ["prog"];
     Execv "/sbin/prog" ["prog"];
     Report "prog" ENOENT; Exit 1].
Proof. by vm_compute. Qed.

(** ** Where a mount lands *)

Lemma mount_point_rel (m : Mount) : mount_point m = "/host/" +:+ rel_target m.
Proof.
unfold mount_point, rel_target. destruct (target m) as [|a t]; [done|].
simpl. case_decide as H.
- injection H as ->. reflexivity.
- destruct a as [[] [] [] [] [] [] [] []]; try reflexivity. by destruct H.
Qed.

Lemma split_slash_rel (m : Mount) :
  split_slash (mount_point m) = "" :: "host" :: split_slash (rel_target m).
Proof.
rewrite mount_point_rel. change ("/host/" +:+ rel_target m)
  with (String "/" (String "h" (String "o" (String "s" (String "t"
          (String "/" (rel_target m))))))).
cbn [split_slash Ascii.eqb Bool.eqb]. by destruct (split_slash (rel_target m)).
Qed.

Lemma split_slash_nonempty (s : string) : split_slash s ≠ [].
Proof.
destruct s as [|a s]; simpl; [done|].
destruct (Ascii.eqb a "/"); [done|]. by destruct (split_slash s).
Qed.

Lemma split_slash_target (m : Mount) :
  ∀ p, p ∈ split_slash (rel_target m) → p ∈ split_slash (target m).
Proof.
unfold rel_target. destruct (target m) as [|a t]; [done|].
destruct a as [[] [] [] [] [] [] [] []]; try done.
intros p Hp. cbn [split_slash Ascii.eqb Bool.eqb]. by right.
Qed.

Lemma foldl_enter_no_up (parts up : list string) :
  ".." ∉ parts → ∃ more, foldl enter up parts = more ++ up.
Proof.
revert up. induction parts as [|p parts IH]; intros up Hn; simpl.
- by exists [].
- apply not_elem_of_cons in Hn as [Hp Hn]. unfold enter at 2.
  rewrite bool_decide_eq_false_2 by done.
  case_bool_decide.
  + by apply IH.
  + destruct (IH (p :: up) Hn) as (more & ->). exists (more ++ [p]).
    by rewrite <- app_assoc.
Qed.




(** What [handle_mount] does for that target: [mkdirs] goes down to
    host, up again and into etc, and the mount is made there. *)
Example mount_escape_trace :
  trace (handle_mount Sample.sys Sample.sys_errno
           (Host.host_mount "/../etc" "/srv" false) (Sample.boot [] [] [])).2
  = [Call (sys_chdir "/");
     Mkdir "host"; Call (sys_chdir "host");
     Mkdir ".."; Call (sys_chdir "..");
     Mkdir "etc"; Call (sys_chdir "etc");
     Call (sys_chdir "/");
     Call (sys_mount "none" "/host/../etc" "hostfs" false true (Some "/srv/"))].
Proof. by vm_compute. Qed.

(** ** The loops over strings end within their fuel *)

Lemma strchr_length (s pre post : string) (c : ascii) :
  CStr.strchr s c = Some (pre, post) →
  String.length s = S (String.length pre + String.length post).
Proof.
revert pre. induction s as [|a s IH]; intros pre; simpl; [done|].
destruct (Ascii.eqb a c).
- by intros [= <- <-].
- destruct (CStr.strchr s c) as [[pre' post']|]; [|done].
  intros [= <- <-]. simpl. by rewrite (IH pre').
Qed.

Lemma split_slash_strchr (s : string) :
  split_slash s = match CStr.strchr s "/" with
                  | Some (pre, post) => pre :: split_slash post
                  | None => [s]
                  end.
Proof.
induction s as [|a s IH]; simpl; [done|].
destruct (Ascii.eqb a "/"); [done|]. rewrite IH.
by destruct (CStr.strchr s "/") as [[pre post]|].
Qed.

Section Loops.

Variable sys : call → Z.
Variable sys_errno : call → Z.
Variable execv : string → list string → option Z.

Local Abbreviation visit := (visit sys sys_errno).
Local Abbreviation visit_all := (visit_all sys sys_errno).

(** [mkdirs] creates and enters the parts of the path in order; the
    fuel it is given is enough for that. *)
Lemma mkdirs_loop_parts (fuel : nat) : ∀ tail s,
  (String.length tail < fuel)%nat →
  mkdirs_loop sys sys_errno fuel tail s = visit_all (split_slash tail) s.
Proof.
induction fuel as [|fuel IH]; intros tail s Hf; [lia|].
cbn [mkdirs_loop]. rewrite split_slash_strchr.
destruct (CStr.strchr tail "/") as [[pre post]|] eqn:E.
- cbn [visit_all]. rewrite !bind_eq. fold (visit pre).
  destruct (visit pre s) as [[[]| |] s1]; [|done..].
  apply IH. apply strchr_length in E. lia.
- cbn [visit_all]. rewrite !bind_eq. fold (visit tail).
  by destruct (visit tail s) as [[[]| |] s1].
Qed.

Lemma mkdirs_parts (dir : string) (s : state) :
  mkdirs sys sys_errno dir s
  = (MUST sys sys_errno "chdir /" (-1) (sys_chdir "/");;
     visit_all (split_slash dir);;
     MUST sys sys_errno "chdir /" (-1) (sys_chdir "/");;
     mret tt) s.
Proof.
unfold mkdirs. rewrite !(bind_eq (MUST _ _ _ _ _)).
destruct (MUST sys sys_errno "chdir /" (-1) (sys_chdir "/") s) as [[z| |] s1];
  [|done..].
rewrite !(bind_eq _ _ s1), mkdirs_loop_parts by lia. reflexivity.
Qed.

(** More fuel does not change the search along PATH. *)
Lemma exec_loop_fuel (name : string) (args : list string) (n : nat) :
  ∀ fuel path cmd0 e0 s,
    (String.length (default "" path) < n)%nat →
    (String.length (default "" path) < fuel)%nat →
    exec_loop execv fuel name args path cmd0 e0 s
    = exec_loop execv n name args path cmd0 e0 s.
Proof.
induction n as [|n IH]; intros fuel path cmd0 e0 s Hn Hf; [lia|].
destruct fuel as [|fuel]; [lia|]. cbn [exec_loop].
destruct path as [p|]; [|reflexivity].
destruct (CStr.strchr p ":") as [[dir rest]|] eqn:E.
- rewrite !bind_eq. cbn [emit].
  destruct (execv _ _) as [e|]; [|reflexivity].
  rewrite !bind_eq. cbn [put].
  destruct (e =? ENOEXEC); [reflexivity|].
  destruct (CStr.nonempty rest); [|reflexivity].
  apply strchr_length in E. cbn [default] in *. unfold id in *.
  apply IH; cbn [default]; unfold id; lia.
- rewrite !bind_eq. cbn [emit].
  destruct (execv _ _) as [e|]; [|reflexivity].
  rewrite !bind_eq. cbn [put].
  destruct (e =? ENOEXEC); reflexivity.
Qed.

End Loops.

(** ** The only signal the guest sends is SIGTERM *)

Global Instance adds_gentle_tracks : Tracks (adds gentle) gentle.
Proof.
split; [apply _|apply adds_lenient|apply adds_logs|].
by intros [].
Qed.

Section Gentle.

Variable sys : call → Z.
Variable sys_errno : call → Z.
Variable execv : string → list string → option Z.
Variable execvp : string → list string → option Z.
Variable config__unpack : list byte → option Config.
Variable uninit : nat → byte.
Variable cat_pipe : Z * Z.

Lemma main_gentle :
  steps (adds gentle)
    (main sys sys_errno execv execvp config__unpack uninit cat_pipe).
Proof.
assert (HP : ∀ e, gentle e → no_mount e → gentle e) by auto.
unfold main, execute, handle_mount, mkdirs. steps_go; try done;
  first [eapply bootstrap_adds | eapply load_config_adds
        | eapply handle_random_adds | eapply handle_tty_raw_adds
        | eapply mkdirs_loop_adds | eapply run_all_adds];
  first [typeclasses eauto | exact HP].
Qed.

(** C6, as the code has it.  On a token that starts with 'Y' the wait
    loop is left at once with [timed_out] set and nothing is added to
    the trace: no signal is sent, to the command or to [cat].  The only
    signal the guest ever sends is SIGTERM.  The run being reported as
    timed out, the guest goes on to [sync] and the power-off, which is
    what ends the processes that still run. *)
Theorem hard_timeout_leaves_wait_loop :
  (∀ bs ts child cat child_running cat_running timed_out s,
     wait_loop sys sys_errno uninit (CtlRead ("Y"%byte :: bs) :: ts) child cat
       child_running cat_running timed_out s
     = (Ok true, set_ticks ts s)
     ∧ trace (set_ticks ts s) = trace s)
  ∧ (∀ s r s',
       main sys sys_errno execv execvp config__unpack uninit cat_pipe s = (r, s') →
       adds gentle s s')
  ∧ (∀ run post s s2,
       handle_run sys sys_errno execv execvp uninit cat_pipe run s = (Ok true, s2) →
       run_phase sys sys_errno execv execvp uninit cat_pipe (run :: post) s
       = (Halt, log PowerOff (log Sync s2))).
Proof.
split; [|split].
- intros. split; reflexivity.
- apply main_gentle.
- intros run post s s2 Hr. unfold run_phase. simpl.
  rewrite !bind_eq, Hr. reflexivity.
Qed.

End Gentle.

Lemma hard_timeout_leaves_wait_loop_witness :
  let s := Sample.boot [] [CtlRead Host.hard_token] [100] in
  let run := Sample.run_of "/bin/sleep" ["100"] [] in
  let s2 := (handle_run Sample.sys Sample.sys_errno Sample.execv Sample.execv
               Sample.uninit Sample.cat_pipe run s).2 in
  run_phase Sample.sys Sample.sys_errno Sample.execv Sample.execv Sample.uninit
    Sample.cat_pipe [run; Sample.run_of "/bin/date" [] []] s
  = (Halt, log PowerOff (log Sync s2)).
Proof.
intros s run s2.
apply (proj2 (proj2 (hard_timeout_leaves_wait_loop Sample.sys Sample.sys_errno
                       Sample.execv Sample.execv (λ _, None) Sample.uninit
                       Sample.cat_pipe))).
by vm_compute.
Defined.

(** ** A truncated image *)

(** The header declares 16 bytes of payload and the device ends after
    4 of them.  [readall] reports the 16 bytes as read, so the error is
    not "read config" with EPIPE: the decoder is given the 4 bytes and
    12 bytes of memory that was never written, and it is the decoder
    that refuses them. *)
Example truncated_image_not_detected :
  let image := Word.le32 MAGIC ++ Word.le32 16 ++ [x0a; x02; x2f; x61] in
  trace (load_config Sample.sys Sample.sys_errno Sample.unpack Sample.uninit
           (Sample.boot image [] [])).2
  = [Call (sys_open "/ubda" O_RDONLY); Call (sys_malloc 16);
     Diag "bad config" EINVAL; PowerOff].
Proof. by vm_compute. Qed.

(** * Further properties of the code *)

(** ** [readall]: what it returns and what it leaves alone *)

Lemma sub_zero (count : Z) : 0 <= count < 2 ^ 64 → Word.sub count 0 = count.
Proof.
intros H. unfold Word.sub, Word.wrap, Word.size_mod, Word.size_bits.
rewrite Z.sub_0_r. by apply Z.mod_small.
Qed.

Lemma readall_not_positive (f : file) (buf : list byte) (count : Z) :
  0 < count < 2 ^ 64 → rr_ret (read f count) <= 0 →
  readall f buf count
  = Returned (-1)
      (if rr_ret (read f count) <? 0 then rr_errno (read f count) else Some EPIPE)
      buf (rr_file (read f count)).
Proof.
intros Hc Hr. unfold readall. cbn [readall_loop].
rewrite sub_zero by lia.
destruct (0 <? count) eqn:E0; [|lia].
destruct (rr_ret (read f count) <? 0) eqn:E1; [done|].
destruct (rr_ret (read f count) =? 0) eqn:E2; [done|lia].
Qed.

(** X1. [readall] never stores outside the buffer it is given, and it
    hands the buffer back with the length it had: the call returns -1
    or the count. *)
Theorem readall_stays_in_buffer (f : file) (buf : list byte) (count : Z) :
  0 <= count < 2 ^ 63 → count <= Z.of_nat (length buf) →
  ∃ ret e buf' f',
    readall f buf count = Returned ret e buf' f'
    ∧ length buf' = length buf ∧ (ret = -1 ∨ ret = count).
Proof.
intros Hc Hb.
destruct (decide (count = 0)) as [->|Hz].
{ rewrite readall_zero. eexists _, _, _, _. split; [done|]. auto. }
destruct (decide (0 < rr_ret (read f count))) as [Hr|Hr].
- rewrite readall_single by (done || lia).
  eexists _, _, _, _. split; [done|]. split; [|by right].
  pose proof (read_ret_le f count ltac:(lia)) as Hle.
  pose proof (read_ret_length f count ltac:(lia)) as Hlen.
  rewrite length_app, length_drop. lia.
- rewrite readall_not_positive by lia.
  eexists _, _, _, _. split; [done|]. auto.
Qed.

Lemma readall_stays_in_buffer_witness :
  ∃ ret e buf' f',
    readall (plain_file [x01; x02; x03]) (replicate 8 xff) 8
    = Returned ret e buf' f'
    ∧ length buf' = length (replicate 8 xff) ∧ (ret = -1 ∨ ret = 8).
Proof.
apply (readall_stays_in_buffer (plain_file [x01; x02; x03]) (replicate 8 xff) 8).
- lia.
- simpl. lia.
Defined.

Lemma readall_empty (buf : list byte) (count : Z) :
  0 < count < 2 ^ 64 →
  readall (plain_file []) buf count = Returned (-1) (Some EPIPE) buf (plain_file []).
Proof.
intros Hc.
assert (Hr : read (plain_file []) count = ReadResult 0 [] None (plain_file [])).
{ unfold read, deliver, plain_file. simpl. by rewrite take_nil, drop_nil. }
rewrite readall_not_positive by (rewrite ?Hr; simpl; lia). by rewrite Hr.
Qed.

(** X2. At the end of the file [readall] returns -1 with EPIPE, and when
    [read] fails it returns -1 with the error of [read]; in both cases
    the buffer is untouched. *)
Theorem readall_end_of_file (buf : list byte) (count : Z) :
  0 < count < 2 ^ 64 →
  readall (plain_file []) buf count = Returned (-1) (Some EPIPE) buf (plain_file [])
  ∧ ∀ data e sched,
      readall (File data (Error e :: sched)) buf count
      = Returned (-1) (Some e) buf (File data sched).
Proof.
intros Hc. split; [by apply readall_empty|intros data e sched].
by rewrite readall_not_positive by (simpl; lia).
Qed.

Lemma readall_end_of_file_witness :
  readall (plain_file []) (replicate 8 xff) 8
  = Returned (-1) (Some EPIPE) (replicate 8 xff) (plain_file []).
Proof.
apply (proj1 (readall_end_of_file (replicate 8 xff) 8 ltac:(lia))).
Defined.

(** ** The size of the block image *)

(** X3. The image is as short as a whole number of 512-byte blocks can be
    for the header and the payload, and there is no image exactly when
    the length of the payload does not fit the 32-bit word of the
    header. *)
Theorem block_image_size (payload : list byte) :
  (Host.block_image payload = None ↔ 2 ^ 32 <= Z.of_nat (length payload))
  ∧ ∀ image, Host.block_image payload = Some image →
      Z.of_nat (length image) = blocks (8 + Z.of_nat (length payload)).
Proof.
split.
- unfold Host.block_image, Host.pack_LL, MAGIC.
  destruct (Z.ltb_spec (Z.of_nat (length payload)) (2 ^ 32)) as [H|H].
  + replace (0 <=? Z.of_nat (length payload)) with true by lia.
    simpl. split; [done|lia].
  + rewrite !andb_false_r. simpl. split; [lia|done].
- intros image. unfold Host.block_image.
  destruct (Host.pack_LL MAGIC _) as [hdr|] eqn:Ep; [|done].
  apply pack_LL_Some in Ep as [Eh _]. cbn [mbind option_bind].
  assert (Hl : Z.of_nat (length (hdr ++ payload)) = 8 + Z.of_nat (length payload)).
  { rewrite Eh, !length_app, !WordFacts.length_le32. lia. }
  generalize dependent (hdr ++ payload). intros cfg Hl H.
  apply (inj Some) in H. subst image. unfold blocks. rewrite Hl.
  set (m := 8 + Z.of_nat (length payload)) in *.
  pose proof (Z.mod_pos_bound m 512 ltac:(lia)) as Hb.
  pose proof (Z.div_mod m 512 ltac:(lia)) as Hd.
  destruct (Z.eqb_spec (m mod 512) 0) as [E|E]; cbn [negb].
  + assert ((m + 511) / 512 = m / 512) as ->; [|lia].
    symmetry. apply (Z.div_unique _ _ _ 511); lia.
  + rewrite length_app, length_replicate, Nat2Z.inj_add, Hl.
    rewrite Z2Nat.id by lia.
    assert ((m + 511) / 512 = m / 512 + 1) as ->; [|lia].
    symmetry. apply (Z.div_unique _ _ _ (m mod 512 - 1)); lia.
Qed.

Lemma block_image_size_witness :
  Z.of_nat (length (default [] (Host.block_image [x0a; x01; x2f])))
  = blocks (8 + Z.of_nat (length [x0a; x01; x2f])).
Proof.
apply (proj2 (block_image_size [x0a; x01; x2f])).
reflexivity.
Defined.

(** ** What the dictionary of the mounts holds *)

Lemma ends_with_snoc (c : ascii) (s : string) :
  Host.ends_with c (s +:+ String c "") = true.
Proof.
induction s as [|a s IH]; simpl.
- apply Ascii.eqb_refl.
- destruct (s +:+ String c "") eqn:E; [by destruct s|done].
Qed.

Lemma host_mount_share (t h : string) (ro : bool) :
  host_share (Host.host_mount t h ro).
Proof.
unfold host_share, Host.host_mount. simpl. repeat split.
destruct (Host.ends_with "/" h) eqn:E; [done|apply ends_with_snoc].
Qed.

(** Looking a key up after a run of assignments [d[f x] = g x]: the
    last assignment to the key decides. *)
Lemma foldl_insert_lookup {A} (f : A → string) (g : A → Mount) (l : list A)
    (d : gmap string Mount) (k : string) :
  foldl (λ acc x, <[f x := g x]> acc) d l !! k
  = match last (filter (λ x, f x = k) l) with
    | Some x => Some (g x)
    | None => d !! k
    end.
Proof.
revert d. induction l as [|x l IH]; intros d; [done|].
cbn [foldl]. rewrite IH, filter_cons.
destruct (decide (f x = k)) as [<-|Hk].
- rewrite last_cons. destruct (last (filter _ l)); [done|].
  by rewrite lookup_insert_eq.
- destruct (last (filter _ l)); [done|]. by rewrite lookup_insert_ne.
Qed.

Lemma foldl_insert_if {A} (c : A → bool) (f : A → string) (g : A → Mount)
    (l : list A) (d : gmap string Mount) :
  foldl (λ acc x, if c x then <[f x := g x]> acc else acc) d l
  = foldl (λ acc x, <[f x := g x]> acc) d (filter (λ x, c x = true) l).
Proof.
revert d. induction l as [|x l IH]; intros d; [done|].
cbn [foldl]. rewrite filter_cons, IH.
destruct (c x); [by rewrite decide_True|by rewrite decide_False].
Qed.

Lemma last_filter_key {A} (f : A → string) (l : list A) (k : string) :
  match last (filter (λ x, f x = k) l) with
  | Some x => f x = k
  | None => k ∉ f <$> l
  end.
Proof.
induction l as [|x l IH]; [apply not_elem_of_nil|].
rewrite filter_cons. destruct (decide (f x = k)) as [Hx|Hx].
- rewrite last_cons. by destruct (last (filter _ l)).
- destruct (last (filter _ l)); [done|].
  rewrite fmap_cons. by apply not_elem_of_cons.
Qed.

Section MountsFacts.

Variable isdir : string → bool.
Variable abspath : string → string.

Lemma mounts_lookup_eq (a : Host.mount_args) (k : string) :
  Host.mounts isdir abspath a !! k = mounts_lookup isdir abspath a k.
Proof.
unfold Host.mounts, mounts_lookup, last_for. cbv zeta.
rewrite (foldl_insert_lookup fst (λ gh, Host.host_mount gh.1 gh.2 false)).
pose proof (last_filter_key fst (Host.translate_write a) k) as H1.
destruct (last (filter _ (Host.translate_write a))) as [[g h]|]; simpl in *.
{ by subst g. }
rewrite (foldl_insert_lookup fst (λ gh, Host.host_mount gh.1 gh.2 true)).
pose proof (last_filter_key fst (Host.translate a) k) as H2.
destruct (last (filter _ (Host.translate a))) as [[g h]|]; simpl in *.
{ by subst g. }
rewrite (foldl_insert_lookup abspath
           (λ spec, Host.host_mount (abspath spec) (abspath spec) false)).
pose proof (last_filter_key abspath (Host.mount_write a) k) as H3.
destruct (last (filter _ (Host.mount_write a))) as [x|] eqn:E3.
{ rewrite bool_decide_eq_true_2; [by rewrite H3|].
  subst k. apply list_elem_of_fmap_2. apply last_Some_elem_of in E3.
  by apply list_elem_of_filter in E3 as [_ ?]. }
rewrite bool_decide_eq_false_2 by done.
rewrite (foldl_insert_lookup abspath
           (λ spec, Host.host_mount (abspath spec) (abspath spec) true)).
pose proof (last_filter_key abspath (Host.mount_ro a) k) as H4.
destruct (last (filter _ (Host.mount_ro a))) as [x|] eqn:E4.
{ rewrite bool_decide_eq_true_2; [by rewrite H4|].
  subst k. apply list_elem_of_fmap_2. apply last_Some_elem_of in E4.
  by apply list_elem_of_filter in E4 as [_ ?]. }
rewrite bool_decide_eq_false_2 by done.
assert (Hb : ∀ d : gmap string Mount,
          d !! k = builtin_mount k →
          foldl (λ acc m, if isdir m then <[m := Host.host_mount m m true]> acc
                          else acc) d Host.base_dirs !! k
          = if bool_decide (k ∈ Host.base_dirs) && isdir k
            then Some (Host.host_mount k k true) else builtin_mount k).
{ intros d Hd.
  rewrite (foldl_insert_if isdir id (λ m, Host.host_mount m m true)).
  rewrite (foldl_insert_lookup id (λ m, Host.host_mount m m true)).
  pose proof (last_filter_key id (filter (λ x, isdir x = true) Host.base_dirs) k) as H5.
  destruct (last (filter _ (filter _ Host.base_dirs))) as [x|] eqn:E5.
  - unfold id in H5. subst x. apply last_Some_elem_of in E5.
    apply list_elem_of_filter in E5 as [_ E5].
    apply list_elem_of_filter in E5 as [E5 E6].
    by rewrite bool_decide_eq_true_2, E5.
  - rewrite list_fmap_id in H5. rewrite Hd.
    destruct (decide (k ∈ Host.base_dirs)) as [Hin|Hin].
    + rewrite bool_decide_eq_true_2 by done. simpl.
      destruct (isdir k) eqn:Ed; [|done].
      destruct H5. by apply list_elem_of_filter.
    + by rewrite bool_decide_eq_false_2. }
assert (H0 : (<["/sys" := Host.plain_mount "/sys" "sysfs" "sysfs"]>
               (<["/proc" := Host.plain_mount "/proc" "proc" "proc"]>
                 (<["/tmp" := Host.plain_mount "/tmp" "tmpfs" "tmpfs"]> ∅))
              : gmap string Mount) !! k = builtin_mount k).
{ unfold builtin_mount.
  destruct (decide (k = "/sys")) as [->|?]; [by rewrite lookup_insert_eq|].
  rewrite lookup_insert_ne by done.
  destruct (decide (k = "/proc")) as [->|?]; [by rewrite lookup_insert_eq|].
  rewrite lookup_insert_ne by done.
  destruct (decide (k = "/tmp")) as [->|?]; [by rewrite lookup_insert_eq|].
  rewrite lookup_insert_ne, lookup_empty by done.
  by rewrite !bool_decide_eq_false_2 by done. }
destruct (Host.base_mounts a); simpl.
- by apply Hb.
- done.
Qed.

(** X4. The dictionary of the mounts holds, under each guest path, what the
    strongest option naming that path says: [--translate-write] before
    [--translate] before [--mount-write] before [--mount] before the
    base directories that exist before the three mounts that are always
    there; within one option the last occurrence counts. *)
Theorem mounts_precedence (a : Host.mount_args) (k : string) :
  Host.mounts isdir abspath a !! k = mounts_lookup isdir abspath a k.
Proof. apply mounts_lookup_eq. Qed.

(** X5. /tmp, /proc and /sys are mounted in every configuration, and every
    other mount is a hostfs share of a host directory, mounted nosuid
    and with a path that ends in a slash. *)
Theorem mounts_builtin_or_share (a : Host.mount_args) :
  (∀ k, k ∈ ["/tmp"; "/proc"; "/sys"] →
        is_Some (Host.mounts isdir abspath a !! k))
  ∧ (∀ k m, Host.mounts isdir abspath a !! k = Some m →
            builtin_mount k = Some m ∨ host_share m).
Proof.
split.
- intros k Hk. rewrite mounts_lookup_eq. unfold mounts_lookup.
  repeat case_match; try by eexists.
  rewrite !elem_of_cons, elem_of_nil in Hk.
  by destruct Hk as [->|[->|[->|[]]]].
- intros k m. rewrite mounts_lookup_eq. unfold mounts_lookup.
  repeat case_match; try (intros [= <-]; right; apply host_mount_share).
  by left.
Qed.

End MountsFacts.

Lemma mounts_builtin_or_share_witness :
  let a := {| Host.base_mounts := true; Host.mount_ro := ["/srv"];
              Host.mount_write := []; Host.translate := [];
              Host.translate_write := [("/tmp", "/scratch")] |} in
  is_Some (Host.mounts (λ _, true) id a !! "/tmp")
  ∧ (builtin_mount "/tmp" = Some (Host.host_mount "/tmp" "/scratch" false)
     ∨ host_share (Host.host_mount "/tmp" "/scratch" false)).
Proof.
intros a. split.
- apply (proj1 (mounts_builtin_or_share (λ _, true) id a)).
  rewrite !elem_of_cons. by left.
- apply (proj2 (mounts_builtin_or_share (λ _, true) id a) "/tmp").
  by vm_compute.
Defined.

(** ** The order of the mounts, seen from the directories *)

Lemma prefix_length (p c : string) :
  String.prefix p c = true → (String.length p ≤ String.length c)%nat.
Proof.
revert c. induction p as [|a p IH]; intros [|b c]; simpl; try done; try lia.
destruct (Ascii.ascii_dec a b); [|done]. intros H. apply IH in H. lia.
Qed.

Lemma prefix_same_length (p c : string) :
  String.prefix p c = true → String.length p = String.length c → p = c.
Proof.
revert c. induction p as [|a p IH]; intros [|b c]; simpl; try done.
destruct (Ascii.ascii_dec a b) as [->|]; [|done].
intros H [= Hl]. f_equal. by apply IH.
Qed.

Lemma proper_prefix_shorter (p c : string) :
  proper_prefix p c → (String.length p < String.length c)%nat.
Proof.
intros [Hp Hne]. pose proof (prefix_length _ _ Hp) as Hl.
destruct (decide (String.length p = String.length c)) as [E|E]; [|lia].
by destruct Hne; apply prefix_same_length.
Qed.

Lemma StronglySorted_lookup_le {A} (R : relation A) (l : list A) (i j : nat)
    (x y : A) :
  StronglySorted R l → l !! i = Some x → l !! j = Some y → (i < j)%nat → R x y.
Proof.
intros Hs. revert i j. induction Hs as [|z l Hs IH Hz]; intros i j Hi Hj Hlt.
- done.
- destruct j as [|j]; [lia|]. destruct i as [|i]; simpl in *.
  + injection Hi as ->. rewrite Forall_forall in Hz. apply Hz.
    by eapply list_elem_of_lookup_2.
  + apply (IH i j); [done|done|lia].
Qed.



(** ** Nothing of the dictionary is lost *)

Lemma omap_lookup_keys (d : gmap string Mount) (l : list (string * Mount)) :
  (∀ k m, (k, m) ∈ l → d !! k = Some m) → omap (λ k, d !! k) l.*1 = l.*2.
Proof.
induction l as [|[k m] l IH]; intros H; [done|].
simpl. rewrite (H k m) by left. f_equal. apply IH.
intros k' m' Hin. apply H. by right.
Qed.

(** X7. The configuration has one mount for each entry of the dictionary,
    the one stored there: none is dropped and none is repeated. *)
Theorem cfg_mount_complete (d : gmap string Mount) :
  Host.cfg_mount d ≡ₚ (map_to_list d).*2.
Proof.
unfold Host.cfg_mount. rewrite sorted_keys_perm.
rewrite omap_lookup_keys; [done|].
intros k m. apply elem_of_map_to_list.
Qed.

(** ** The conduct of the two roles *)

Lemma readall_no_fault (f : file) (buf : list byte) (count : Z) :
  0 <= count < 2 ^ 63 → count <= Z.of_nat (length buf) →
  readall f buf count ≠ Fault.
Proof.
intros Hc Hb.
destruct (decide (count = 0)) as [->|Hz]; [by rewrite readall_zero|].
destruct (decide (0 < rr_ret (read f count))) as [Hr|Hr].
- by rewrite readall_single by (done || lia).
- by rewrite readall_not_positive by lia.
Qed.

Section Conduct.

Variable sys : call → Z.
Variable sys_errno : call → Z.
Variable execv : string → list string → option Z.
Variable execvp : string → list string → option Z.
Variable config__unpack : list byte → option Config.
Variable uninit : nat → byte.
Variable cat_pipe : Z * Z.

Variable Hi : event → Prop.
Variable Hc : event → Prop.
Hypothesis HHi : ∀ e, child_only e = false → Hi e.
Hypothesis HHc : ∀ e, init_only e = false → is_setid e = false → Hc e.

Local Abbreviation final := (final execv execvp).
Local Abbreviation grows := (grows Hi Hc).
Local Abbreviation conducts := (conducts execv execvp Hi Hc).
Local Abbreviation allowed := (allowed Hi Hc).

Lemma grows_refl (i : bool) (s s' : state) :
  trace s' = trace s → grows i s s'.
Proof. intros H. exists [], []. rewrite H, app_nil_r. by split_and!. Qed.

Lemma grows_log (i : bool) (e : event) (s : state) :
  in_init s = i → allowed i e → grows i s (log e s).
Proof.
intros Hs He. destruct i; simpl in He.
- exists [e], []. simpl. split; [done|]. split; [by constructor|]. done.
- exists [], [e]. simpl. split; [done|]. split; [done|].
  split; [by constructor|]. rewrite Hs. done.
Qed.

Lemma grows_trans (i : bool) (s s1 s2 : state) :
  in_init s1 = i → (i = false → in_init s2 = false) →
  grows i s s1 → grows i s1 s2 → grows i s s2.
Proof.
intros H1 H2 (a1 & a2 & Ha & Fa1 & Fa2 & Ia & Ja) (b1 & b2 & Hb & Fb1 & Fb2 & Ib & Jb).
destruct i.
- rewrite (Ja H1) in *. exists (a1 ++ b1), b2.
  rewrite Hb, Ha, app_nil_r, <- !app_assoc. split_and!; try done.
  by apply Forall_app.
- rewrite (Ia eq_refl), (Ib eq_refl) in *. exists [], (a2 ++ b2).
  rewrite Hb, Ha. simpl. rewrite <- app_assoc. split_and!; try done.
  + by apply Forall_app.
  + intros H3. by rewrite H2 in H3.
Qed.

Lemma conducts_ret {A} (i : bool) (a : A) : conducts i (mret a).
Proof.
intros s r s' Hs [= <- <-]. split_and!; auto; try done. by apply grows_refl.
Qed.

Lemma conducts_get {A} (i : bool) (proj : state → A) : conducts i (get proj).
Proof.
intros s r s' Hs [= <- <-]. split_and!; auto; try done. by apply grows_refl.
Qed.

Lemma conducts_put (i : bool) (upd : state → state) :
  (∀ s, in_init (upd s) = in_init s) → (∀ s, trace (upd s) = trace s) →
  conducts i (put upd).
Proof.
intros H1 H2 s r s' Hs [= <- <-]. rewrite H1.
split_and!; auto; try done. by apply grows_refl.
Qed.

Lemma conducts_emit (i : bool) (e : event) : allowed i e → conducts i (emit e).
Proof.
intros He s r s' Hs [= <- <-]. split_and!; auto; try done.
by apply grows_log.
Qed.

Lemma conducts_bind {A B} (i : bool) (m : M A) (k : A → M B) :
  conducts i m → (∀ a, conducts i (k a)) → conducts i (m ≫= k).
Proof.
intros Hm Hk s r s' Hs. rewrite bind_eq.
destruct (m s) as [[a| |] s1] eqn:E; destruct (Hm _ _ _ Hs E) as (R1 & G1 & F1 & S1).
- assert (H1 : in_init s1 = i).
  { destruct R1 as [?|[_ R1]]; [done|]. by destruct (R1 a). }
  intros H. destruct (Hk a _ _ _ H1 H) as (R2 & G2 & F2 & S2).
  split_and!; auto. apply (grows_trans i s s1 s'); try done.
  intros ->. by destruct R2 as [?|[? _]].
- intros [= <- <-]. split_and!; auto; try done.
  destruct R1 as [?|[? _]]; [by left|by right].
- intros [= <- <-]. split_and!; auto; try done.
  destruct R1 as [?|[? _]]; [by left|by right].
Qed.

Lemma conducts_mapM {A B} (i : bool) (f : A → M B) (l : list A) :
  (∀ a, conducts i (f a)) → conducts i (mapM f l).
Proof.
intros Hf. induction l as [|a l IH]; simpl.
- apply conducts_ret.
- apply conducts_bind; [apply Hf|]. intros b.
  apply conducts_bind; [apply IH|]. intros bs. apply conducts_ret.
Qed.

(** A closing event and the end of the process. *)
Lemma conducts_emit_halt {A} (i : bool) (e : event) :
  allowed i e → closing execv execvp i e → conducts i (emit e;; @halt A).
Proof.
intros He Hcl s r s' Hs [= <- <-]. simpl.
split_and!; auto; try done.
- by apply grows_log.
- intros _. exists e. simpl. rewrite last_snoc, Hs. done.
Qed.

Lemma conducts_fail {A} (i : bool) (msg : string) : conducts i (@fail A msg).
Proof.
intros s r s' Hs. rewrite fail_eq. intros [= <- <-]. simpl.
split_and!; auto; try done.
- apply (grows_trans i _ (log (Diag msg (errno s)) s)); [done|by intros ->| |].
  + apply grows_log; [done|]. destruct i; [by apply HHi|by apply HHc].
  + rewrite Hs. apply grows_log; [done|].
    destruct i; [by apply HHi|by apply HHc].
- intros _. eexists. simpl. rewrite last_snoc. split; [done|].
  rewrite Hs. destruct i; simpl; auto.
Qed.

(** An [execv] of a child: the process is gone when it succeeds. *)
Lemma conducts_execv {A} (path : string) (argv : list string) (k : Z → M A) :
  (∀ e, conducts false (k e)) →
  conducts false
    (emit (Execv path argv);;
     match execv path argv with
     | None => halt
     | Some e => k e
     end).
Proof.
intros Hk. destruct (execv path argv) as [e|] eqn:E.
- apply conducts_bind; [|intros _; apply Hk].
  apply conducts_emit. by apply HHc.
- apply conducts_emit_halt; [by apply HHc|]. by right.
Qed.

Lemma conducts_execvp {A} (file : string) (argv : list string) (k : Z → M A) :
  (∀ e, conducts false (k e)) →
  conducts false
    (emit (Execvp file argv);;
     match execvp file argv with
     | None => halt
     | Some e => k e
     end).
Proof.
intros Hk. destruct (execvp file argv) as [e|] eqn:E.
- apply conducts_bind; [|intros _; apply Hk].
  apply conducts_emit. by apply HHc.
- apply conducts_emit_halt; [by apply HHc|]. by right.
Qed.

(** The branch taken by the process in which [fork] returned 0. *)
Lemma conducts_child {A} (i : bool) (m : M A) :
  never_returns m → conducts false m →
  conducts i (put (set_in_init false);; m).
Proof.
intros Hn Hm s r s' Hs. rewrite bind_eq. simpl. intros H.
destruct (Hm (set_in_init false s) r s' eq_refl H) as (R & G & F & S).
assert (Hs' : in_init s' = false) by (by destruct R as [?|[? _]]).
split_and!; auto.
- destruct i; [right|by left]. split; [done|]. apply (Hn _ _ _ H).
- destruct G as (e1 & e2 & Ht & F1 & F2 & I1 & I2). rewrite (I1 eq_refl) in *.
  exists [], e2. simpl in *. split_and!; auto.
Qed.

Local Ltac routine :=
  first [ apply HHi; reflexivity | apply HHc; reflexivity | assumption ].

Local Ltac conduct_go :=
  repeat lazymatch goal with
    | |- conducts _ (mret _) => apply conducts_ret
    | |- conducts _ (get _) => apply conducts_get
    | |- conducts _ (fail _) => apply conducts_fail
    | |- conducts _ (put (set_errno _)) => apply conducts_put; [done|done]
    | |- conducts _ (put (set_environ _)) => apply conducts_put; [done|done]
    | |- conducts _ (put (set_pids _)) => apply conducts_put; [done|done]
    | |- conducts _ (put (set_rands _)) => apply conducts_put; [done|done]
    | |- conducts _ (put (set_ticks _)) => apply conducts_put; [done|done]
    | |- conducts _ (put (set_ubda _)) => apply conducts_put; [done|done]
    | |- conducts _ (emit _ ≫= λ _, halt) =>
        apply conducts_emit_halt; [routine|simpl; auto]
    | |- conducts _ (emit (Execv _ _) ≫= _) => apply conducts_execv; intros ?
    | |- conducts _ (emit (Execvp _ _) ≫= _) => apply conducts_execvp; intros ?
    | |- conducts _ (emit _) => apply conducts_emit; routine
    | |- conducts _ (_ ≫= _) => apply conducts_bind; [|intros ?]
    | |- conducts _ (mapM _ _) => apply conducts_mapM; intros ?
    | |- conducts _ (MUST _ _ _ _ _) => unfold MUST
    | |- conducts _ (open_to _ _ _ _ _ _) => unfold open_to
    | |- conducts _ (setenv _ _) => unfold setenv
    | |- conducts _ (getenv _) => unfold getenv
    | |- conducts _ (hostify _ _ _ _ _ _) => unfold hostify
    | |- conducts _ (if ?b then _ else _) => destruct b
    | |- conducts _ (match ?x with _ => _ end) => destruct x
    end.

Lemma bootstrap_conducts : conducts true (bootstrap sys sys_errno).
Proof. unfold bootstrap. conduct_go. Qed.

Lemma MUST_readall_conducts (msg : string) (buf : list byte) (count : Z) :
  0 <= count < 2 ^ 63 → count <= Z.of_nat (length buf) →
  conducts true (MUST_readall msg buf count).
Proof.
intros Hc' Hb. unfold MUST_readall.
apply conducts_bind; [apply conducts_get|]. intros f.
pose proof (readall_no_fault f buf count Hc' Hb) as Hf.
destruct (readall f buf count); [|done]. conduct_go.
Qed.

Lemma load_config_conducts :
  conducts true (load_config sys sys_errno config__unpack uninit).
Proof.
unfold load_config.
apply conducts_bind; [conduct_go|]. intros fd.
apply conducts_bind.
{ apply MUST_readall_conducts; [lia|]. rewrite length_fresh. lia. }
intros hdr.
apply conducts_bind; [conduct_go|]. intros _.
apply conducts_bind; [conduct_go|]. intros _.
apply conducts_bind; [|intros ?; conduct_go].
pose proof (WordFacts.of_le32_range (take 4 (drop 4 hdr))) as Hr.
apply MUST_readall_conducts; [lia|]. rewrite length_fresh. lia.
Qed.

Lemma handle_random_conducts (data : list byte) :
  conducts true (handle_random sys sys_errno data).
Proof. unfold handle_random. conduct_go. Qed.

Lemma handle_tty_raw_conducts (dev : string) :
  conducts true (handle_tty_raw sys sys_errno dev).
Proof. unfold handle_tty_raw. conduct_go. Qed.

Lemma mkdirs_loop_conducts (fuel : nat) (tail : string) :
  conducts true (mkdirs_loop sys sys_errno fuel tail).
Proof.
revert tail. induction fuel as [|fuel IH]; intros tail; simpl; [conduct_go|].
destruct (CStr.strchr tail "/") as [[pre post]|]; conduct_go; apply IH.
Qed.

Lemma handle_mount_conducts (mnt : Mount) :
  conducts true (handle_mount sys sys_errno mnt).
Proof.
unfold handle_mount, mkdirs. conduct_go. apply mkdirs_loop_conducts.
Qed.

Lemma hostify_conducts (cwd : string) (user : bool) (uid gid : Z) :
  Hc (Call (sys_setgid gid)) → Hc (Call (sys_setuid uid)) →
  conducts false (hostify sys sys_errno cwd user uid gid).
Proof. intros Hg Hu. unfold hostify. conduct_go. Qed.

Lemma set_limits_conducts (ls : list Limit) :
  conducts false (set_limits sys sys_errno ls).
Proof. induction ls as [|l ls IH]; simpl; conduct_go; apply IH. Qed.

Lemma exec_loop_conducts (fuel : nat) (name : string) (args : list string) :
  ∀ path cmd0 e0, conducts false (exec_loop execv fuel name args path cmd0 e0).
Proof.
induction fuel as [|fuel IH]; intros path cmd0 e0; simpl; [conduct_go|].
destruct path as [p|]; [destruct (CStr.strchr p ":") as [[dir rest]|]|];
  conduct_go; apply IH.
Qed.

Lemma resolve_and_exec_conducts (run : Run) :
  conducts false (resolve_and_exec sys sys_errno execv run).
Proof. unfold resolve_and_exec. conduct_go; apply exec_loop_conducts. Qed.

Lemma child_branch_never_returns (run : Run) (uid gid cat : Z) :
  never_returns (child_branch sys sys_errno execv cat_pipe run uid gid cat).
Proof.
unfold child_branch. repeat (apply never_returns_bind_r; intros ?).
by intros s r s' [= <- <-].
Qed.

Lemma cat_branch_never_returns (run : Run) (uid gid : Z) :
  never_returns (cat_branch sys sys_errno execvp cat_pipe run uid gid).
Proof.
unfold cat_branch. repeat (apply never_returns_bind_r; intros ?).
destruct (execvp "cat" ["cat"]).
- apply never_returns_bind_r. intros _. apply never_returns_fail.
- by intros s r s' [= <- <-].
Qed.

Lemma child_branch_conducts (i : bool) (run : Run) (uid gid cat : Z) :
  Hc (Call (sys_setgid gid)) → Hc (Call (sys_setuid uid)) →
  conducts i (child_branch sys sys_errno execv cat_pipe run uid gid cat).
Proof.
intros Hg Hu. unfold child_branch. apply conducts_child.
- repeat (apply never_returns_bind_r; intros ?).
  by intros s r s' [= <- <-].
- conduct_go;
    first [apply set_limits_conducts | apply resolve_and_exec_conducts].
Qed.

Lemma cat_branch_conducts (i : bool) (run : Run) (uid gid : Z) :
  Hc (Call (sys_setgid gid)) → Hc (Call (sys_setuid uid)) →
  conducts i (cat_branch sys sys_errno execvp cat_pipe run uid gid).
Proof.
intros Hg Hu. unfold cat_branch. apply conducts_child.
- repeat (apply never_returns_bind_r; intros ?).
  destruct (execvp "cat" ["cat"]).
  + apply never_returns_bind_r. intros _. apply never_returns_fail.
  + by intros s r s' [= <- <-].
- conduct_go.
Qed.

Lemma fork_conducts : conducts true fork.
Proof. unfold fork. conduct_go. Qed.

Lemma wait_loop_conducts (ts : list tick) :
  ∀ child cat child_running cat_running timed_out,
    conducts true
      (wait_loop sys sys_errno uninit ts child cat child_running cat_running
         timed_out).
Proof.
induction ts as [|t ts IH]; intros child cat cr catr to; simpl.
- intros s r s' Hs [= <- <-]. split_and!; auto; try done.
  by apply grows_refl.
- destruct t; conduct_go; apply IH.
Qed.

Lemma handle_run_from_conducts (run : Run) (uid gid : Z) :
  Hc (Call (sys_setgid gid)) → Hc (Call (sys_setuid uid)) →
  conducts true
    (handle_run_from sys sys_errno execv execvp uninit cat_pipe run uid gid).
Proof.
intros Hg Hu. unfold handle_run_from.
conduct_go;
  first [ apply fork_conducts | by apply cat_branch_conducts
        | by apply child_branch_conducts | apply wait_loop_conducts ].
Qed.

Lemma handle_run_parts (run : Run) :
  handle_run sys sys_errno execv execvp uninit cat_pipe run
  = (MUST sys sys_errno "sigprocmask (block SIGCHLD)" (-1) (sys_sigprocmask true);;
     uid ← choose_id run (uid run);
     gid ← choose_id run (gid run);
     handle_run_from sys sys_errno execv execvp uninit cat_pipe run uid gid).
Proof. reflexivity. Qed.

Lemma choose_id_conducts (run : Run) (id : Z) : conducts true (choose_id run id).
Proof. unfold choose_id, random_. conduct_go. Qed.

Lemma handle_run_conducts (run : Run) :
  (∀ e, is_setid e = true → Hc e) →
  conducts true (handle_run sys sys_errno execv execvp uninit cat_pipe run).
Proof.
intros Hid. rewrite handle_run_parts.
apply conducts_bind; [conduct_go|]. intros _.
apply conducts_bind; [apply choose_id_conducts|]. intros uid.
apply conducts_bind; [apply choose_id_conducts|]. intros gid.
apply handle_run_from_conducts; by apply Hid.
Qed.

Lemma run_all_conducts (runs : list Run) :
  (∀ e, is_setid e = true → Hc e) →
  conducts true (run_all sys sys_errno execv execvp uninit cat_pipe runs).
Proof.
intros Hid. induction runs as [|r runs IH]; simpl; [conduct_go|].
apply conducts_bind; [by apply handle_run_conducts|].
intros []; [conduct_go|apply IH].
Qed.

Lemma main_conducts :
  (∀ e, is_setid e = true → Hc e) →
  conducts true (main sys sys_errno execv execvp config__unpack uninit cat_pipe).
Proof.
intros Hid. unfold main, execute.
conduct_go;
  first [ apply bootstrap_conducts | apply load_config_conducts
        | apply handle_random_conducts | apply handle_tty_raw_conducts
        | apply handle_mount_conducts | by apply run_all_conducts ].
Qed.

Lemma main_never_returns :
  never_returns (main sys sys_errno execv execvp config__unpack uninit cat_pipe).
Proof.
unfold main, execute. repeat (apply never_returns_bind_r; intros ?).
by intros s r s' [= <- <-].
Qed.

End Conduct.

(** X8. A process that is PID 1 when [main] starts never returns from it.
    When it comes to an end as PID 1 the last thing it did was to power
    the guest off; when it comes to an end as a forked child the last
    thing it did was [exit(1)] or an exec that succeeded; and only
    PID 1 can be left waiting for ever. *)
Theorem init_ends_with_power_off (sys sys_errno : call → Z)
    (execv execvp : string → list string → option Z)
    (config__unpack : list byte → option Config) (uninit : nat → byte)
    (cat_pipe : Z * Z) (s s' : state) (r : result ()) :
  in_init s = true →
  main sys sys_errno execv execvp config__unpack uninit cat_pipe s = (r, s') →
  (∀ a, r ≠ Ok a)
  ∧ (r = Halt → final execv execvp s')
  ∧ (r = Stuck → in_init s' = true).
Proof.
intros Hs H. split; [by apply (main_never_returns _ _ _ _ _ _ _ _ _ _ H)|].
destruct (main_conducts sys sys_errno execv execvp config__unpack uninit cat_pipe
            (λ _, True) (λ _, True) ltac:(done) ltac:(done) ltac:(done)
            s r s' Hs H) as (_ & _ & F & S).
by split.
Qed.

Lemma init_ends_with_power_off_witness :
  let out := main Sample.sys Sample.sys_errno Sample.execv Sample.execv
               Sample.unpack Sample.uninit Sample.cat_pipe
               (Sample.boot Sample.image [] []) in
  out.1 = Halt ∧ final Sample.execv Sample.execv out.2.
Proof.
intros out.
destruct (init_ends_with_power_off Sample.sys Sample.sys_errno Sample.execv
            Sample.execv Sample.unpack Sample.uninit Sample.cat_pipe
            (Sample.boot Sample.image [] []) out.2 out.1 eq_refl
            (surjective_pairing out)) as (_ & F & _).
assert (H : out.1 = Halt) by (by vm_compute).
split; [exact H|exact (F H)].
Defined.

(** X9. What [main] logs is what PID 1 logs, followed, when the run follows
    a forked child, by what that child logs.  PID 1 never changes its
    root, its identity or its limits, never executes a program and
    never exits; a child never makes a device, mounts, forks, sends a
    signal, syncs or powers the guest off. *)
Theorem roles_are_kept_apart (sys sys_errno : call → Z)
    (execv execvp : string → list string → option Z)
    (config__unpack : list byte → option Config) (uninit : nat → byte)
    (cat_pipe : Z * Z) (s s' : state) (r : result ()) :
  in_init s = true →
  main sys sys_errno execv execvp config__unpack uninit cat_pipe s = (r, s') →
  ∃ evs1 evs2,
    trace s' = trace s ++ evs1 ++ evs2
    ∧ Forall (λ e, child_only e = false) evs1
    ∧ Forall (λ e, init_only e = false) evs2
    ∧ (in_init s' = true → evs2 = []).
Proof.
intros Hs H.
destruct (main_conducts sys sys_errno execv execvp config__unpack uninit cat_pipe
            (λ e, child_only e = false) (λ e, init_only e = false)
            ltac:(done) ltac:(done)) with s r s'
  as (_ & (evs1 & evs2 & Ht & F1 & F2 & _ & I2) & _ & _); try done.
- by intros [[]| | | | | | | | | | |].
- by exists evs1, evs2.
Qed.

Lemma roles_are_kept_apart_witness :
  let s := Sample.boot Sample.image [] [] in
  let out := main Sample.sys Sample.sys_errno Sample.execv Sample.execv
               Sample.unpack Sample.uninit Sample.cat_pipe s in
  ∃ evs1 evs2,
    trace out.2 = trace s ++ evs1 ++ evs2
    ∧ Forall (λ e, child_only e = false) evs1
    ∧ Forall (λ e, init_only e = false) evs2
    ∧ (in_init out.2 = true → evs2 = []).
Proof.
intros s out.
apply (roles_are_kept_apart Sample.sys Sample.sys_errno Sample.execv Sample.execv
         Sample.unpack Sample.uninit Sample.cat_pipe s out.2 out.1 eq_refl
         (surjective_pairing out)).
Defined.

Section Children.

Variable sys : call → Z.
Variable sys_errno : call → Z.
Variable execv : string → list string → option Z.
Variable execvp : string → list string → option Z.
Variable cat_pipe : Z * Z.

Lemma child_branch_as_child (run : Run) (uid gid cat : Z) (s : state) :
  child_branch sys sys_errno execv cat_pipe run uid gid cat s
  = child_branch sys sys_errno execv cat_pipe run uid gid cat (set_in_init false s).
Proof. reflexivity. Qed.

Lemma cat_branch_as_child (run : Run) (uid gid : Z) (s : state) :
  cat_branch sys sys_errno execvp cat_pipe run uid gid s
  = cat_branch sys sys_errno execvp cat_pipe run uid gid (set_in_init false s).
Proof. reflexivity. Qed.

Lemma conducts_as_child {A} (m : M A) (s s' : state) (r : result A) :
  conducts execv execvp (λ _, True) (λ e, init_only e = false) false m →
  never_returns m →
  m (set_in_init false s) = (r, s') →
  r = Halt ∧ in_init s' = false ∧ adds (λ e, init_only e = false) s s'
  ∧ final execv execvp s'.
Proof.
intros Hm Hn H.
destruct (Hm (set_in_init false s) r s' eq_refl H)
  as (R & (e1 & e2 & Ht & _ & F2 & I1 & _) & F & S).
assert (Hs' : in_init s' = false) by (by destruct R as [?|[? _]]).
assert (Hr : r = Halt).
{ destruct r as [a| |]; [by destruct (Hn _ _ _ H a)|done|].
  rewrite S in Hs'; done. }
split_and!; auto. rewrite (I1 eq_refl) in Ht. by exists e2.
Qed.

(** X10. The two children of a run, the command and [cat], never come back
    into the code of the supervisor: each comes to an end, by an exec
    that succeeds or by [exit(1)], and until then it does nothing that
    is the business of PID 1: no device, no mount, no fork, no signal,
    no sync and no power-off. *)
Theorem children_never_act_as_init (run : Run) (uid gid cat : Z)
    (s s' : state) (r : result ()) :
  (child_branch sys sys_errno execv cat_pipe run uid gid cat s = (r, s') →
   r = Halt ∧ in_init s' = false ∧ adds (λ e, init_only e = false) s s'
   ∧ final execv execvp s')
  ∧ (cat_branch sys sys_errno execvp cat_pipe run uid gid s = (r, s') →
     r = Halt ∧ in_init s' = false ∧ adds (λ e, init_only e = false) s s'
     ∧ final execv execvp s').
Proof.
split.
- rewrite child_branch_as_child. apply conducts_as_child.
  + by apply child_branch_conducts.
  + apply child_branch_never_returns.
- rewrite cat_branch_as_child. apply conducts_as_child.
  + by apply cat_branch_conducts.
  + apply cat_branch_never_returns.
Qed.

End Children.

Lemma children_never_act_as_init_witness :
  let s := Sample.boot [] [] [] in
  let out := child_branch Sample.sys Sample.sys_errno Sample.execv_script
               Sample.cat_pipe (Sample.run_of "/usr/bin/prog" [] []) 0 0 (-1) s in
  out.1 = Halt ∧ in_init out.2 = false
  ∧ adds (λ e, init_only e = false) s out.2
  ∧ final Sample.execv_script Sample.execv out.2.
Proof.
intros s out.
apply (proj1 (children_never_act_as_init Sample.sys Sample.sys_errno
                Sample.execv_script Sample.execv Sample.cat_pipe
                (Sample.run_of "/usr/bin/prog" [] []) 0 0 (-1) s out.2 out.1)).
apply surjective_pairing.
Defined.

(** ** The identity of the children of a run *)

Lemma choose_id_spec (run : Run) (id : Z) (s : state) :
  user run = true → Forall (λ r, 0 <= r) (rands s) →
  ∃ u s1, choose_id run id s = (Ok u, s1) ∧ u ≠ 0
          ∧ trace s1 = trace s ∧ in_init s1 = in_init s
          ∧ Forall (λ r, 0 <= r) (rands s1).
Proof.
intros Hu Hr. unfold choose_id. rewrite Hu. simpl.
destruct (wrap32 id =? 0) eqn:E.
- rewrite bind_eq. unfold random_. rewrite bind_eq. simpl.
  destruct (rands s) as [|r rs] eqn:Er; simpl.
  + eexists _, _. split; [reflexivity|]. rewrite Er. by split_and!.
  + apply Forall_cons in Hr as [Hr0 Hr].
    eexists _, _. split; [reflexivity|]. simpl. split_and!; try done.
    pose proof (Z.rem_nonneg r 995000 ltac:(lia) Hr0). lia.
- eexists _, _. split; [reflexivity|]. split_and!; try done. lia.
Qed.

Section Identity.

Variable sys : call → Z.
Variable sys_errno : call → Z.
Variable execv : string → list string → option Z.
Variable execvp : string → list string → option Z.
Variable uninit : nat → byte.
Variable cat_pipe : Z * Z.


End Identity.


(** ** Inverting computations that returned *)

Lemma bind_inv_ok {A B} (m : M A) (k : A → M B) (s s' : state) (b : B) :
  (m ≫= k) s = (Ok b, s') → ∃ a s1, m s = (Ok a, s1) ∧ k a s1 = (Ok b, s').
Proof.
rewrite bind_eq. destruct (m s) as [[a| |] s1]; [|done..].
intros H. by exists a, s1.
Qed.

Lemma fail_inv_ok {A} (msg : string) (s s' : state) (a : A) :
  fail msg s = (Ok a, s') → False.
Proof. by rewrite fail_eq. Qed.

Section Inversion.

Variable sys : call → Z.
Variable sys_errno : call → Z.

Lemma MUST_inv_ok (msg : string) (err : Z) (c : call) (s s' : state) (z : Z) :
  MUST sys sys_errno msg err c s = (Ok z, s') →
  z = sys c ∧ sys c ≠ err ∧ s' = log (Call c) s.
Proof.
destruct (decide (sys c = err)) as [E|E].
- rewrite MUST_err by done. by rewrite fail_eq.
- rewrite MUST_ok by done. by intros [= <- <-].
Qed.

End Inversion.

Lemma fork_inv_ok (s s' : state) (p : Z) :
  fork s = (Ok p, s') →
  ∃ ps, pids s = p :: ps ∧ p ≠ -1 ∧ s' = log (Fork p) (set_pids ps s).
Proof.
unfold fork. rewrite bind_eq. cbn [get]. destruct (pids s) as [|q ps] eqn:E.
- rewrite bind_eq. cbn [put]. by rewrite fail_eq.
- rewrite bind_eq. cbn [put]. rewrite bind_eq. cbn [emit].
  destruct (Z.eqb_spec q (-1)) as [->|Hq].
  + rewrite bind_eq. cbn [put]. by rewrite fail_eq.
  + intros [= <- <-]. by exists ps.
Qed.

(** An event with a property [Q] that the first part of a list does not
    have lies in the second part. *)
Lemma app_eq_split {A} (Q : A → Prop) (X Y a b : list A) (e : A) :
  Forall (λ x, ¬ Q x) X → Q e → X ++ Y = a ++ e :: b →
  ∃ a', a = X ++ a' ∧ Y = a' ++ e :: b.
Proof.
intros HX He. revert a. induction HX as [|x X Hx _ IH]; intros a H; simpl in *.
- by exists a.
- destruct a as [|y a]; simpl in *.
  + injection H as -> _. done.
  + injection H as -> H. destruct (IH a H) as (a' & -> & ->). by exists a'.
Qed.

(** ** No exec outside the jail *)

Global Instance adds_any_tracks : Tracks (adds (λ _, True)) (λ _, True).
Proof. split; [apply _|apply adds_lenient|apply adds_logs|done]. Qed.

Lemma adds_app (P : event → Prop) (s s' : state) (evs : list event) :
  adds P s s' → trace s' = trace s ++ evs → Forall P evs.
Proof. intros (evs' & H & F) Ht. rewrite H in Ht. by apply app_inv_head in Ht as <-. Qed.

Lemma free_prefix {A B} (P : event → Prop) (m : M A) (k : A → M B)
    (s0 s s' : state) (r : result B) :
  steps (adds P) m → adds P s0 s → (m ≫= k) s = (r, s') →
  adds P s0 s' ∨ ∃ a s1, adds P s0 s1 ∧ k a s1 = (r, s').
Proof.
intros Hm Hacc. rewrite bind_eq.
destruct (m s) as [[a| |] s1] eqn:E; pose proof (Hm _ _ _ E) as H1.
- intros H. right. exists a, s1. split; [by etrans|done].
- intros [= <- <-]. left. by etrans.
- intros [= <- <-]. left. by etrans.
Qed.

Lemma guarded_no_exec (jail evs : list event) : Forall no_exec evs → guarded jail evs.
Proof.
intros H pre e post -> He. apply Forall_app in H as [_ H].
apply Forall_cons in H as [H _]. unfold no_exec in H. congruence.
Qed.

Lemma guarded_after (jail evsA evsR : list event) :
  Forall no_exec evsA → Forall no_exec jail → guarded jail (evsA ++ jail ++ evsR).
Proof.
intros HA HJ pre e post H He. rewrite app_assoc in H.
destruct (app_eq_split (λ x, is_exec x = true) (evsA ++ jail) evsR pre post e)
  as (a' & -> & _); [|done|done|].
- apply Forall_app. split; (eapply Forall_impl; [eassumption|]);
    intros x Hx; unfold no_exec in Hx; congruence.
- exists evsA, a'. by rewrite <- app_assoc.
Qed.

Section Confinement.

Variable sys : call → Z.
Variable sys_errno : call → Z.
Variable execv : string → list string → option Z.
Variable execvp : string → list string → option Z.
Variable cat_pipe : Z * Z.

Lemma hostify_no_exec (cwd : string) (user : bool) (uid gid : Z) :
  steps (adds no_exec) (hostify sys sys_errno cwd user uid gid).
Proof. unfold hostify. steps_go; reflexivity. Qed.

Lemma hostify_ok_trace (cwd : string) (user : bool) (uid gid : Z) (s s1 : state) :
  hostify sys sys_errno cwd user uid gid s = (Ok tt, s1) →
  trace s1 = trace s ++ (Call <$> hostify_calls cwd user uid gid)
  ∧ Forall (λ c, sys c ≠ -1) (hostify_calls cwd user uid gid).
Proof.
unfold hostify, hostify_calls. intros H.
apply bind_inv_ok in H as (z1 & s1' & H1 & H).
apply MUST_inv_ok in H1 as (_ & N1 & ->).
apply bind_inv_ok in H as (z2 & s2' & H2 & H).
apply MUST_inv_ok in H2 as (_ & N2 & ->).
apply bind_inv_ok in H as ([] & s3 & H3 & H).
assert (H3' : trace s3 = trace s ++ (Call <$> [sys_chdir "/host"; sys_chroot "."]
                           ++ (if CStr.nonempty cwd then [sys_chdir cwd] else []))
              ∧ Forall (λ c, sys c ≠ -1)
                  ([sys_chdir "/host"; sys_chroot "."]
                   ++ (if CStr.nonempty cwd then [sys_chdir cwd] else []))).
{ destruct (CStr.nonempty cwd).
  - apply bind_inv_ok in H3 as (z3 & s3' & H3 & [= <-]).
    apply MUST_inv_ok in H3 as (_ & N3 & ->). simpl.
    rewrite <- !app_assoc. split; [done|]. by repeat constructor.
  - injection H3 as <-. simpl. rewrite <- !app_assoc. split; [done|].
    by repeat constructor. }
destruct H3' as [T3 F3]. rewrite app_assoc, fmap_app. destruct user.
- apply bind_inv_ok in H as (z4 & s4 & H4 & H).
  apply MUST_inv_ok in H4 as (_ & N4 & ->).
  apply bind_inv_ok in H as (z5 & s5 & H5 & [= <-]).
  apply MUST_inv_ok in H5 as (_ & N5 & ->). split.
  + cbn [trace log]. rewrite T3, <- !app_assoc. done.
  + apply Forall_app. split; [done|]. by repeat constructor.
- injection H as <-. rewrite T3, !app_nil_r. done.
Qed.

Lemma jail_then {B} (cwd : string) (user : bool) (uid gid : Z) (rest : M B)
    (s0 s s' : state) (r : result B) (evs : list event) :
  steps (adds (λ _, True)) rest → adds no_exec s0 s →
  (hostify sys sys_errno cwd user uid gid;; rest) s = (r, s') →
  trace s' = trace s0 ++ evs →
  guarded (Call <$> hostify_calls cwd user uid gid) evs
  ∧ (¬ Forall no_exec evs → Forall (λ c, sys c ≠ -1) (hostify_calls cwd user uid gid)).
Proof.
intros Hrest Hacc. rewrite bind_eq.
destruct (hostify sys sys_errno cwd user uid gid s) as [[[]| |] s1] eqn:E;
  pose proof (hostify_no_exec _ _ _ _ _ _ _ E) as H1.
- destruct (hostify_ok_trace _ _ _ _ _ _ E) as [T1 F1].
  intros H Ht. destruct (Hrest _ _ _ H) as (evsR & TR & _).
  destruct Hacc as (evsA & TA & FA).
  rewrite TR, T1, TA, <- !app_assoc in Ht. apply app_inv_head in Ht as <-.
  split; [|done]. apply guarded_after; [done|].
  apply Forall_fmap, Forall_true. done.
- intros [= <- <-] Ht.
  assert (F : Forall no_exec evs) by (apply (adds_app _ s0 s1); [by etrans|done]).
  split; [by apply guarded_no_exec|done].
- intros [= <- <-] Ht.
  assert (F : Forall no_exec evs) by (apply (adds_app _ s0 s1); [by etrans|done]).
  split; [by apply guarded_no_exec|done].
Qed.

Local Ltac pass s Ht :=
  match goal with
  | H : (?m ≫= ?k) ?s1 = _, Hacc : adds no_exec s ?s1 |- _ =>
      let Hm := fresh "Hm" in
      let Hn := fresh "Hn" in
      assert (Hm : steps (adds no_exec) m) by (steps_go; reflexivity);
      destruct (free_prefix no_exec m k s s1 _ _ Hm Hacc H) as [Hn|(? & ? & ? & ?)];
      clear H Hacc Hm;
      [ pose proof (adds_app _ _ _ _ Hn Ht);
        split; [by apply guarded_no_exec|done] | ]
  end.

(** X12. Whatever a child of a run executes, the command, the shell or
    [cat], it executes after [hostify] has returned: the calls
    [chdir("/host")], [chroot(".")], [chdir(cwd)] when a directory is
    given, and [setgid], [setuid] in this order when the run drops
    privileges, come before the first exec, and each of them
    succeeded. *)
Theorem exec_only_after_confinement (run : Run) (uid gid cat : Z)
    (s s' : state) (r : result ()) (evs : list event) :
  let jail := hostify_calls (cwd run) (user run) uid gid in
  (child_branch sys sys_errno execv cat_pipe run uid gid cat s = (r, s')
   ∨ cat_branch sys sys_errno execvp cat_pipe run uid gid s = (r, s')) →
  trace s' = trace s ++ evs →
  guarded (Call <$> jail) evs
  ∧ (¬ Forall no_exec evs → Forall (λ c, sys c ≠ -1) jail).
Proof.
intros jail [H|H] Ht; assert (Hacc : adds no_exec s s) by reflexivity.
- unfold child_branch in H. do 4 pass s Ht.
  eapply (jail_then _ _ _ _ _ s); [|eassumption|eassumption|done].
  unfold resolve_and_exec. steps_go; try done;
    first [ eapply set_limits_adds | eapply exec_loop_adds ];
    first [ typeclasses eauto | done ].
- unfold cat_branch in H. do 6 pass s Ht.
  eapply (jail_then _ _ _ _ _ s); [|eassumption|eassumption|done].
  steps_go; done.
Qed.

End Confinement.

Lemma exec_only_after_confinement_witness :
  let run := {| daemon := false; cmd := "/bin/true"; arg := []; cwd := "/tmp";
                input := ""; output := ""; error := ""; cat_output := false;
                env := []; user := true; uid := 1000; gid := 1000; limit := [] |} in
  let s := Sample.boot [] [] [] in
  let out := child_branch Sample.sys Sample.sys_errno Sample.execv Sample.cat_pipe
               run 1000 1000 (-1) s in
  guarded (Call <$> [sys_chdir "/host"; sys_chroot "."; sys_chdir "/tmp";
                     sys_setgid 1000; sys_setuid 1000])
    (trace out.2).
Proof.
intros run s out.
apply (exec_only_after_confinement Sample.sys Sample.sys_errno Sample.execv
         Sample.execv Sample.cat_pipe run 1000 1000 (-1) s out.2 out.1 (trace out.2)).
- left. apply surjective_pairing.
- reflexivity.
Defined.

(** ** The environment PID 1 starts from *)

Lemma setenv_valid (k v : string) (s : state) :
  CStr.nonempty k = true → CStr.strchr k "=" = None →
  setenv k v s = (Ok tt, set_environ (<[k:=v]> (environ s)) (log (Setenv k v) s)).
Proof.
intros Hk He. unfold setenv. rewrite bind_eq. cbn [emit]. rewrite Hk, He.
rewrite bool_decide_eq_false_2 by (by intros [? ?]). reflexivity.
Qed.

Lemma setenv_invalid (k v : string) (s : state) :
  CStr.nonempty k = false ∨ is_Some (CStr.strchr k "=") →
  setenv k v s = (Ok tt, log (Setenv k v) s).
Proof.
intros H. unfold setenv. rewrite bind_eq. cbn [emit].
destruct H as [->|H]; [done|].
rewrite (bool_decide_eq_true_2 _ H). by rewrite andb_false_r.
Qed.

(** X13. Whatever environment the kernel starts PID 1 with, after the
    preparations of [main] it consists of PATH, TERM and HOME with
    their fixed values, and of nothing else. *)
Theorem bootstrap_environment (sys sys_errno : call → Z) (s s' : state) :
  bootstrap sys sys_errno s = (Ok tt, s') →
  environ s' = <["HOME" := "/tmp"]> (<["TERM" := "linux"]>
                 (<["PATH" := DEFAULT_PATH]> ∅)).
Proof.
intros H. unfold bootstrap in H.
do 7 (apply bind_inv_ok in H as (? & ? & _ & H)).
apply bind_inv_ok in H as ([] & s1 & _ & H).
apply bind_inv_ok in H as ([] & s2 & H2 & H).
assert (E2 : environ s2 = ∅).
{ destruct (negb _).
  - apply bind_inv_ok in H2 as (? & ? & _ & H2). by apply fail_inv_ok in H2.
  - by injection H2 as <-. }
apply bind_inv_ok in H as ([] & s3 & H3 & H).
rewrite setenv_valid in H3 by done. injection H3 as <-.
apply bind_inv_ok in H as ([] & s4 & H4 & H).
rewrite setenv_valid in H4 by done. injection H4 as <-.
apply bind_inv_ok in H as ([] & s5 & H5 & H).
rewrite setenv_valid in H5 by done. injection H5 as <-.
apply bind_inv_ok in H as (? & s6 & H6 & H). apply MUST_inv_ok in H6 as (_ & _ & ->).
apply bind_inv_ok in H as (? & s7 & H7 & [= <-]).
apply MUST_inv_ok in H7 as (_ & _ & ->).
cbn [environ log set_environ]. by rewrite E2.
Qed.

Lemma bootstrap_environment_witness :
  environ (bootstrap Sample.sys Sample.sys_errno
             (set_environ (<["LD_PRELOAD" := "/evil.so"]> ∅)
                (Sample.boot [] [] []))).2
  = <["HOME" := "/tmp"]> (<["TERM" := "linux"]> (<["PATH" := DEFAULT_PATH]> ∅)).
Proof.
apply (bootstrap_environment Sample.sys Sample.sys_errno
         (set_environ (<["LD_PRELOAD" := "/evil.so"]> ∅) (Sample.boot [] [] []))).
by vm_compute.
Defined.

(** ** The mounts are in place before any command *)

Global Instance adds_no_fork_tracks : Tracks (adds no_fork) no_fork.
Proof.
split; [apply _|apply adds_lenient|apply adds_logs|].
by intros [].
Qed.

Global Instance adds_quiet_tracks : Tracks (adds quiet) quiet.
Proof.
split; [apply _|apply adds_lenient|apply adds_logs|].
by intros [].
Qed.

Lemma adds_impl (P Q : event → Prop) (s s' : state) :
  (∀ e, P e → Q e) → adds P s s' → adds Q s s'.
Proof. intros H (evs & Ht & F). exists evs. split; [done|]. by eapply Forall_impl. Qed.

Lemma mounted_no_mount (evs : list event) : Forall no_mount evs → mounted evs = [].
Proof.
induction 1 as [|e evs He _ IH]; [done|]. unfold mounted in *. simpl.
by rewrite He.
Qed.

Section Phases.

Variable sys : call → Z.
Variable sys_errno : call → Z.
Variable execv : string → list string → option Z.
Variable execvp : string → list string → option Z.
Variable uninit : nat → byte.
Variable cat_pipe : Z * Z.

Lemma mkdirs_loop_no_fork (fuel : nat) (tail : string) :
  steps (adds no_fork) (mkdirs_loop sys sys_errno fuel tail).
Proof.
revert tail. induction fuel as [|fuel IH]; intros tail; simpl; [steps_go|].
destruct (CStr.strchr tail "/") as [[pre post]|]; steps_go; try reflexivity;
  apply IH.
Qed.

Lemma handle_mount_no_fork (mnt : Mount) :
  steps (adds no_fork) (handle_mount sys sys_errno mnt).
Proof.
unfold handle_mount, mkdirs. steps_go; try reflexivity.
apply mkdirs_loop_no_fork.
Qed.

(** X14. When a command is started every mount of the configuration has
    been made: the [mount] calls that come before a [fork] in what
    [main] does with a configuration are those of all its mounts, in
    their order. *)
Theorem commands_start_after_mounts (cfg : Config) (s s' : state)
    (r : result ()) (evs a b : list event) (p : Z) :
  execute sys sys_errno execv execvp uninit cat_pipe cfg s = (r, s') →
  trace s' = trace s ++ evs → evs = a ++ Fork p :: b →
  mounted a = mount_point <$> mount cfg.
Proof.
intros H Ht Hev. rewrite execute_run_phase in H.
assert (Hno : ∀ s1, adds no_fork s s1 → trace s1 = trace s ++ evs → False).
{ intros s1 Hn Ht1. pose proof (adds_app _ _ _ _ Hn Ht1) as F. rewrite Hev in F.
  apply Forall_app in F as [_ F]. by apply Forall_cons in F as [F _]. }
assert (Hq : ∀ e, quiet e → no_fork e) by (by intros e [? ?]).
assert (Hacc : adds quiet s s) by reflexivity.
match goal with
| H : (?m ≫= ?k) s = _ |- _ =>
    assert (Hm : steps (adds quiet) m)
      by (unfold handle_random; steps_go; by split);
    destruct (free_prefix quiet m k s s _ _ Hm Hacc H)
      as [Hn|(a1 & s1 & Hacc1 & H1)]; clear H Hm
end.
{ destruct (Hno s' (adds_impl _ _ _ _ Hq Hn) Ht). }
match goal with
| H : (?m ≫= ?k) s1 = _ |- _ =>
    assert (Hm : steps (adds quiet) m)
      by (unfold handle_tty_raw; steps_go; by split);
    destruct (free_prefix quiet m k s s1 _ _ Hm Hacc1 H)
      as [Hn|(a2 & s2 & Hacc2 & H2)]; clear H Hm
end.
{ destruct (Hno s' (adds_impl _ _ _ _ Hq Hn) Ht). }
rename H2 into H.
rewrite bind_eq in H.
destruct (mapM (handle_mount sys sys_errno) (mount cfg) s2) as [[l| |] s3] eqn:E3.
2,3: injection H as <- <-; destruct (Hno s3); [|done];
  etrans; [exact (adds_impl _ _ _ _ Hq Hacc2)|];
  by apply (mapM_steps (adds no_fork) no_fork _ _ handle_mount_no_fork _ _ _ E3).
destruct (handle_mounts_mounted _ _ _ _ _ _ E3) as (k & Hk & Hl).
rewrite (Hl l eq_refl), take_ge in Hk by (by rewrite length_fmap).
assert (H3 : adds no_fork s s3).
{ etrans; [exact (adds_impl _ _ _ _ Hq Hacc2)|].
  by apply (mapM_steps (adds no_fork) no_fork _ _ handle_mount_no_fork _ _ _ E3). }
assert (HR : adds no_mount s3 s').
{ assert (Hst : steps (adds no_mount)
                   (run_phase sys sys_errno execv execvp uninit cat_pipe (run cfg))).
  { unfold run_phase. steps_go; try done.
    eapply run_all_adds; [typeclasses eauto|done]. }
  exact (Hst _ _ _ H). }
destruct H3 as (evsP & TP & FP). destruct HR as (evsR & TR & FR).
rewrite TR, TP, <- app_assoc in Ht. apply app_inv_head in Ht. subst evs.
destruct (app_eq_split (λ e, is_fork e = true) evsP evsR a b (Fork p))
  as (a' & -> & ->); [|done|done|].
{ eapply Forall_impl; [exact FP|]. intros e He. unfold no_fork in He. congruence. }
apply Forall_app in FR as [FR _].
assert (E2 : mounted (trace s2) = mounted (trace s)).
{ apply mounted_adds_no_mount. eapply adds_impl; [|exact Hacc2]. by intros e [? ?]. }
pose proof (mounted_no_mount a' FR) as Ea.
unfold mounted in *. rewrite omap_app, Ea, app_nil_r.
rewrite TP, omap_app, E2 in Hk. by apply app_inv_head in Hk.
Qed.

End Phases.

Lemma commands_start_after_mounts_witness :
  let cfg := {| tty_raw := []; random := [];
                mount := [Host.plain_mount "/tmp" "tmpfs" "tmpfs";
                          Host.plain_mount "/proc" "proc" "proc"];
                run := [Sample.run_of "/bin/true" [] []] |} in
  let s := Sample.boot [] [Reaped 7] [7] in
  let out := execute Sample.sys Sample.sys_errno Sample.execv Sample.execv
               Sample.uninit Sample.cat_pipe cfg s in
  mounted (take 15 (trace out.2)) = ["/host/tmp"; "/host/proc"].
Proof.
intros cfg s out.
apply (commands_start_after_mounts Sample.sys Sample.sys_errno Sample.execv
         Sample.execv Sample.uninit Sample.cat_pipe cfg s out.2 out.1
         (trace out.2) (take 15 (trace out.2)) (drop 16 (trace out.2)) 7).
- apply surjective_pairing.
- reflexivity.
- by vm_compute.
Defined.

(** ** A daemon is not waited for *)

Lemma choose_id_keeps (run : Run) (id : Z) (s s1 : state) (r : result Z) :
  choose_id run id s = (r, s1) → ticks s1 = ticks s ∧ trace s1 = trace s.
Proof.
unfold choose_id, random_.
destruct (user run && (wrap32 id =? 0)); [|by intros [= <- <-]].
rewrite !bind_eq. cbn [get]. destruct (rands s); by intros [= <- <-].
Qed.

Section Daemon.

Variable sys : call → Z.
Variable sys_errno : call → Z.
Variable execv : string → list string → option Z.
Variable execvp : string → list string → option Z.
Variable uninit : nat → byte.
Variable cat_pipe : Z * Z.

(** X15. For a run marked as daemon [handle_run] returns as soon as the
    children are forked: it reports no timeout, and it has consumed
    nothing of what the kernel holds for the wait loop (no child is
    reaped, the control channel is not read). *)
Theorem daemon_run_not_awaited (run : Run) (s s' : state) (b : bool) :
  daemon run = true →
  handle_run sys sys_errno execv execvp uninit cat_pipe run s = (Ok b, s') →
  b = false ∧ ticks s' = ticks s ∧ last (trace s') = Some (Call (sys_sigprocmask false)).
Proof.
intros Hd. rewrite handle_run_parts. intros H.
apply bind_inv_ok in H as (z0 & s0 & H0 & H).
apply MUST_inv_ok in H0 as (_ & _ & ->).
apply bind_inv_ok in H as (u & s1 & H1 & H). apply choose_id_keeps in H1 as [K1 _].
apply bind_inv_ok in H as (g & s2 & H2 & H). apply choose_id_keeps in H2 as [K2 _].
unfold handle_run_from in H. rewrite Hd in H.
apply bind_inv_ok in H as (cat & s3 & H3 & H).
assert (K3 : ticks s3 = ticks s2).
{ destruct (cat_output run); [|by injection H3 as <- <-].
  apply bind_inv_ok in H3 as (z & s3a & Ha & H3).
  apply MUST_inv_ok in Ha as (_ & _ & ->).
  apply bind_inv_ok in H3 as (c & s3b & Hb & H3).
  apply fork_inv_ok in Hb as (ps & _ & _ & ->).
  apply bind_inv_ok in H3 as ([] & s3c & Hc & [= <- <-]).
  destruct (c =? 0).
  - by destruct (cat_branch_never_returns _ _ _ _ _ _ _ _ _ _ Hc tt).
  - by injection Hc as <-. }
apply bind_inv_ok in H as (child & s4 & H4 & H).
apply fork_inv_ok in H4 as (ps & _ & _ & ->).
apply bind_inv_ok in H as ([] & s5 & H5 & H).
assert (K5 : ticks s5 = ticks s3).
{ destruct (child =? 0).
  - by destruct (child_branch_never_returns _ _ _ _ _ _ _ _ _ _ _ H5 tt).
  - by injection H5 as <-. }
apply bind_inv_ok in H as (z & s6 & H6 & [= <- <-]).
apply MUST_inv_ok in H6 as (_ & _ & ->).
split; [done|]. split.
- cbn [ticks log]. by rewrite K5, K3, K2, K1.
- cbn [trace log]. by rewrite last_snoc.
Qed.

End Daemon.

Lemma daemon_run_not_awaited_witness :
  let run := {| daemon := true; cmd := "/usr/bin/mudem"; arg := ["1"]; cwd := "";
                input := "/tty2"; output := "/tty2"; error := "/tty1";
                cat_output := false; env := []; user := false; uid := 0;
                gid := 0; limit := [] |} in
  let s := Sample.boot [] [CtlRead Host.soft_token] [42] in
  let out := handle_run Sample.sys Sample.sys_errno Sample.execv Sample.execv
               Sample.uninit Sample.cat_pipe run s in
  out.1 = Ok false ∧ ticks out.2 = [CtlRead Host.soft_token].
Proof.
intros run s out.
assert (H : out = (Ok false, out.2)) by (by vm_compute).
destruct (daemon_run_not_awaited Sample.sys Sample.sys_errno Sample.execv
            Sample.execv Sample.uninit Sample.cat_pipe run s out.2 false
            eq_refl H) as (_ & K & _).
split; [by rewrite H|exact K].
Defined.

(** ** What the wait loop returns, and when *)

Global Instance adds_signals_only_tracks (child : Z) :
  Tracks (adds (signals_only child)) (signals_only child).
Proof.
split; [apply _|apply adds_lenient|apply adds_logs|].
by intros [].
Qed.

Section WaitLoop.

Variable sys : call → Z.
Variable sys_errno : call → Z.
Variable uninit : nat → byte.

Lemma hard_timeout_first (bs : list byte) :
  (take 2 bs ++ drop (length (take 2 bs)) (fresh uninit 2)) !! 0%nat
  = Some (default (uninit 0%nat) (bs !! 0%nat)).
Proof. by destruct bs as [|b0 [|b1 bs]]. Qed.

Lemma wait_loop_returned (ts : list tick) :
  ∀ child cat cr catr to s b s',
    wait_loop sys sys_errno uninit ts child cat cr catr to s = (Ok b, s') →
    ∃ used,
      ts = used ++ ticks s'
      ∧ b = to || existsb is_token used
      ∧ ((∃ u t, used = u ++ [t] ∧ hard_tick uninit t)
         ∨ ((cr = false ∨ reaped child used) ∧ (catr = false ∨ reaped cat used))).
Proof.
induction ts as [|t ts IH]; intros child cat cr catr to s b s'; [done|].
cbn [wait_loop]. rewrite bind_eq. cbn [put].
assert (Hcons : ∀ cr' catr' to' s1,
  wait_loop sys sys_errno uninit ts child cat cr' catr' to' s1 = (Ok b, s') →
  is_token t || to = to' →
  (cr' = false → cr = false ∨ reaped child [t]) →
  (catr' = false → catr = false ∨ reaped cat [t]) →
  (cr' = true → cr = true) → (catr' = true → catr = true) →
  ∃ used,
    t :: ts = used ++ ticks s'
    ∧ b = to || existsb is_token used
    ∧ ((∃ u t0, used = u ++ [t0] ∧ hard_tick uninit t0)
       ∨ ((cr = false ∨ reaped child used) ∧ (catr = false ∨ reaped cat used)))).
{ intros cr' catr' to' s1 H Hto H1 H2 H3 H4.
  destruct (IH _ _ _ _ _ _ _ _ H) as (used & -> & -> & Hend).
  exists (t :: used). split; [done|]. split.
  { rewrite <- Hto. cbn [existsb]. by destruct (is_token t), to. }
  destruct Hend as [(u & t0 & -> & Ht0)|[Hc Hk]].
  { left. by exists (t :: u), t0. }
  right. split.
  - destruct Hc as [Hc|(p & Hp & Hp')].
    + destruct (H1 Hc) as [?|(p & Hp & Hp')]; [by left|].
      right. exists p. split; [|done]. apply list_elem_of_singleton in Hp as <-.
      by left.
    + right. exists p. split; [by right|done].
  - destruct Hk as [Hk|(p & Hp & Hp')].
    + destruct (H2 Hk) as [?|(p & Hp & Hp')]; [by left|].
      right. exists p. split; [|done]. apply list_elem_of_singleton in Hp as <-.
      by left.
    + right. exists p. split; [by right|done]. }
destruct t as [e|pid|e|e|bs].
- rewrite bind_eq. cbn [put]. by rewrite fail_eq.
- set (cr' := if Z.pos pid =? child then false else cr).
  set (catr' := if Z.pos pid =? cat then false else catr).
  assert (H1 : cr' = false → cr = false ∨ reaped child [Reaped pid]).
  { unfold cr'. destruct (Z.eqb_spec (Z.pos pid) child); [|by left].
    intros _. right. exists pid. split; [by left|done]. }
  assert (H2 : catr' = false → catr = false ∨ reaped cat [Reaped pid]).
  { unfold catr'. destruct (Z.eqb_spec (Z.pos pid) cat); [|by left].
    intros _. right. exists pid. split; [by left|done]. }
  destruct (negb cr' && negb catr') eqn:E.
  + intros [= <- <-]. exists [Reaped pid]. cbn [ticks set_ticks app].
    split; [done|]. split; [by destruct to|]. right.
    apply andb_prop in E as [E1 E2].
    split; [apply H1|apply H2]; by destruct cr', catr'.
  + intros H. apply (Hcons _ _ _ _ H); try done.
    * unfold cr'. by destruct (Z.pos pid =? child).
    * unfold catr'. by destruct (Z.pos pid =? cat).
- rewrite bind_eq. cbn [put]. destruct (e =? EINTR).
  + intros H. apply (Hcons _ _ _ _ H); auto.
  + by rewrite fail_eq.
- rewrite bind_eq. cbn [put]. by rewrite fail_eq.
- rewrite hard_timeout_first. case_bool_decide as HY.
  + intros [= <- <-]. exists [CtlRead bs]. cbn [ticks set_ticks app].
    split; [done|]. split; [by destruct to|]. left.
    exists [], (CtlRead bs). split; [done|]. simpl. congruence.
  + intros H. apply bind_inv_ok in H as ([] & s1 & _ & H).
    apply (Hcons _ _ _ _ H); auto.
Qed.

(** X16. The value of the wait loop tells whether a token arrived on the
    control channel while it was waiting: it is [true] exactly when one
    of the iterations it went through read the channel. *)
Theorem timed_out_means_token_read (ts : list tick) (child cat : Z)
    (cr catr : bool) (s s' : state) (b : bool) :
  wait_loop sys sys_errno uninit ts child cat cr catr false s = (Ok b, s') →
  ∃ used, ts = used ++ ticks s' ∧ b = existsb is_token used.
Proof.
intros H. destruct (wait_loop_returned _ _ _ _ _ _ _ _ _ H) as (used & H1 & H2 & _).
by exists used.
Qed.

(** X17. The wait loop comes back in two cases only: it has just read a
    token whose first byte is 'Y', or the command has been reaped and
    so has [cat] when the run has one. *)
Theorem wait_ends_with_children_or_hard_token (ts : list tick) (child cat : Z)
    (catr to : bool) (s s' : state) (b : bool) :
  wait_loop sys sys_errno uninit ts child cat true catr to s = (Ok b, s') →
  ∃ used, ts = used ++ ticks s'
    ∧ ((∃ u t, used = u ++ [t] ∧ hard_tick uninit t)
       ∨ (reaped child used ∧ (catr = false ∨ reaped cat used))).
Proof.
intros H. destruct (wait_loop_returned _ _ _ _ _ _ _ _ _ H) as (used & H1 & _ & H2).
exists used. split; [done|]. destruct H2 as [?|[[?|?] ?]]; [by left|done|by right].
Qed.

Lemma wait_loop_signals (ts : list tick) :
  ∀ child cat cr catr to,
    steps (adds (signals_only child))
      (wait_loop sys sys_errno uninit ts child cat cr catr to).
Proof.
induction ts as [|t ts IH]; intros child cat cr catr to; simpl.
- intros s r s' [= <- <-]. exists []. by rewrite app_nil_r.
- destruct t; steps_go; try done; apply IH.
Qed.

(** X18. The only signal the wait loop sends is SIGTERM, and it sends it to
    the command: [cat] is never signalled. *)
Theorem wait_loop_signals_command_only (ts : list tick) (child cat : Z)
    (cr catr to : bool) (s s' : state) (r : result bool) :
  wait_loop sys sys_errno uninit ts child cat cr catr to s = (r, s') →
  adds (signals_only child) s s'.
Proof. apply wait_loop_signals. Qed.

End WaitLoop.

Lemma timed_out_means_token_read_witness :
  let ts := [PollFail EINTR; CtlRead Host.soft_token; Reaped 7; Reaped 8] in
  let s := Sample.boot [] [] [] in
  let out := wait_loop Sample.sys Sample.sys_errno Sample.uninit ts 7 (-1)
               true false false s in
  ∃ used, ts = used ++ ticks out.2
          ∧ true = existsb is_token used.
Proof.
intros ts s out.
apply (timed_out_means_token_read Sample.sys Sample.sys_errno Sample.uninit
         ts 7 (-1) true false s out.2 true).
by vm_compute.
Defined.

Lemma wait_ends_with_children_or_hard_token_witness :
  let ts := [CtlRead Host.soft_token; Reaped 8; Reaped 7; Reaped 9] in
  let s := Sample.boot [] [] [] in
  let out := wait_loop Sample.sys Sample.sys_errno Sample.uninit ts 7 8
               true true false s in
  ∃ used, ts = used ++ ticks out.2
    ∧ ((∃ u t, used = u ++ [t] ∧ hard_tick Sample.uninit t)
       ∨ (reaped 7 used ∧ (true = false ∨ reaped 8 used))).
Proof.
intros ts s out.
apply (wait_ends_with_children_or_hard_token Sample.sys Sample.sys_errno
         Sample.uninit ts 7 8 true false s out.2 true).
by vm_compute.
Defined.

Lemma wait_loop_signals_command_only_witness :
  let ts := [CtlRead Host.soft_token; CtlRead Host.soft_token; Reaped 7] in
  let s := Sample.boot [] [] [] in
  adds (signals_only 7) s
    (wait_loop Sample.sys Sample.sys_errno Sample.uninit ts 7 8
       true false false s).2.
Proof.
intros ts s.
eapply (wait_loop_signals_command_only Sample.sys Sample.sys_errno Sample.uninit
          ts 7 8 true false false s).
apply surjective_pairing.
Defined.

(** ** A command given with a directory *)

(** X19. A command whose name has a slash is executed as it is given: one
    [execv] of that path, with no memory asked for and no use of PATH;
    when the file is not an executable image the shell is executed once
    with the path; when nothing could be executed the error of the last
    [execv] is reported and the child exits with status 1. *)
Theorem command_with_slash_not_searched (sys sys_errno : call → Z)
    (execv : string → list string → option Z) (run : Run) (s : state) :
  is_Some (CStr.strchr (cmd run) "/") →
  ∃ s', resolve_and_exec sys sys_errno execv run s = (Halt, s')
    ∧ trace s'
      = trace s
        ++ Execv (cmd run) (cmd run :: arg run)
           :: match execv (cmd run) (cmd run :: arg run) with
              | None => []
              | Some e =>
                  if e =? ENOEXEC then
                    Execv DEFAULT_SHELL (DEFAULT_SHELL :: cmd run :: arg run)
                    :: match execv DEFAULT_SHELL
                               (DEFAULT_SHELL :: cmd run :: arg run) with
                       | None => []
                       | Some e' => [Report (cmd run) e'; Exit 1]
                       end
                  else [Report (cmd run) e; Exit 1]
              end.
Proof.
intros Hs. unfold resolve_and_exec. rewrite (bool_decide_eq_true_2 _ Hs).
rewrite bind_eq. unfold mret at 1, M_ret at 1. rewrite bind_eq.
cbn [default String.length exec_loop]. rewrite bind_eq. cbn [emit].
destruct (execv (cmd run) (cmd run :: arg run)) as [e|]; [|by eexists].
rewrite bind_eq. cbn [put]. destruct (e =? ENOEXEC).
- rewrite bind_eq. cbn [emit].
  destruct (execv DEFAULT_SHELL _) as [e'|]; [|eexists; split; [done|]].
  + eexists. split; [reflexivity|]. simpl. by rewrite <- !app_assoc.
  + simpl. by rewrite <- !app_assoc.
- eexists. split; [reflexivity|]. simpl. by rewrite <- !app_assoc.
Qed.

Lemma command_with_slash_not_searched_witness :
  let run := Sample.run_of "/usr/bin/prog" ["-v"] [] in
  let s := set_environ (<["PATH" := "/opt/bin"]> ∅) (Sample.boot [] [] []) in
  ∃ s', resolve_and_exec Sample.sys Sample.sys_errno Sample.execv_script run s
        = (Halt, s')
    ∧ trace s' = [Execv "/usr/bin/prog" ["/usr/bin/prog"; "-v"];
                  Execv "/bin/bash" ["/bin/bash"; "/usr/bin/prog"; "-v"]].
Proof.
intros run s.
apply (command_with_slash_not_searched Sample.sys Sample.sys_errno
         Sample.execv_script run s).
by eexists.
Defined.

(** ** Images that end too early *)

Section Truncated.

Variable sys : call → Z.
Variable sys_errno : call → Z.
Variable config__unpack : list byte → option Config.
Variable uninit : nat → byte.

(** X20. An empty block device is refused while the header is read: "read
    /ubda header" with EPIPE, and nothing else is done. *)
Theorem empty_device_rejected (s : state) :
  ubda s = plain_file [] → sys (sys_open "/ubda" O_RDONLY) ≠ -1 →
  ∃ s', load_config sys sys_errno config__unpack uninit s = (Halt, s')
    ∧ trace s' = trace s ++ [Call (sys_open "/ubda" O_RDONLY);
                             Diag "read /ubda header" EPIPE;
                             if in_init s then PowerOff else Exit 1].
Proof.
intros Hu Ho. unfold load_config. rewrite bind_eq, MUST_ok by done.
rewrite bind_eq. unfold MUST_readall. rewrite bind_eq. cbn [get ubda log].
rewrite Hu, readall_empty by lia.
rewrite !bind_eq. cbn [put]. rewrite !bind_eq. cbn [put].
change (Word.to_int (-1) =? -1) with true. cbn match. rewrite fail_eq.
eexists. split; [reflexivity|]. simpl. by rewrite <- !app_assoc.
Qed.

(** X21. A payload that ends before the length the header declares is not
    noticed by the read: the decoder is called, on the bytes that are
    there followed by the rest of the buffer as [malloc] left it, and
    its verdict is the outcome. *)
Theorem truncated_payload_reaches_decoder (n : Z) (payload : list byte)
    (s : state) :
  ubda s = plain_file (Word.le32 MAGIC ++ Word.le32 n ++ payload) →
  0 < Z.of_nat (length payload) < n → n < 2 ^ 32 - 1 →
  sys (sys_open "/ubda" O_RDONLY) ≠ -1 → sys (sys_malloc n) ≠ 0 →
  let data := payload ++ drop (length payload) (fresh uninit n) in
  ∃ s1, trace s1 = trace s ++ [Call (sys_open "/ubda" O_RDONLY);
                               Call (sys_malloc n)]
    ∧ load_config sys sys_errno config__unpack uninit s
      = match config__unpack data with
        | Some cfg =>
            (Ok cfg, log (Close (sys (sys_open "/ubda" O_RDONLY))) s1)
        | None => fail "bad config" (set_errno EINVAL s1)
        end.
Proof.
intros Hu Hp Hn Ho Hm data. unfold load_config.
rewrite bind_eq, MUST_ok by done.
rewrite bind_eq, (read_header_plain _ _ _ (Word.le32 MAGIC ++ Word.le32 n) payload);
  [|by cbn [ubda log]; rewrite Hu, <- app_assoc
   |by rewrite length_app, !WordFacts.length_le32].
assert (E1 : take 4 (Word.le32 MAGIC ++ Word.le32 n) = Word.le32 MAGIC)
  by apply (take_app_length (Word.le32 MAGIC)).
assert (E2 : take 4 (drop 4 (Word.le32 MAGIC ++ Word.le32 n)) = Word.le32 n).
{ rewrite (drop_app_length (Word.le32 MAGIC)).
  apply take_ge. by rewrite WordFacts.length_le32. }
rewrite E1, E2.
rewrite !WordFacts.of_le32_le32 by (unfold MAGIC; lia).
rewrite Z.eqb_refl. cbn [negb]. rewrite bind_eq.
unfold mret at 1, M_ret at 1. rewrite bind_eq, MUST_ok by done.
set (s0 := log (Call (sys_malloc n))
             (set_ubda (plain_file payload)
                (log (Call (sys_open "/ubda" O_RDONLY)) s))).
assert (Hr : read (plain_file payload) n
             = ReadResult (Z.of_nat (length payload)) payload None (plain_file [])).
{ unfold read, deliver, plain_file. cbn [f_sched f_data].
  rewrite Z.max_r by lia.
  rewrite take_ge, drop_ge by lia. done. }
rewrite bind_eq.
rewrite (MUST_readall_ok "read config" (fresh uninit n) data n n (plain_file []) s0).
- exists (set_ubda (plain_file []) s0). split.
  + simpl. by rewrite <- !app_assoc.
  + by destruct (config__unpack data).
- cbn [ubda s0 log set_ubda]. rewrite readall_single.
  + by rewrite Hr.
  + lia.
  + rewrite length_fresh. lia.
  + rewrite Hr. simpl. lia.
- apply WordFacts.to_int_small. lia.
Qed.

End Truncated.

Lemma empty_device_rejected_witness :
  let s := Sample.boot [] [] [] in
  ∃ s', load_config Sample.sys Sample.sys_errno Sample.unpack Sample.uninit s
        = (Halt, s')
    ∧ trace s' = trace s ++ [Call (sys_open "/ubda" O_RDONLY);
                             Diag "read /ubda header" EPIPE;
                             if in_init s then PowerOff else Exit 1].
Proof.
intros s.
apply (empty_device_rejected Sample.sys Sample.sys_errno Sample.unpack
         Sample.uninit s); [reflexivity|by vm_compute].
Defined.

Lemma truncated_payload_reaches_decoder_witness :
  let payload := [x0a; x02; x2f; x61] in
  let s := Sample.boot (Word.le32 MAGIC ++ Word.le32 16 ++ payload) [] [] in
  let data := payload ++ drop (length payload) (fresh Sample.uninit 16) in
  ∃ s1, trace s1 = trace s ++ [Call (sys_open "/ubda" O_RDONLY);
                               Call (sys_malloc 16)]
    ∧ load_config Sample.sys Sample.sys_errno Sample.unpack Sample.uninit s
      = match Sample.unpack data with
        | Some cfg =>
            (Ok cfg, log (Close (Sample.sys (sys_open "/ubda" O_RDONLY))) s1)
        | None => fail "bad config" (set_errno EINVAL s1)
        end.
Proof.
intros payload s data.
apply (truncated_payload_reaches_decoder Sample.sys Sample.sys_errno Sample.unpack
         Sample.uninit 16 payload s).
- reflexivity.
- simpl. lia.
- lia.
- by vm_compute.
- by vm_compute.
Defined.

(** ** The directories of a mount point *)

Section Mkdirs.

Variable sys : call → Z.
Variable sys_errno : call → Z.

Lemma visit_all_ok (parts : list string) (s : state) :
  (∀ p, p ∈ parts → p ≠ "" → sys (sys_chdir p) ≠ -1) →
  ∃ s1, visit_all sys sys_errno parts s = (Ok tt, s1)
    ∧ trace s1
      = trace s ++ (filter (λ p, p ≠ "") parts ≫= λ p, [Mkdir p; Call (sys_chdir p)]).
Proof.
revert s. induction parts as [|p parts IH]; intros s Hp.
- exists s. by rewrite app_nil_r.
- cbn [visit_all]. rewrite bind_eq. unfold visit. rewrite filter_cons.
  destruct p as [|c p].
  + cbn [CStr.nonempty]. unfold mret at 1, M_ret at 1.
    rewrite decide_False by (by intros H). apply IH.
    intros q Hq. apply Hp. by right.
  + cbn [CStr.nonempty]. rewrite bind_eq. cbn [emit].
    rewrite bind_eq, MUST_ok by (apply Hp; [by left|done]).
    unfold mret at 1, M_ret at 1. rewrite decide_True by done.
    destruct (IH (log (Call (sys_chdir (String c p))) (log (Mkdir (String c p)) s)))
      as (s1 & -> & Ht); [intros q Hq; apply Hp; by right|].
    exists s1. split; [done|]. rewrite Ht. cbn [trace log mbind list_bind].
    by rewrite <- !app_assoc.
Qed.

(** X22. [mkdirs] walks the path from the root: for each part between
    slashes that is not empty it calls [mkdir], without looking at the
    result, and enters the directory; it starts and ends in the root
    directory.  It comes back when every [chdir] succeeds. *)
Theorem mkdirs_components (dir : string) (s : state) :
  sys (sys_chdir "/") ≠ -1 →
  (∀ p, p ∈ split_slash dir → p ≠ "" → sys (sys_chdir p) ≠ -1) →
  ∃ s', mkdirs sys sys_errno dir s = (Ok tt, s')
    ∧ trace s'
      = trace s ++ [Call (sys_chdir "/")]
        ++ (filter (λ p, p ≠ "") (split_slash dir)
            ≫= λ p, [Mkdir p; Call (sys_chdir p)])
        ++ [Call (sys_chdir "/")].
Proof.
intros Hr Hp. rewrite mkdirs_parts, bind_eq, MUST_ok by done.
destruct (visit_all_ok (split_slash dir) (log (Call (sys_chdir "/")) s) Hp)
  as (s1 & H1 & Ht).
rewrite bind_eq, H1, bind_eq, MUST_ok by done.
eexists. split; [reflexivity|]. cbn [trace log]. rewrite Ht. cbn [trace log].
by rewrite <- !app_assoc.
Qed.

End Mkdirs.

Lemma mkdirs_components_witness :
  ∃ s', mkdirs Sample.sys Sample.sys_errno "/host//usr/lib/" (Sample.boot [] [] [])
        = (Ok tt, s')
    ∧ trace s'
      = [Call (sys_chdir "/");
         Mkdir "host"; Call (sys_chdir "host");
         Mkdir "usr"; Call (sys_chdir "usr");
         Mkdir "lib"; Call (sys_chdir "lib");
         Call (sys_chdir "/")].
Proof.
apply (mkdirs_components Sample.sys Sample.sys_errno "/host//usr/lib/"
         (Sample.boot [] [] [])); by vm_compute.
Defined.

(** ** Finding the binaries *)

(** X23. A path that [locate] finds by itself exists and is one of the
    names, taken in the current directory or in the directory of the
    program; a path given on the command line is returned as it is,
    whether it exists or not; and the answer is [None] only when no
    name exists in either directory. *)
Theorem locate_result (exists_ : string → bool) (cwd bin : string)
    (arg : option string) (names : list string) :
  match Finder.locate exists_ cwd bin arg names with
  | Some p =>
      arg = Some p
      ∨ (arg = None ∧ exists_ p = true
         ∧ ∃ n, n ∈ names ∧ (p = Finder.join cwd n ∨ p = Finder.join bin n))
  | None =>
      arg = None
      ∧ ∀ n, n ∈ names →
             exists_ (Finder.join cwd n) = false
             ∧ exists_ (Finder.join bin n) = false
  end.
Proof.
destruct arg as [a|]; [by left|]. cbn [Finder.locate].
induction names as [|name names IH]; cbn [Finder.locate_names].
- split; [done|]. by intros n Hn%elem_of_nil.
- destruct (exists_ (Finder.join cwd name)) eqn:E1.
  { right. split_and!; try done. exists name. split; [by left|by left]. }
  destruct (exists_ (Finder.join bin name)) eqn:E2.
  { right. split_and!; try done. exists name. split; [by left|by right]. }
  destruct (Finder.locate_names exists_ cwd bin names) as [p|].
  + destruct IH as [?|(_ & Hp & n & Hn & Hj)]; [done|].
    right. split_and!; try done. exists n. split; [by right|done].
  + destruct IH as [_ IH]. split; [done|].
    intros n [->|Hn]%elem_of_cons; [done|by apply IH].
Qed.

(** X24. The first name that exists wins, and for one name the current
    directory comes before the directory of the program. *)
Theorem locate_prefers_first (exists_ : string → bool) (cwd bin : string)
    (pre : list string) (name : string) (post : list string) :
  (∀ n, n ∈ pre → exists_ (Finder.join cwd n) = false
                  ∧ exists_ (Finder.join bin n) = false) →
  Finder.locate exists_ cwd bin None (pre ++ name :: post)
  = if exists_ (Finder.join cwd name) then Some (Finder.join cwd name)
    else if exists_ (Finder.join bin name) then Some (Finder.join bin name)
    else Finder.locate exists_ cwd bin None post.
Proof.
intros Hpre. cbn [Finder.locate]. induction pre as [|n pre IH]; [done|].
cbn [app Finder.locate_names].
destruct (Hpre n ltac:(left)) as [-> ->]. apply IH.
intros m Hm. apply Hpre. by right.
Qed.

Lemma locate_prefers_first_witness :
  let exists_ p := bool_decide (p = "/usr/bin/linux" ∨ p = "/opt/umlbox/linux") in
  Finder.locate exists_ "/home/u" "/opt/umlbox" None
    (["umlbox-linux"] ++ "linux" :: ["/usr/bin/linux"])
  = Some "/opt/umlbox/linux".
Proof.
intros exists_.
apply (locate_prefers_first exists_ "/home/u" "/opt/umlbox" ["umlbox-linux"]
         "linux" ["/usr/bin/linux"]).
intros n Hn%list_elem_of_singleton. subst n. by vm_compute.
Defined.

(** ** An environment variable, from the option to the command *)

Lemma strchr_split (s pre post : string) (c : ascii) :
  CStr.strchr s c = Some (pre, post) →
  s = pre +:+ String c post ∧ CStr.strchr pre c = None.
Proof.
revert pre. induction s as [|a s IH]; intros pre; simpl; [done|].
destruct (Ascii.eqb_spec a c) as [->|Hac].
- by intros [= <- <-].
- destruct (CStr.strchr s c) as [[pre' post']|]; [|done].
  intros [= <- <-]. destruct (IH pre' eq_refl) as [-> Hn]. split; [done|].
  simpl. destruct (Ascii.eqb_spec a c); [done|]. by rewrite Hn.
Qed.

(** X25. An option [--env VAR=VALUE] is cut at its first equals sign, so
    the value may hold further ones, and the guest puts VALUE under VAR
    in the environment of the command.  With an empty VAR the guest
    leaves the environment as it is, and says nothing. *)
Theorem env_option_reaches_command (spec : string) (e : EnvVar) (s : state) :
  Args.env_var spec = Some e →
  spec = key e +:+ "=" +:+ value e
  ∧ environ (setenv (key e) (value e) s).2
    = if CStr.nonempty (key e) then <[key e := value e]> (environ s)
      else environ s.
Proof.
unfold Args.env_var.
destruct (CStr.strchr spec "=") as [[k v]|] eqn:E; [|done].
intros [= <-]. cbn [key value]. apply strchr_split in E as [-> Hk].
split; [done|]. destruct (CStr.nonempty k) eqn:En.
- by rewrite setenv_valid.
- by rewrite setenv_invalid by (by left).
Qed.

Lemma env_option_reaches_command_witness :
  let s := Sample.boot [] [] [] in
  "OPTS=a=b" = "OPTS" +:+ "=" +:+ "a=b"
  ∧ environ (setenv "OPTS" "a=b" s).2
    = if CStr.nonempty "OPTS" then <["OPTS" := "a=b"]> (environ s) else environ s.
Proof.
intros s.
apply (env_option_reaches_command "OPTS=a=b" {| key := "OPTS"; value := "a=b" |} s).
reflexivity.
Defined.
